(** * Swarm orchestrator: task analysis, decomposition, level scheduling,
      level-parallel execution and the persisted queue

    A shallow embedding of
    - [.trae/skills/swarm-orchestrator/orchestrator.py] (module [Orchestrator]),
    - [.trae/skills/workflow-runner/workflow_runner.py] (modules [Runner] and
      [Engine]),
    followed by the properties of the level schedulers, the analyzers, the
    decomposers, the execution engine and the queue functions.

    Conventions.
    - Python [str] values are [string]s holding their UTF-8 bytes.  The test
      [kw in s] is a substring test on code points; on valid UTF-8 it holds
      exactly when the bytes of [kw] occur in the bytes of [s], which is what
      [str_in] decides.
    - A Python [dict] keyed by task ids is a [gmap string _], a [set] of ids
      a [gset string].  Iterating over a [set] visits its members in an order
      Python leaves unspecified; the embedding visits them in the order of
      [elements], and the properties below only speak about membership in a
      level, never about the position inside it.  A list built by iterating
      over a [dict] is likewise taken in the order of [map_to_list].
    - A [while] loop is a [Fixpoint] on a fuel argument; the entry points
      pass the size of the set they consume, and the lemmas
      [get_execution_order_fuel] and [build_execution_order_fuel] show that
      any larger amount gives the same result.
    - A Python [float] is an IEEE 754 binary64 double: a [spec_float] of the
      standard library, with its operations at 53 bits of mantissa and
      exponents up to 1024, rounding to nearest even.
    - The files under [.trae/swarm] are a record of what the file system
      answers: the queue the queue file holds, and what each path holds that
      a task can name as its result file. *)

From stdpp Require Import gmap strings list fin_maps fin_sets relations pretty.
From Stdlib Require Import ZArith SpecFloat.

Set Warnings "-clear-no-such-hyp".
Set Warnings "-register-all".

(** ** Strings *)

(** [kw in s] *)
Fixpoint str_in (kw s : string) : bool :=
  String.prefix kw s ||
  match s with
  | EmptyString => false
  | String _ s' => str_in kw s'
  end.

Definition newline : string := String (Ascii.ascii_of_nat 10) EmptyString.

(** [sep.join(parts)] *)
Definition str_join (sep : string) (parts : list string) : string :=
  String.concat sep parts.

(** [sum(w for kw in keywords if kw in s)] *)
Definition keyword_points (w : nat) (keywords : list string) (s : string) : nat :=
  w * length (filter (λ kw, str_in kw s = true) keywords).

(** [len([d for d in deps if d in X])] *)
Definition count_in (X : gset string) (deps : list string) : nat :=
  length (filter (λ d, d ∈ X) deps).

(** ** Exceptions and fresh identifiers

    [decompose_task] draws task ids from [uuid.uuid4] and time stamps from
    [datetime.now], and may raise.  Both sources are read through an
    environment; the state counts the ids drawn so far. *)

Inductive Exn :=
  | IndexError
  | ZeroDivisionError
  | OSError             (* and its subclasses: IsADirectoryError,
                           FileNotFoundError, PermissionError *)
  | JSONDecodeError
  | AttributeError.

Record Env := mkEnv {
  uuid_hex8 : nat → string;   (* the first 8 hex digits of the n-th uuid4 *)
  now_iso : nat → string      (* datetime.now().isoformat() at that moment *)
}.

Definition M (A : Type) : Type := Env → nat → Exn + (A * nat).

#[global] Instance M_ret : MRet M := λ A a _ n, inr (a, n).
#[global] Instance M_bind : MBind M := λ A B f m env n,
  match m env n with
  | inl e => inl e
  | inr (a, n') => f a env n'
  end.

Definition raise {A} (e : Exn) : M A := λ _ _, inl e.

(** [l[i]] for a non-negative literal index *)
Definition index {A} (l : list A) (i : nat) : M A :=
  match l !! i with
  | Some x => mret x
  | None => raise IndexError
  end.

(** ** Numbers and JSON documents *)

(** [float(z)]: the double nearest the integer [z]; below 2^53 every
    integer is a double. *)
Definition float_of_Z (z : Z) : spec_float :=
  binary_normalize 53 1024 z 0 false.

(** A number as [json.dumps] tells them apart: [0] is not [0.0]. *)
Inductive number :=
  | py_int (z : Z)
  | py_float (f : spec_float).

(** What [json.load] returns. *)
Inductive json :=
  | JNull
  | JBool (b : bool)
  | JInt (z : Z)
  | JFloat (f : spec_float)
  | JStr (s : string)
  | JList (l : list json)
  | JDict (m : gmap string json).

(** ** The level loop both schedulers refine

    Not a function of the source: the common shape of the two scheduling
    loops, used to state their invariants once.  [ready_in remaining n] is
    the readiness test of the scheduler at hand. *)

Fixpoint level_loop (ready_in : gset string → string → Prop)
    `{!∀ R n, Decision (ready_in R n)}
    (fuel : nat) (remaining : gset string) : list (list string) :=
  match fuel with
  | O => []
  | S fuel' =>
      if decide (remaining = ∅) then [] else
      match filter (ready_in remaining) (elements remaining) with
      | [] => []
      | ready => ready :: level_loop ready_in fuel' (remaining ∖ list_to_set ready)
      end
  end.

(** The set still unscheduled after the first [j] levels. *)
Definition remaining_after (R : gset string) (levels : list (list string)) (j : nat)
    : gset string :=
  R ∖ list_to_set (concat (take j levels)).

(** [x] is placed in the level of index [j]. *)
Definition in_level (levels : list (list string)) (j : nat) (x : string) : Prop :=
  ∃ lvl, levels !! j = Some lvl ∧ x ∈ lvl.

(** ** Dependency graphs *)

(** The edges of a dag that stay inside it: [n] depends on [d], and [d] is
    a key of the dag.  Dangling ids give no edge. *)
Definition edge (dag : gmap string (list string)) (n d : string) : Prop :=
  ∃ deps, dag !! n = Some deps ∧ d ∈ deps ∧ d ∈ dom dag.

(** [n] lies on a dependency cycle. *)
Definition on_cycle (dag : gmap string (list string)) (n : string) : Prop :=
  tc (edge dag) n n.

Definition acyclic (dag : gmap string (list string)) : Prop :=
  ∀ n, ¬ on_cycle dag n.

(** Every dependency id is a key of the dag. *)
Definition closed (dag : gmap string (list string)) : Prop :=
  ∀ n deps d, dag !! n = Some deps → d ∈ deps → d ∈ dom dag.

(** ** orchestrator.py *)

Module Orchestrator.

Inductive TaskStatus := PENDING | RUNNING | COMPLETED | FAILED | RETRYING.

Definition TaskStatus_value (s : TaskStatus) : string :=
  match s with
  | PENDING => "pending"
  | RUNNING => "running"
  | COMPLETED => "completed"
  | FAILED => "failed"
  | RETRYING => "retrying"
  end.

Inductive TaskPriority := HIGH | MEDIUM | LOW.

Definition TaskPriority_value (p : TaskPriority) : string :=
  match p with
  | HIGH => "high"
  | MEDIUM => "medium"
  | LOW => "low"
  end.

Inductive WorkerType := RESEARCHER | CODER | TESTER | WRITER | REVIEWER.

Definition WorkerType_value (w : WorkerType) : string :=
  match w with
  | RESEARCHER => "researcher"
  | CODER => "coder"
  | TESTER => "tester"
  | WRITER => "writer"
  | REVIEWER => "reviewer"
  end.

(** The dataclass [SubTask]; [asdict] of it is what the queue file holds for
    a task, so the same record stands for the persisted task dict.  The two
    free-form dicts carry string payloads. *)
Record SubTask := mkSubTask {
  task_id : string;
  description : string;
  worker_type : string;
  dependencies : list string;
  priority : string;
  status : string;
  worker_id : option string;
  created_at : option string;
  started_at : option string;
  completed_at : option string;
  result_file : option string;
  error : option string;
  input_data : gmap string string;
  expected_output : gmap string string
}.

(** [SubTask(task_id=.., description=.., worker_type=.., dependencies=..,
    priority=..)] with the defaults of the other fields and [__post_init__]. *)
Definition SubTask_init (task_id description worker_type : string)
    (dependencies : list string) (priority : string) : M SubTask :=
  λ env n, inr (mkSubTask task_id description worker_type dependencies priority
                  "pending" None (Some (now_iso env n)) None None None None ∅ ∅, n).

Record TaskAnalysis := mkTaskAnalysis {
  core_goal : string;
  task_type : string;
  complexity : string;
  swarm_mode : bool;
  reasoning : string
}.

Definition _generate_task_id : M string :=
  λ env n, inr ("task_" +:+ uuid_hex8 env n, S n).

Definition _generate_main_task_id : M string :=
  λ env n, inr ("main_" +:+ uuid_hex8 env n, S n).

Definition keywords_complex : list string :=
  ["系统"; "架构"; "重构"; "开发"; "实现"; "集成"; "部署"; "测试套件"; "文档系统"].

Definition keywords_simple : list string :=
  ["修改"; "修复"; "优化"; "添加"; "更新"].

Definition complexity_score (user_request : string) : nat :=
  keyword_points 2 keywords_complex user_request
  + keyword_points 1 keywords_simple user_request.

(** The parallelism hint read in the medium band. *)
Definition parallel_hint (user_request : string) : bool :=
  str_in "并行" user_request || str_in "同时" user_request.

Definition classify_type (user_request : string) : string :=
  if str_in "测试" user_request then "test"
  else if str_in "文档" user_request then "docs"
  else if str_in "调研" user_request || str_in "研究" user_request then "research"
  else if str_in "重构" user_request then "refactor"
  else "development".

Definition analyze_task (user_request : string) : TaskAnalysis :=
  let complexity_score := complexity_score user_request in
  let '(complexity, swarm_mode) :=
    if 4 <=? complexity_score then ("complex", true)
    else if 2 <=? complexity_score then ("medium", parallel_hint user_request)
    else ("simple", false) in
  let task_type := classify_type user_request in
  mkTaskAnalysis user_request task_type complexity swarm_mode
    ("复杂度评分: " +:+ pretty complexity_score +:+ ", 任务类型: " +:+ task_type).

(** One [SubTask(...)] entry of a template: the keyword arguments are
    evaluated in the order they are written, [task_id] first. *)
Definition entry (description : string) (worker_type : WorkerType)
    (dependencies : M (list string)) (priority : TaskPriority) : M SubTask :=
  tid ← _generate_task_id;
  deps ← dependencies;
  SubTask_init tid description (WorkerType_value worker_type) deps
    (TaskPriority_value priority).

(** [[tasks[i].task_id]] *)
Definition id_at (tasks : list SubTask) (i : nat) : M (list string) :=
  t ← index tasks i; mret [task_id t].

(** The three list displays of [decompose_task].  Each is evaluated before
    its value is assigned, so the name [tasks] inside it denotes the list
    bound at that point, which is the argument here. *)
Definition development_template (tasks : list SubTask) : M (list SubTask) :=
  t0 ← entry "调研技术方案和最佳实践" RESEARCHER (mret []) HIGH;
  t1 ← entry "设计系统架构和数据模型" CODER
         (if bool_decide (tasks ≠ []) then id_at tasks 0 else mret []) HIGH;
  t2 ← entry "实现核心功能代码" CODER
         (if 1 <? length tasks then id_at tasks 1 else mret []) HIGH;
  t3 ← entry "编写单元测试和集成测试" TESTER
         (if 2 <? length tasks then id_at tasks 2 else mret []) MEDIUM;
  t4 ← entry "编写 API 文档和使用说明" WRITER
         (if 2 <? length tasks then id_at tasks 2 else mret []) MEDIUM;
  t5 ← entry "代码审查和质量检查" REVIEWER
         (if 3 <? length tasks then mret (task_id <$> take 2 (drop 2 tasks))
          else mret []) MEDIUM;
  mret [t0; t1; t2; t3; t4; t5].

Definition refactor_template (tasks : list SubTask) : M (list SubTask) :=
  t0 ← entry "分析现有代码结构" RESEARCHER (mret []) HIGH;
  t1 ← entry "设计重构方案" CODER (id_at tasks 0) HIGH;
  t2 ← entry "执行代码重构" CODER (id_at tasks 1) HIGH;
  t3 ← entry "验证重构结果" TESTER (id_at tasks 2) MEDIUM;
  mret [t0; t1; t2; t3].

Definition test_template (tasks : list SubTask) : M (list SubTask) :=
  t0 ← entry "分析测试需求" RESEARCHER (mret []) HIGH;
  t1 ← entry "编写测试用例" TESTER (id_at tasks 0) HIGH;
  t2 ← entry "执行测试并生成报告" TESTER (id_at tasks 1) MEDIUM;
  mret [t0; t1; t2].

Definition decompose_task (analysis : TaskAnalysis) : M (list SubTask) :=
  let tasks : list SubTask := [] in
  if bool_decide (task_type analysis = "development") then
    development_template tasks
  else if bool_decide (task_type analysis = "refactor") then
    refactor_template tasks
  else if bool_decide (task_type analysis = "test") then
    test_template tasks
  else
    t0 ← entry ("执行任务: " +:+ core_goal analysis) CODER (mret []) MEDIUM;
    mret [t0].

Definition build_dag (tasks : list SubTask) : gmap string (list string) :=
  foldl (λ dag task, <[task_id task := dependencies task]> dag) ∅ tasks.

(** The two passes that fill [in_degree] before the loop. *)
Definition init_in_degree (dag : gmap string (list string)) : gmap string nat :=
  map_fold (λ node deps in_degree, <[node := count_in (dom dag) deps]> in_degree)
    ((λ _, 0) <$> dag) dag.

(** [for node in remaining: in_degree[node] = len([d for d in dag[node] if d
    in remaining])].  [remaining] only holds keys of [dag], so [dag[node]]
    is always there. *)
Definition recount (dag : gmap string (list string)) (remaining : gset string)
    (in_degree : gmap string nat) : gmap string nat :=
  foldl (λ in_degree node,
           <[node := count_in remaining (default [] (dag !! node))]> in_degree)
    in_degree (elements remaining).

(** The [while remaining] loop of [get_execution_order]. *)
Fixpoint order_loop (dag : gmap string (list string)) (fuel : nat)
    (in_degree : gmap string nat) (remaining : gset string)
    (levels : list (list string)) : list (list string) :=
  match fuel with
  | O => levels
  | S fuel' =>
      if decide (remaining = ∅) then levels else
      match filter (λ n, in_degree !! n = Some 0) (elements remaining) with
      | [] => levels
      | ready =>
          let remaining' := remaining ∖ list_to_set ready in
          order_loop dag fuel' (recount dag remaining' in_degree) remaining'
            (levels ++ [ready])
      end
  end.

Definition get_execution_order_fueled (fuel : nat)
    (dag : gmap string (list string)) : list (list string) :=
  order_loop dag fuel (init_in_degree dag) (dom dag) [].

Definition get_execution_order (dag : gmap string (list string))
    : list (list string) :=
  get_execution_order_fueled (size dag) dag.

(** The queue file, as [create_queue] writes it. *)
Record Queue := mkQueue {
  version : string;
  queue_created_at : string;
  main_task_id : string;
  tasks : gmap string SubTask;
  dag : gmap string (list string);
  execution_order : list (list string)
}.

(** The dict [save_result] writes to a result file. *)
Record ResultFile := mkResultFile {
  result_task_id : string;
  result_worker_id : string;
  result_status : string;
  output : gmap string json;
  execution_time : spec_float;
  tokens_used : Z;
  result_completed_at : string
}.

(** [json.dump(result)] followed by [json.load]. *)
Definition result_dict (r : ResultFile) : json :=
  JDict (<["task_id" := JStr (result_task_id r)]>
         (<["worker_id" := JStr (result_worker_id r)]>
          (<["status" := JStr (result_status r)]>
           (<["output" := JDict (output r)]>
            (<["execution_time" := JFloat (execution_time r)]>
             (<["tokens_used" := JInt (tokens_used r)]>
              (<["completed_at" := JStr (result_completed_at r)]> ∅))))))).

(** What a path holds for which [Path.exists()] does not answer false: a
    JSON document, or something on which [exists], [open] or [json.load]
    raises (a directory, a path or file that cannot be read, a file that
    is not JSON). *)
Inductive PathEntry :=
  | document (v : json)
  | unloadable (e : Exn).

(** The files under [.trae/swarm]: the queue [queue.json] holds when it
    exists, and what the paths hold that exist; a path that is no key does
    not exist.  A path is a key as the string it is written with: two
    strings are taken to name two files, and none of them the queue
    file. *)
Record Store := mkStore {
  queue_file : option Queue;
  result_files : gmap string PathEntry
}.

Definition create_queue (now : string) (main_task_id : string)
    (tasks : list SubTask) (dag : gmap string (list string)) (st : Store)
    : Queue * Store :=
  let queue_data :=
    mkQueue "1.0" now main_task_id
      (foldl (λ m task, <[task_id task := task]> m) ∅ tasks)
      dag (get_execution_order dag) in
  (queue_data, mkStore (Some queue_data) (result_files st)).

(** [read_queue]: [None] stands for the empty dict, returned when the file
    is missing. *)
Definition read_queue (st : Store) : option Queue := queue_file st.

(** The keyword arguments [update_task_status] accepts: the fields of the
    task dict other than [status], which is a named parameter and cannot be
    passed by keyword a second time. *)
Inductive kwarg :=
  | kw_task_id (v : string)
  | kw_description (v : string)
  | kw_worker_type (v : string)
  | kw_dependencies (v : list string)
  | kw_priority (v : string)
  | kw_worker_id (v : option string)
  | kw_created_at (v : option string)
  | kw_started_at (v : option string)
  | kw_completed_at (v : option string)
  | kw_result_file (v : option string)
  | kw_error (v : option string)
  | kw_input_data (v : gmap string string)
  | kw_expected_output (v : gmap string string).

Definition set_status (v : string) (t : SubTask) : SubTask :=
  let '(mkSubTask a b c d e _ g h i j k l m n) := t in
  mkSubTask a b c d e v g h i j k l m n.

Definition set_field (t : SubTask) (kw : kwarg) : SubTask :=
  let '(mkSubTask a b c d e f g h i j k l m n) := t in
  match kw with
  | kw_task_id v => mkSubTask v b c d e f g h i j k l m n
  | kw_description v => mkSubTask a v c d e f g h i j k l m n
  | kw_worker_type v => mkSubTask a b v d e f g h i j k l m n
  | kw_dependencies v => mkSubTask a b c v e f g h i j k l m n
  | kw_priority v => mkSubTask a b c d v f g h i j k l m n
  | kw_worker_id v => mkSubTask a b c d e f v h i j k l m n
  | kw_created_at v => mkSubTask a b c d e f g v i j k l m n
  | kw_started_at v => mkSubTask a b c d e f g h v j k l m n
  | kw_completed_at v => mkSubTask a b c d e f g h i v k l m n
  | kw_result_file v => mkSubTask a b c d e f g h i j v l m n
  | kw_error v => mkSubTask a b c d e f g h i j k v m n
  | kw_input_data v => mkSubTask a b c d e f g h i j k l v n
  | kw_expected_output v => mkSubTask a b c d e f g h i j k l m v
  end.

(** [task.update(kwargs)] *)
Definition update_fields (t : SubTask) (kwargs : list kwarg) : SubTask :=
  foldl set_field t kwargs.

Definition update_task_status (task_id status : string) (kwargs : list kwarg)
    (st : Store) : Store :=
  match read_queue st with
  | None => st
  | Some queue =>
      match tasks queue !! task_id with
      | None => st
      | Some task =>
          let task' := update_fields (set_status status task) kwargs in
          mkStore
            (Some (mkQueue (version queue) (queue_created_at queue)
                     (main_task_id queue) (<[task_id := task']> (tasks queue))
                     (dag queue) (execution_order queue)))
            (result_files st)
      end
  end.

Definition get_ready_tasks (st : Store) : list SubTask :=
  match read_queue st with
  | None => []
  | Some queue =>
      let completed_tasks : gset string :=
        dom (filter (λ p, status p.2 = "completed") (tasks queue)) in
      (filter (λ p, status p.2 = "pending"
                    ∧ Forall (λ d, d ∈ completed_tasks) (dependencies p.2))
         (map_to_list (tasks queue))).*2
  end.

(** The dict [get_progress] returns.  [progress_percent] is [None] when the
    key is absent, which is the case on the early return for an empty
    queue. *)
Record Progress := mkProgress {
  total : nat;
  completed : nat;
  running : nat;
  pending : nat;
  failed : nat;
  progress_percent : option number
}.

(** [sum(1 for t in tasks.values() if t.get("status") == status)] *)
Definition count_status (tasks : gmap string SubTask) (s : string) : nat :=
  length (filter (λ p, status p.2 = s) (map_to_list tasks)).

(** [a / b] on two counts: Python's true division of two [int]s.  It
    raises on a zero divisor; otherwise, the operands being below 2^53 as
    the sizes of a dict are, CPython converts both to doubles, without
    rounding, and divides the doubles. *)
Definition true_div (a b : nat) : Exn + spec_float :=
  if decide (b = 0) then inl ZeroDivisionError
  else inr (SFdiv 53 1024 (float_of_Z (Z.of_nat a)) (float_of_Z (Z.of_nat b))).

Definition get_progress (st : Store) : Exn + Progress :=
  match read_queue st with
  | None => inr (mkProgress 0 0 0 0 0 None)
  | Some queue =>
      let tasks := tasks queue in
      let total := size tasks in
      let completed := count_status tasks "completed" in
      let percent : Exn + number :=
        if 0 <? total then
          match true_div completed total with
          | inl e => inl e
          | inr ratio => inr (py_float (SFmul 53 1024 ratio (float_of_Z 100)))
          end
        else inr (py_int 0) in
      match percent with
      | inl e => inl e
      | inr percent =>
          inr (mkProgress total completed
                 (count_status tasks "running") (count_status tasks "pending")
                 (count_status tasks "failed") (Some percent))
      end
  end.

(** What [open(self.results_path / f"{task_id}.json", 'w')] opens when it
    does not raise: a result file, and then [path] is [str(result_file)];
    or the queue file itself, which an id such as [../queue] names. *)
Inductive Opened :=
  | result_path (path : string)
  | the_queue_file.

(** What [save_result] leaves: the files, or a queue file that holds the
    result written over the queue, which is no queue any more. *)
Inductive Saved :=
  | saved (st : Store)
  | queue_overwritten (result : json).

(** [save_result].  [open_result_file task_id] is what [open] does on the
    result file: it raises, as it does for an id that is no file name, or
    it opens a file.  [now] and [now'] are the two readings of the clock.
    When the file opened is the queue file, [update_task_status] reads the
    result back as the queue, finds no key [tasks] in it and writes
    nothing. *)
Definition save_result (open_result_file : string → Exn + Opened)
    (now now' : string) (task_id worker_id : string)
    (output : gmap string json) (execution_time : spec_float) (tokens_used : Z)
    (st : Store) : Exn + Saved :=
  let result :=
    mkResultFile task_id worker_id "completed" output execution_time
      tokens_used now in
  match open_result_file task_id with
  | inl e => inl e
  | inr the_queue_file => inr (queue_overwritten (result_dict result))
  | inr (result_path result_file) =>
      inr (saved
             (update_task_status task_id "completed"
                [kw_worker_id (Some worker_id);
                 kw_result_file (Some result_file);
                 kw_completed_at (Some now')]
                (mkStore (queue_file st)
                   (<[result_file := document (result_dict result)]>
                      (result_files st)))))
  end.

(** [f"{summary}"]: a [str] is taken as it is; [str] is [str()] on the
    other values. *)
Definition format_value (str : json → string) (v : json) : string :=
  match v with
  | JStr s => s
  | _ => str v
  end.

(** One turn of the loop of [_generate_summary]; [.get] is an attribute of
    a dict only. *)
Definition summary_line (str : json → string) (task_id : string)
    (result : json) : Exn + string :=
  match result with
  | JDict result =>
      match default (JDict ∅) (result !! "output") with
      | JDict output =>
          let summary := default (JStr "已完成") (output !! "summary") in
          inr ("- " +:+ task_id +:+ ": " +:+ format_value str summary)
      | _ => inl AttributeError
      end
  | _ => inl AttributeError
  end.

Fixpoint summary_parts (str : json → string) (results : list (string * json))
    : Exn + list string :=
  match results with
  | [] => inr []
  | (task_id, result) :: results' =>
      match summary_line str task_id result with
      | inl e => inl e
      | inr line =>
          match summary_parts str results' with
          | inl e => inl e
          | inr lines => inr (line :: lines)
          end
      end
  end.

Definition _generate_summary (str : json → string)
    (results : list (string * json)) : Exn + string :=
  match results with
  | [] => inr "无执行结果"
  | _ =>
      match summary_parts str results with
      | inl e => inl e
      | inr summary_parts => inr (str_join newline summary_parts)
      end
  end.

(** The dict [aggregate_results] returns; the keys after [results] are
    absent on the early return. *)
Record Aggregate := mkAggregate {
  aggregate_status : string;
  aggregate_main_task_id : option string;
  aggregate_progress : option Progress;
  results : list (string * json);
  summary : option string
}.

(** [Path(path).exists()], then [open] and [json.load]: [None] when the
    path does not exist. *)
Definition load_result (st : Store) (path : string) : Exn + option json :=
  match result_files st !! path with
  | None => inr None
  | Some (unloadable e) => inl e
  | Some (document v) => inr (Some v)
  end.

(** The body of the loop of [aggregate_results] for one task: the document
    to enter in [results], if any. *)
Definition task_result (st : Store) (task : SubTask) : Exn + option json :=
  if bool_decide (status task = "completed") then
    match result_file task with
    | Some path =>
        if bool_decide (path = "") then inr None else load_result st path
    | None => inr None
    end
  else inr None.

(** The loop of [aggregate_results] over the tasks of the queue. *)
Fixpoint collect_results (st : Store) (tasks : list (string * SubTask))
    : Exn + list (string * json) :=
  match tasks with
  | [] => inr []
  | (task_id, task) :: tasks' =>
      match task_result st task with
      | inl e => inl e
      | inr loaded =>
          match collect_results st tasks' with
          | inl e => inl e
          | inr results =>
              inr (match loaded with
                   | Some v => (task_id, v) :: results
                   | None => results
                   end)
          end
      end
  end.

Definition aggregate_results (str : json → string) (st : Store)
    : Exn + Aggregate :=
  match read_queue st with
  | None => inr (mkAggregate "no_tasks" None None [] None)
  | Some queue =>
      match collect_results st (map_to_list (tasks queue)) with
      | inl e => inl e
      | inr results =>
          match get_progress st with
          | inl e => inl e
          | inr progress =>
              let final_status :=
                if 0 <? failed progress
                then (if 0 <? completed progress then "partial" else "failed")
                else "success" in
              match _generate_summary str results with
              | inl e => inl e
              | inr summary =>
                  inr (mkAggregate final_status (Some (main_task_id queue))
                         (Some progress) results (Some summary))
              end
          end
      end
  end.

(** The dict [execute] returns: the simple-task answer, or the plan that
    was persisted. *)
Inductive Execution :=
  | simple_task (analysis : TaskAnalysis)
  | ready (main_task_id : string) (analysis : TaskAnalysis)
      (tasks : list SubTask) (dag : gmap string (list string))
      (execution_order : list (list string)).

(** [datetime.now().isoformat()] *)
Definition now : M string := λ env n, inr (now_iso env n, n).

Definition execute (user_request : string) (st : Store)
    : M (Execution * Store) :=
  let analysis := analyze_task user_request in
  if negb (swarm_mode analysis) then mret (simple_task analysis, st)
  else
    tasks ← decompose_task analysis;
    let dag := build_dag tasks in
    let execution_order := get_execution_order dag in
    main_task_id ← _generate_main_task_id;
    created ← now;
    let '(queue, st') := create_queue created main_task_id tasks dag st in
    mret (ready main_task_id analysis tasks dag execution_order, st').

End Orchestrator.

(** ** workflow_runner.py *)

Module Runner.

Inductive TaskStatus := PENDING | RUNNING | COMPLETED | FAILED.

Definition TaskStatus_value (s : TaskStatus) : string :=
  match s with
  | PENDING => "pending"
  | RUNNING => "running"
  | COMPLETED => "completed"
  | FAILED => "failed"
  end.

(** The dataclass [SwarmTask]. *)
Record SwarmTask := mkSwarmTask {
  task_id : string;
  description : string;
  worker_type : string;
  dependencies : list string;
  status : string;
  result : option (gmap string string)
}.

Definition complex_keywords : list string :=
  ["系统"; "架构"; "重构"; "开发"; "实现"; "构建"; "设计"].

Definition simple_keywords : list string :=
  ["修改"; "修复"; "优化"; "添加"; "更新"].

Definition complexity_score (task_description : string) : nat :=
  keyword_points 2 complex_keywords task_description
  + keyword_points 1 simple_keywords task_description.

Record Complexity := mkComplexity {
  complexity : string;
  swarm_mode : bool
}.

Definition analyze_complexity (task_description : string) : Complexity :=
  let complexity_score := complexity_score task_description in
  if 4 <=? complexity_score then mkComplexity "complex" true
  else if 2 <=? complexity_score then mkComplexity "medium" false
  else mkComplexity "simple" false.

Definition decompose_task (task_description : string) : list SwarmTask :=
  [ mkSwarmTask "task_001" "调研技术方案" "researcher" [] "pending" None;
    mkSwarmTask "task_002" "设计系统架构" "coder" ["task_001"] "pending" None;
    mkSwarmTask "task_003" "实现核心功能" "coder" ["task_002"] "pending" None;
    mkSwarmTask "task_004" "编写测试用例" "tester" ["task_003"] "pending" None;
    mkSwarmTask "task_005" "编写文档" "writer" ["task_003"] "pending" None;
    mkSwarmTask "task_006" "代码审查" "reviewer"
      ["task_003"; "task_004"; "task_005"] "pending" None ].

(** [{t.task_id: t for t in tasks}]: a later task replaces an earlier one
    of the same id. *)
Definition task_map_of (tasks : list SwarmTask) : gmap string SwarmTask :=
  foldl (λ m t, <[task_id t := t]> m) ∅ tasks.

(** [all(d in completed for d in task.dependencies)] *)
Definition deps_completed (completed : gset string) (task : SwarmTask) : Prop :=
  Forall (λ d, d ∈ completed) (dependencies task).

#[global] Instance deps_completed_dec completed task :
  Decision (deps_completed completed task).
Proof. unfold deps_completed. apply _. Defined.

(** The [for tid in remaining] pass that collects [ready].  [remaining]
    only holds keys of [task_map], so [task_map[tid]] is always there. *)
Definition collect_ready (task_map : gmap string SwarmTask)
    (completed remaining : gset string) : list SwarmTask :=
  omap (λ tid,
          match task_map !! tid with
          | Some task =>
              if decide (deps_completed completed task) then Some task else None
          | None => None
          end)
    (elements remaining).

(** The [while remaining] loop of [build_execution_order]. *)
Fixpoint build_loop (task_map : gmap string SwarmTask) (fuel : nat)
    (completed remaining : gset string) (levels : list (list SwarmTask))
    : list (list SwarmTask) :=
  match fuel with
  | O => levels
  | S fuel' =>
      if decide (remaining = ∅) then levels else
      match collect_ready task_map completed remaining with
      | [] => levels
      | ready =>
          build_loop task_map fuel'
            (completed ∪ list_to_set (task_id <$> ready))
            (remaining ∖ list_to_set (task_id <$> ready))
            (levels ++ [ready])
      end
  end.

Definition build_execution_order_fueled (fuel : nat) (tasks : list SwarmTask)
    : list (list SwarmTask) :=
  build_loop (task_map_of tasks) fuel ∅ (list_to_set (task_id <$> tasks)) [].

Definition build_execution_order (tasks : list SwarmTask)
    : list (list SwarmTask) :=
  build_execution_order_fueled (length tasks) tasks.

(** The ids of the levels. *)
Definition level_ids (levels : list (list SwarmTask)) : list (list string) :=
  (λ level : list SwarmTask, task_id <$> level) <$> levels.

(** The dependency map of a task list, as [task_map] sees it. *)
Definition task_dag (tasks : list SwarmTask) : gmap string (list string) :=
  dependencies <$> task_map_of tasks.

(** What one call of [_execute_single_task] does: it returns a dict, or it
    raises and [execute_parallel] catches the exception. *)
Inductive Outcome :=
  | Returned (d : gmap string string)
  | Raised (msg : string).

(** The method as written: it simulates the work and always returns. *)
Definition _execute_single_task (task : SwarmTask) : Outcome :=
  Returned
    (<["task_id" := task_id task]>
       (<["worker" := worker_type task]>
          (<["status" := "completed"]>
             (<["output" := "完成: " +:+ description task]> ∅)))).

Definition set_status (v : string) (t : SwarmTask) : SwarmTask :=
  mkSwarmTask (task_id t) (description t) (worker_type t) (dependencies t) v
    (result t).

(** The position, in the list [tasks], of the object [task_map[tid]]: the
    last task of that id. *)
Fixpoint object_of (tid : string) (tasks : list SwarmTask) : option nat :=
  match tasks with
  | [] => None
  | t :: rest =>
      match object_of tid rest with
      | Some i => Some (S i)
      | None => if decide (task_id t = tid) then Some 0 else None
      end
  end.

(** [task.status = v] on the object a level holds for [tid]; the objects of
    the levels are the objects of the list [tasks], so the assignment is
    seen through the list. *)
Definition assign_status (tid v : string) (tasks : list SwarmTask)
    : list SwarmTask :=
  match object_of tid tasks with
  | Some i => alter (set_status v) i tasks
  | None => tasks
  end.

(** The body of the [for future in as_completed(futures)] loop for one
    task, together with the assignment [_execute_single_task] starts with.
    [run] is the method [_execute_single_task] of the orchestrator at hand. *)
Definition complete_task (run : SwarmTask → Outcome)
    (acc : list SwarmTask * gmap string (gmap string string)) (task : SwarmTask)
    : list SwarmTask * gmap string (gmap string string) :=
  let '(tasks, all_results) := acc in
  let tasks := assign_status (task_id task) "running" tasks in
  match run task with
  | Returned d =>
      (assign_status (task_id task) "completed" tasks,
       <[task_id task := d]> all_results)
  | Raised msg =>
      (assign_status (task_id task) "failed" tasks,
       <[task_id task := {["error" := msg]}]> all_results)
  end.

(** The dict [execute_parallel] returns, and the task objects as it leaves
    them. *)
Record Summary := mkSummary {
  summary_status : string;
  total_tasks : nat;
  completed : nat;
  failed : nat;
  results : gmap string (gmap string string);
  final_tasks : list SwarmTask
}.

(** [execute_parallel], level after level.  The tasks of one level finish
    in an order the thread pool decides; they write to distinct objects and
    distinct keys, and the embedding takes them in the order of the level. *)
Definition execute_parallel (run : SwarmTask → Outcome)
    (tasks : list SwarmTask) (max_workers : nat) : Summary :=
  let levels := build_execution_order tasks in
  let '(tasks', all_results) :=
    foldl (λ acc level_tasks, foldl (complete_task run) acc level_tasks)
      (tasks, ∅) levels in
  mkSummary "completed" (length tasks)
    (length (filter (λ t, status t = "completed") tasks'))
    (length (filter (λ t, status t = "failed") tasks'))
    all_results tasks'.

End Runner.

(** ** The thread pool of [execute_parallel], as a transition system

    One state per point of the [for level_tasks in levels] loop: the levels
    not yet entered, the tasks of the current level submitted to the pool
    and not yet picked up by a worker, the tasks running in a worker, and
    the events so far.  A worker starts a submitted task when fewer than
    [max_workers] are running, which is what a [ThreadPoolExecutor] of
    [max_workers] threads allows; a running task terminates, with either
    outcome, when its call of [_execute_single_task] returns or raises in
    its worker; the next level is entered when the [with] block is left,
    which waits for every call of the level, that is when no task of the
    current level is submitted or running any more.  The order in which the
    tasks of a level start and terminate is left open.  (With
    [max_workers = 0] the pool cannot be created and no task ever starts.) *)

Module Engine.

Inductive event :=
  | Started (tid : string)
  | Finished (tid : string) (ok : bool).

Record pool := mkPool {
  later_levels : list (list string);
  submitted : list string;
  running : list string;
  trace : list event
}.

Definition initial (levels : list (list string)) : pool :=
  mkPool levels [] [] [].

Inductive step (max_workers : nat) : pool → pool → Prop :=
  | step_enter_level level rest tr :
      step max_workers (mkPool (level :: rest) [] [] tr)
                       (mkPool rest level [] tr)
  | step_start rest q1 t q2 run tr :
      length run < max_workers →
      step max_workers (mkPool rest (q1 ++ t :: q2) run tr)
                       (mkPool rest (q1 ++ q2) (t :: run) (tr ++ [Started t]))
  | step_finish rest q r1 t r2 ok tr :
      step max_workers (mkPool rest q (r1 ++ t :: r2) tr)
                       (mkPool rest q (r1 ++ r2) (tr ++ [Finished t ok])).

Definition reachable (max_workers : nat) (levels : list (list string))
    (s : pool) : Prop :=
  rtc (step max_workers) (initial levels) s.

(** [tid] is started at position [i] of the trace. *)
Definition started_at (tr : list event) (i : nat) (tid : string) : Prop :=
  tr !! i = Some (Started tid).

(** [tid] has terminated, with either outcome, before position [i]. *)
Definition finished_before (tr : list event) (i : nat) (tid : string) : Prop :=
  ∃ j ok, j < i ∧ tr !! j = Some (Finished tid ok).

(** What holds of every reachable state, [n] being the number of levels
    entered so far: the levels to come are the levels from [n] on; every
    task of a level left behind has terminated; every task of the current
    level is submitted, running or terminated, and nothing else is
    submitted or running; every task started so far belongs to an entered
    level and was started after all tasks of the levels before its own had
    terminated. *)
Definition invariant (levels : list (list string)) (s : pool) : Prop :=
  ∃ n,
    later_levels s = drop n levels ∧ n ≤ length levels
    ∧ (∀ k t, S k < n → in_level levels k t →
         finished_before (trace s) (length (trace s)) t)
    ∧ (∀ t, 0 < n → in_level levels (n - 1) t →
         t ∈ submitted s ∨ t ∈ running s
         ∨ finished_before (trace s) (length (trace s)) t)
    ∧ (∀ t, t ∈ submitted s ∨ t ∈ running s →
         0 < n ∧ in_level levels (n - 1) t)
    ∧ (∀ i u, started_at (trace s) i u →
         ∃ k', k' < n ∧ in_level levels k' u
               ∧ ∀ k t, k < k' → in_level levels k t →
                   finished_before (trace s) i t).

End Engine.

(** ** workflow_runner.py: the module-level functions

    The functions that look workflows up read the file system and lower
    the case of the text.  The file system is a record of what exists:
    the project directory [cwd/.trae/workflows] and the global directory,
    and the files inside each.  [str.lower] is an argument [lower] of the
    functions that call it; what is proved holds whatever it is. *)

Module Workflows.

Inductive Dir := project_dir | global_dir.

#[global] Instance Dir_eq_dec : EqDecision Dir.
Proof. solve_decision. Defined.

Record FS := mkFS {
  dir_exists : Dir → bool;
  file_exists : Dir → string → bool   (* (dir / name).exists() *)
}.

Definition get_workflow_dirs (fs : FS) : list Dir :=
  (if dir_exists fs project_dir then [project_dir] else [])
  ++ (if dir_exists fs global_dir then [global_dir] else []).

(** The first directory, project first, that holds [name]. *)
Definition first_dir_with (fs : FS) (name : string) : option Dir :=
  head (filter (λ d, file_exists fs d name = true) (get_workflow_dirs fs)).

Definition find_workflow_manager (fs : FS) : option Dir :=
  first_dir_with fs "workflow_manager.py".

Definition find_workflow_location (fs : FS) (workflow_name : string)
    : option Dir :=
  first_dir_with fs (workflow_name +:+ ".yaml").

Definition triggers : list (string * list string) :=
  [ ("git-commit-summary",
     ["提交摘要"; "git summary"; "周报"; "commit"; "提交记录"]);
    ("project-stats",
     ["统计项目"; "project stats"; "代码统计"; "统计"; "代码量"]);
    ("swarm-execution",
     ["蜂群"; "并行执行"; "swarm"; "/swarm"; "启动蜂群"]) ].

(** The inner loop [for keyword in keywords] for one workflow. *)
Fixpoint match_keywords (lower : string → string) (fs : FS)
    (text_lower workflow : string) (keywords : list string) : option string :=
  match keywords with
  | [] => None
  | keyword :: keywords' =>
      if str_in (lower keyword) text_lower
         && bool_decide (is_Some (find_workflow_location fs workflow))
      then Some workflow
      else match_keywords lower fs text_lower workflow keywords'
  end.

(** The outer loop [for workflow, keywords in triggers.items()]. *)
Fixpoint match_triggers (lower : string → string) (fs : FS)
    (text_lower : string) (triggers : list (string * list string))
    : option string :=
  match triggers with
  | [] => None
  | (workflow, keywords) :: triggers' =>
      match match_keywords lower fs text_lower workflow keywords with
      | Some found => Some found
      | None => match_triggers lower fs text_lower triggers'
      end
  end.

Definition find_workflow_by_trigger (lower : string → string) (fs : FS)
    (text : string) : option string :=
  let text_lower := lower text in
  match_triggers lower fs text_lower triggers.

(** [ThreadPoolExecutor(max_workers=...)] raises on a count that is not
    positive. *)
Inductive PoolError := ValueError.

(** [execute_parallel] with the creation of the pool: the pool is created
    on entering the first level, before any task runs, so without levels no
    pool is created. *)
Definition execute_parallel_pool (run : Runner.SwarmTask → Runner.Outcome)
    (tasks : list Runner.SwarmTask) (max_workers : Z)
    : PoolError + Runner.Summary :=
  if bool_decide (Runner.build_execution_order tasks ≠ [])
     && (max_workers <=? 0)%Z
  then inl ValueError
  else inr (Runner.execute_parallel run tasks (Z.to_nat max_workers)).

(** The dict [run_swarm_workflow] returns. *)
Inductive SwarmOutcome :=
  | swarm_simple
  | swarm_result (summary : Runner.Summary).

Definition run_swarm_workflow (task_description : string) (max_workers : Z)
    : PoolError + SwarmOutcome :=
  let analysis := Runner.analyze_complexity task_description in
  if negb (Runner.swarm_mode analysis) then inr swarm_simple
  else
    let tasks := Runner.decompose_task task_description in
    match execute_parallel_pool Runner._execute_single_task tasks max_workers with
    | inl e => inl e
    | inr result => inr (swarm_result result)
    end.

End Workflows.

(** ** The readiness tests of the two schedulers, on sets of ids

    [zero_in_degree dag R n] is what [in_degree[n] == 0] amounts to when
    [R] is the current [remaining]; [deps_done task_map U R n] is what
    [all(d in completed ...)] amounts to when [completed] is [U ∖ R]. *)

Definition zero_in_degree (dag : gmap string (list string)) (R : gset string)
    (n : string) : Prop :=
  count_in R (default [] (dag !! n)) = 0.

Definition deps_done (task_map : gmap string Runner.SwarmTask)
    (U R : gset string) (n : string) : Prop :=
  match task_map !! n with
  | Some task => Runner.deps_completed (U ∖ R) task
  | None => False
  end.

#[global] Instance zero_in_degree_dec dag R n : Decision (zero_in_degree dag R n).
Proof. unfold zero_in_degree. apply _. Defined.

#[global] Instance deps_done_dec task_map U R n :
  Decision (deps_done task_map U R n).
Proof. unfold deps_done. destruct (task_map !! n); apply _. Defined.

(** The final status in what [aggregate_results] returns, when it returns. *)
Definition final_status_of (r : Exn + Orchestrator.Aggregate) : option string :=
  match r with
  | inr agg => Some (Orchestrator.aggregate_status agg)
  | inl _ => None
  end.

(** [a] lists [b] among its dependencies, whether [b] names a task of the
    list or not. *)
Definition depends_on (tasks : list Runner.SwarmTask) (a b : string) : Prop :=
  ∃ deps, Runner.task_dag tasks !! a = Some deps ∧ b ∈ deps.


(** The status [complete_task] leaves on the object of the task. *)
Definition outcome_status (o : Runner.Outcome) : string :=
  match o with
  | Runner.Returned _ => "completed"
  | Runner.Raised _ => "failed"
  end.

(** The percentage [get_progress] computes for a positive total:
    [completed / total * 100] on doubles. *)
Definition percentage (completed total : nat) : spec_float :=
  SFmul 53 1024
    (SFdiv 53 1024 (float_of_Z (Z.of_nat completed))
       (float_of_Z (Z.of_nat total)))
    (float_of_Z 100).

(** A document [_generate_summary] can read: a dict whose entry "output",
    when there is one, is a dict. *)
Definition summarisable (v : json) : Prop :=
  match v with
  | JDict result =>
      match result !! "output" with
      | None | Some (JDict _) => True
      | Some _ => False
      end
  | _ => False
  end.

(** Every result file a completed task of the queue names is missing or
    holds a document [_generate_summary] can read. *)
Definition results_loadable (st : Orchestrator.Store) (q : Orchestrator.Queue)
    : Prop :=
  ∀ tid t path,
    Orchestrator.tasks q !! tid = Some t →
    Orchestrator.status t = "completed" →
    Orchestrator.result_file t = Some path → path ≠ "" →
    match Orchestrator.result_files st !! path with
    | None => True
    | Some (Orchestrator.document v) => summarisable v
    | Some (Orchestrator.unloadable _) => False
    end.

(** The four statuses [get_progress] counts. *)
Definition counted_status (s : string) : Prop :=
  s = "completed" ∨ s = "running" ∨ s = "pending" ∨ s = "failed".

(** The steps the pool can still take: two for each task not yet started,
    one for each task running, one for each level not yet entered. *)
Definition work_left (s : Engine.pool) : nat :=
  length (Engine.later_levels s)
  + 2 * length (concat (Engine.later_levels s))
  + 2 * length (Engine.submitted s) + length (Engine.running s).

(** The events of a task in a trace: its starts and its terminations. *)
Definition is_start (tid : string) (e : Engine.event) : bool :=
  match e with
  | Engine.Started t => bool_decide (t = tid)
  | Engine.Finished _ _ => false
  end.

Definition is_finish (tid : string) (e : Engine.event) : bool :=
  match e with
  | Engine.Started _ => false
  | Engine.Finished t _ => bool_decide (t = tid)
  end.

Definition starts_of (tid : string) (tr : list Engine.event) : nat :=
  length (filter (λ e, is_start tid e = true) tr).

Definition finishes_of (tid : string) (tr : list Engine.event) : nat :=
  length (filter (λ e, is_finish tid e = true) tr).

(** ** Sample inputs *)

Module Samples.

Definition swarm_task (tid : string) (deps : list string) : Runner.SwarmTask :=
  Runner.mkSwarmTask tid "" "coder" deps "pending" None.

Definition sub_task (tid : string) (deps : list string) (status : string)
    : Orchestrator.SubTask :=
  Orchestrator.mkSubTask tid "" "coder" deps "medium" status
    None None None None None None ∅ ∅.

(** A(no deps), B(dep A), C(dep A), D(dep B, C). *)
Definition diamond_dag : gmap string (list string) :=
  <["A" := []]> (<["B" := ["A"]]> (<["C" := ["A"]]> (<["D" := ["B"; "C"]]> ∅))).

Definition diamond_tasks : list Runner.SwarmTask :=
  [swarm_task "A" []; swarm_task "B" ["A"]; swarm_task "C" ["A"];
   swarm_task "D" ["B"; "C"]].

(** a and b depend on each other. *)
Definition cyclic_dag : gmap string (list string) :=
  <["a" := ["b"]]> (<["b" := ["a"]]> ∅).

Definition cyclic_tasks : list Runner.SwarmTask :=
  [swarm_task "a" ["b"]; swarm_task "b" ["a"]].

(** One task whose only dependency names no task of the set. *)
Definition dangling_dag : gmap string (list string) :=
  <["t1" := ["ghost"]]> ∅.

Definition dangling_tasks : list Runner.SwarmTask :=
  [swarm_task "t1" ["ghost"]].

Definition empty_store : Orchestrator.Store := Orchestrator.mkStore None ∅.

(** The store after [create_queue] has persisted the given tasks. *)
Definition store_of (tasks : list Orchestrator.SubTask) : Orchestrator.Store :=
  (Orchestrator.create_queue "2024-01-01T00:00:00" "main_0" tasks
     (Orchestrator.build_dag tasks) empty_store).2.

Definition dangling_store : Orchestrator.Store :=
  store_of [sub_task "t1" ["ghost"] "pending"].

(** A failed, with nothing else; A failed beside a completed B and a D that
    depends on A; a single completed task; a queue without tasks. *)
Definition failed_only_store : Orchestrator.Store :=
  store_of [sub_task "A" [] "failed"].

Definition partial_store : Orchestrator.Store :=
  store_of [sub_task "A" [] "failed"; sub_task "B" [] "completed";
            sub_task "D" ["A"] "pending"].

Definition done_store : Orchestrator.Store :=
  store_of [sub_task "A" [] "completed"].

Definition no_task_store : Orchestrator.Store := store_of [].

(** Four keywords of the complex list, and a medium request that asks for
    parallel work. *)
Definition complex_request : string := "开发 架构 系统 重构".

Definition parallel_request : string := "开发并行".

(** A complex request of the development category. *)
Definition development_request : string := "开发 架构 系统".

(** Ids and time stamps for a run of [execute]. *)
Definition sample_env : Env := mkEnv (λ n, pretty n) (λ _, "2024-01-01T00:00:00").


Definition A_then_D : list Runner.SwarmTask :=
  [swarm_task "A" []; swarm_task "D" ["A"]].

(** The pool after A has been run and has failed, and D has been started. *)
Definition D_started : Engine.pool :=
  Engine.mkPool [] [] ["D"]
    [Engine.Started "A"; Engine.Finished "A" false; Engine.Started "D"].

(** Opening the result files of the sample tasks, in a project at the
    working directory whose results directory is there; an id that is not
    one of theirs is given the answer of an id that names no file. *)
Definition open_result_file (task_id : string)
    : Exn + Orchestrator.Opened :=
  if bool_decide (task_id ∈ ["A"; "B"; "D"; "Z"])
  then inr (Orchestrator.result_path
              (".trae/swarm/results/" +:+ task_id +:+ ".json"))
  else inl OSError.


(** The queue of [partial_store] before A has failed: A is running. *)
Definition running_store : Orchestrator.Store :=
  store_of [sub_task "A" [] "running"; sub_task "B" [] "completed";
            sub_task "D" ["A"] "pending"].

(** Three tasks as [decompose_task] hands them to [create_queue]: all
    pending, D waiting for A. *)
Definition queued_tasks : list Orchestrator.SubTask :=
  [sub_task "A" [] "pending"; sub_task "B" [] "pending";
   sub_task "D" ["A"] "pending"].

End Samples.

(** Decide a closed, decidable proposition by evaluation. *)
Ltac by_evaluation := apply (bool_decide_unpack _); vm_compute; exact I.

(** * Properties *)

(** ** Lists and sets *)

Lemma elem_of_concat {A} (x : A) (ls : list (list A)) :
  x ∈ concat ls ↔ ∃ l, l ∈ ls ∧ x ∈ l.
Proof.
  induction ls as [|l ls IH]; simpl.
  - split; [by intros ?%elem_of_nil|by intros (? & ?%elem_of_nil & _)].
  - rewrite elem_of_app, IH. split.
    + intros [?|(l' & ? & ?)]; [exists l|exists l']; split; auto; by constructor.
    + intros (l' & [->|?]%elem_of_cons & ?); eauto.
Qed.

Lemma elem_of_concat_in_level (levels : list (list string)) x :
  x ∈ concat levels ↔ ∃ j, in_level levels j x.
Proof.
  rewrite elem_of_concat. unfold in_level. split.
  - intros (l & [j Hj]%list_elem_of_lookup & Hx). eauto.
  - intros (j & l & Hj & Hx). exists l. split; [|done].
    by eapply list_elem_of_lookup_2.
Qed.

Lemma concat_NoDup_index {A} (L : list (list A)) : ∀ i j li lj x,
  NoDup (concat L) → L !! i = Some li → L !! j = Some lj →
  x ∈ li → x ∈ lj → i = j.
Proof.
  induction L as [|l L IH]; intros i j li lj x Hnd Hi Hj Hxi Hxj; [done|].
  simpl in Hnd. apply NoDup_app in Hnd as (_ & Hdisj & Hnd).
  destruct i as [|i], j as [|j]; simpl in *; simplify_eq; [done| | |f_equal; eauto].
  - exfalso. eapply Hdisj; [done|]. apply elem_of_concat. exists lj.
    split; [|done]. by eapply list_elem_of_lookup_2.
  - exfalso. eapply Hdisj; [done|]. apply elem_of_concat. exists li.
    split; [|done]. by eapply list_elem_of_lookup_2.
Qed.

Lemma drop_cons_inv {A} (l : list A) : ∀ n a r,
  drop n l = a :: r → l !! n = Some a ∧ drop (S n) l = r.
Proof.
  induction l as [|x l IH]; intros [|n] a r Hd; simpl in *; try done.
  - by simplify_eq.
  - by apply IH.
Qed.

Lemma size_zero_empty (R : gset string) : size R = 0 → R = ∅.
Proof. intros H. by apply leibniz_equiv, size_empty_inv. Qed.

Lemma difference_shrink (U R X : gset string) :
  X ⊆ R → R ⊆ U → U ∖ R ∪ X = U ∖ (R ∖ X).
Proof.
  intros HX HR. apply set_eq. intros x.
  destruct (decide (x ∈ X)); set_solver.
Qed.

Lemma filter_ext_elem {A} (P Q : A → Prop) `{!∀ x, Decision (P x)}
    `{!∀ x, Decision (Q x)} (l : list A) :
  (∀ x, x ∈ l → P x ↔ Q x) → filter P l = filter Q l.
Proof.
  induction l as [|a l IH]; intros Hext; [done|].
  rewrite !filter_cons.
  assert (P a ↔ Q a) as Ha by (apply Hext; left).
  rewrite IH by (intros x Hx; apply Hext; by right).
  destruct (decide (P a)), (decide (Q a)); tauto.
Qed.

Lemma count_in_zero X deps : count_in X deps = 0 ↔ ∀ d, d ∈ deps → d ∉ X.
Proof.
  unfold count_in. rewrite length_zero_iff_nil. split.
  - intros Hnil d Hd HX.
    by apply (filter_nil_not_elem_of (λ d, d ∈ X) deps d Hnil HX).
  - intros Hall. induction deps as [|d deps IH]; [done|].
    rewrite filter_cons_False by (apply Hall; left).
    apply IH. intros d' Hd'. apply Hall. by right.
Qed.

Lemma count_in_pos X deps : count_in X deps ≠ 0 → ∃ d, d ∈ deps ∧ d ∈ X.
Proof.
  unfold count_in. destruct (filter (λ d, d ∈ X) deps) as [|d l] eqn:E; [done|].
  intros _. exists d.
  assert (d ∈ filter (λ d, d ∈ X) deps) as Hd by (rewrite E; left).
  apply list_elem_of_filter in Hd. tauto.
Qed.

(** ** Maps filled from a list

    [build_dag], [create_queue] and the dict comprehension of
    [build_execution_order] fill a dict by one assignment per element of a
    list; a later element replaces an earlier one under the same key. *)

Section foldl_insert.
  Context {A B : Type} (key : A → string) (val : A → B).

Lemma foldl_insert_dom (l : list A) : ∀ m : gmap string B,
  dom (foldl (λ m a, <[key a := val a]> m) m l)
  = dom m ∪ list_to_set (key <$> l).
Proof.
  induction l as [|a l IH]; intros m; cbn [foldl].
  - rewrite fmap_nil, list_to_set_nil. set_solver.
  - rewrite IH, dom_insert_L, fmap_cons, list_to_set_cons. set_solver.
Qed.

Lemma foldl_insert_notin (l : list A) k : ∀ m : gmap string B,
  k ∉ key <$> l →
  foldl (λ m a, <[key a := val a]> m) m l !! k = m !! k.
Proof.
  induction l as [|a l IH]; intros m Hk; cbn [foldl]; [done|].
  rewrite fmap_cons in Hk. apply not_elem_of_cons in Hk as [Hne Hk].
  rewrite IH by done. by rewrite lookup_insert_ne.
Qed.

Lemma foldl_insert_NoDup (l : list A) a : ∀ m : gmap string B,
  NoDup (key <$> l) → a ∈ l →
  foldl (λ m a, <[key a := val a]> m) m l !! key a = Some (val a).
Proof.
  induction l as [|b l IH]; intros m Hnd Ha; [by apply elem_of_nil in Ha|].
  rewrite fmap_cons in Hnd. apply NoDup_cons in Hnd as [Hb Hnd].
  cbn [foldl]. apply elem_of_cons in Ha as [->|Ha].
  - rewrite foldl_insert_notin by done. by rewrite lookup_insert_eq.
  - by apply IH.
Qed.

Lemma foldl_insert_origin (l : list A) : ∀ (m : gmap string B) k v,
  foldl (λ m a, <[key a := val a]> m) m l !! k = Some v →
  m !! k = Some v ∨ ∃ a, a ∈ l ∧ key a = k ∧ val a = v.
Proof.
  induction l as [|b l IH]; intros m k v Hk; cbn [foldl] in Hk; [by left|].
  apply IH in Hk as [Hk|(a & Ha & ? & ?)].
  - rewrite lookup_insert in Hk. case_decide.
    + right. exists b. simplify_eq. split_and!; [left|done..].
    + by left.
  - right. exists a. split_and!; [by right|done..].
Qed.

End foldl_insert.

(** ** The level loop *)

Section level_loop.
Context (ready_in : gset string → string → Prop).
Context `{!∀ R n, Decision (ready_in R n)}.

Lemma level_loop_unfold fuel R :
  level_loop ready_in (S fuel) R =
    if decide (R = ∅) then [] else
    match filter (ready_in R) (elements R) with
    | [] => []
    | ready => ready :: level_loop ready_in fuel (R ∖ list_to_set ready)
    end.
Proof. reflexivity. Qed.

Lemma ready_elem R x :
  x ∈ filter (ready_in R) (elements R) ↔ ready_in R x ∧ x ∈ R.
Proof. rewrite list_elem_of_filter, elem_of_elements. tauto. Qed.

Lemma ready_shrinks R r rs :
  filter (ready_in R) (elements R) = r :: rs →
  size (R ∖ list_to_set (r :: rs)) < size R.
Proof.
  intros E. assert (r ∈ R) by (apply (ready_elem R r); rewrite E; left).
  apply subset_size. set_solver.
Qed.

(** One turn of the loop: it stops, on an empty set or on a set with no
    ready member, or it emits the ready members and goes on without them. *)
Lemma level_loop_cases fuel R :
  level_loop ready_in (S fuel) R = []
    ∧ (R = ∅ ∨ ∀ n, n ∈ R → ¬ ready_in R n)
  ∨ ∃ ready, ready = filter (ready_in R) (elements R) ∧ ready ≠ [] ∧ R ≠ ∅ ∧
      size (R ∖ list_to_set ready) < size R ∧
      level_loop ready_in (S fuel) R
        = ready :: level_loop ready_in fuel (R ∖ list_to_set ready).
Proof.
  rewrite level_loop_unfold. destruct (decide (R = ∅)) as [->|Hne]; [left; auto|].
  destruct (filter (ready_in R) (elements R)) as [|r rs] eqn:E.
  - left. split; [done|]. right. intros n Hn Hr.
    assert (n ∈ filter (ready_in R) (elements R)) as Hin by (by apply ready_elem).
    rewrite E in Hin. by apply elem_of_nil in Hin.
  - right. exists (r :: rs). split_and!; try done. by apply ready_shrinks.
Qed.

Lemma level_loop_elem fuel : ∀ R j x,
  in_level (level_loop ready_in fuel R) j x → x ∈ R.
Proof.
  induction fuel as [|fuel IH]; intros R j x (lvl & Hj & Hx); [done|].
  destruct (level_loop_cases fuel R) as [[E _]|(ready & Hr & _ & _ & _ & E)];
    rewrite E in Hj; [done|].
  destruct j as [|j]; simpl in Hj.
  - simplify_eq. by apply ready_elem in Hx as [_ ?].
  - assert (x ∈ R ∖ list_to_set ready); [|set_solver].
    apply (IH _ j). by exists lvl.
Qed.

Lemma level_loop_concat_elem fuel R x :
  x ∈ concat (level_loop ready_in fuel R) → x ∈ R.
Proof. intros [j Hj]%elem_of_concat_in_level. eauto using level_loop_elem. Qed.

Lemma level_loop_NoDup fuel : ∀ R, NoDup (concat (level_loop ready_in fuel R)).
Proof.
  induction fuel as [|fuel IH]; intros R; [constructor|].
  destruct (level_loop_cases fuel R) as [[E _]|(ready & Hr & _ & _ & _ & E)];
    rewrite E; [constructor|].
  simpl. apply NoDup_app. split_and!.
  - subst ready. apply NoDup_filter, NoDup_elements.
  - intros x Hx Hx'. apply level_loop_concat_elem in Hx'. set_solver.
  - apply IH.
Qed.

(** A member of level [j] passed the readiness test against the set that
    remained after the first [j] levels. *)
Lemma level_loop_ready fuel : ∀ R j x,
  in_level (level_loop ready_in fuel R) j x →
  ready_in (remaining_after R (level_loop ready_in fuel R) j) x.
Proof.
  induction fuel as [|fuel IH]; intros R j x (lvl & Hj & Hx); [done|].
  destruct (level_loop_cases fuel R) as [[E _]|(ready & Hr & _ & _ & _ & E)];
    rewrite E in Hj |- *; [done|].
  destruct j as [|j]; simpl in Hj.
  - simplify_eq. unfold remaining_after. simpl.
    rewrite difference_empty_L. by apply ready_elem in Hx as [? _].
  - assert (in_level (level_loop ready_in fuel (R ∖ list_to_set ready)) j x)
      as Hin by (by exists lvl).
    specialize (IH _ _ _ Hin). unfold remaining_after in *. simpl.
    by rewrite list_to_set_app_L, <- difference_difference_l_L.
Qed.

(** With enough fuel the loop only stops on a set none of whose members
    is ready. *)
Lemma level_loop_stuck fuel : ∀ R n,
  size R ≤ fuel →
  n ∈ R ∖ list_to_set (concat (level_loop ready_in fuel R)) →
  ¬ ready_in (R ∖ list_to_set (concat (level_loop ready_in fuel R))) n.
Proof.
  induction fuel as [|fuel IH]; intros R n Hsz Hn.
  - assert (R = ∅) as -> by (apply size_zero_empty; lia). set_solver.
  - destruct (level_loop_cases fuel R) as [[E HR]|(ready & Hr & Hne & HRne & Hlt & E)];
      rewrite E in Hn |- *.
    + simpl in *. destruct HR as [->|HR]; [set_solver|].
      rewrite difference_empty_L in Hn |- *. by apply HR.
    + simpl in *.
      rewrite list_to_set_app_L, <- difference_difference_l_L in Hn |- *.
      apply IH; [lia|done].
Qed.

(** The amount of fuel does not matter once it covers the set. *)
Lemma level_loop_fuel f1 : ∀ f2 R,
  size R ≤ f1 → size R ≤ f2 →
  level_loop ready_in f1 R = level_loop ready_in f2 R.
Proof.
  induction f1 as [|f1 IH]; intros f2 R H1 H2.
  - assert (R = ∅) as -> by (apply size_zero_empty; lia).
    destruct f2; [done|]. rewrite level_loop_unfold. by rewrite decide_True.
  - destruct f2 as [|f2].
    + assert (R = ∅) as -> by (apply size_zero_empty; lia).
      rewrite level_loop_unfold. by rewrite decide_True.
    + rewrite !level_loop_unfold. destruct (decide (R = ∅)); [done|].
      destruct (filter (ready_in R) (elements R)) as [|r rs] eqn:E; [done|].
      f_equal. apply ready_shrinks in E. apply IH; lia.
Qed.

(** Ordering and completeness, for a readiness test that reads a
    dependency relation [dep]. *)
Context (dep : string → string → Prop).

Lemma level_loop_order fuel R j x d :
  (∀ R' n d', ready_in R' n → dep n d' → d' ∉ R') →
  in_level (level_loop ready_in fuel R) j x → dep x d → d ∈ R →
  ∃ i, i < j ∧ in_level (level_loop ready_in fuel R) i d.
Proof.
  intros Hsound Hj Hd HdR.
  pose proof (level_loop_ready _ _ _ _ Hj) as Hready.
  apply Hsound with (d' := d) in Hready; [|done].
  unfold remaining_after in Hready.
  assert (d ∈ concat (take j (level_loop ready_in fuel R))) as Hin.
  { destruct (decide (d ∈ concat (take j (level_loop ready_in fuel R)))); [done|].
    exfalso. apply Hready. set_solver. }
  apply elem_of_concat in Hin as (lvl' & Hl & Hdl).
  apply list_elem_of_lookup in Hl as [i Hi].
  apply lookup_take_Some in Hi as [Hi Hlt]. exists i. split; [done|]. by exists lvl'.
Qed.

Lemma level_loop_order_tc fuel R :
  (∀ R' n d', ready_in R' n → dep n d' → d' ∉ R') →
  ∀ x y, tc (λ a b, dep a b ∧ b ∈ R) x y →
  ∀ j, in_level (level_loop ready_in fuel R) j x →
  ∃ i, i < j ∧ in_level (level_loop ready_in fuel R) i y.
Proof.
  intros Hsound x y Htc.
  induction Htc as [x y [Hd Hy]|x y z [Hd Hy] _ IH]; intros j Hj.
  - eauto using level_loop_order.
  - destruct (level_loop_order fuel R j x y) as (i & Hi & Hl); [done..|].
    destruct (IH _ Hl) as (i' & ? & ?).
    exists i'. split; [lia|done].
Qed.

(** A member of a cycle is never emitted. *)
Lemma level_loop_no_cycle fuel R x :
  (∀ R' n d', ready_in R' n → dep n d' → d' ∉ R') →
  tc (λ a b, dep a b ∧ b ∈ R) x x → x ∉ concat (level_loop ready_in fuel R).
Proof.
  intros Hsound Htc [j Hj]%elem_of_concat_in_level.
  destruct (level_loop_order_tc fuel R Hsound x x Htc j Hj) as (i & Hlt & Hi).
  destruct Hj as (lvl & Hj & Hx), Hi as (lvl' & Hi & Hx').
  assert (i = j); [|lia].
  eapply (concat_NoDup_index _ i j lvl' lvl x); eauto. apply level_loop_NoDup.
Qed.

(** On a well-founded dependency relation every member is emitted. *)
Lemma level_loop_complete fuel R n :
  (∀ R' m, R' ⊆ R → m ∈ R' → ¬ ready_in R' m → ∃ d, dep m d ∧ d ∈ R') →
  (∀ m, m ∈ R → Acc (flip dep) m) →
  size R ≤ fuel → n ∈ R → n ∈ concat (level_loop ready_in fuel R).
Proof.
  intros Hcomplete Hacc Hsz Hn.
  destruct (decide (n ∈ concat (level_loop ready_in fuel R))) as [|Hnot]; [done|].
  exfalso.
  set (R' := R ∖ list_to_set (concat (level_loop ready_in fuel R))).
  assert (n ∈ R') as HnR' by set_solver.
  assert (R' ⊆ R) as Hsub by set_solver.
  assert (∀ m, Acc (flip dep) m → m ∈ R' → False) as Hwf; [|by eapply Hwf; eauto].
  induction 1 as [m _ IH]. intros Hm.
  destruct (Hcomplete R' m) as (d & Hd & HdR'); [done..| |by eapply IH].
  by apply level_loop_stuck.
Qed.

End level_loop.

(** ** Dependency graphs *)

Lemma edge_dom dag n d : edge dag n d → n ∈ dom dag ∧ d ∈ dom dag.
Proof. intros (deps & Hn & _ & Hd). split; [|done]. apply elem_of_dom. eauto. Qed.

Lemma tc_edge_dom dag n d : tc (edge dag) n d → d ∈ dom dag.
Proof. induction 1 as [?? H|]; [by apply edge_dom in H as [_ ?]|done]. Qed.

(** An acyclic dag is well-founded along its edges: the ids are finitely
    many. *)
Lemma acyclic_acc dag : acyclic dag → ∀ m, Acc (flip (edge dag)) m.
Proof.
  intros Hacyc m. apply tc_finite_sn.
  - intros n Hn. by apply (Hacyc n).
  - exists (elements (dom dag)). intros y Hy.
    apply elem_of_elements. by eapply tc_edge_dom.
Qed.

(** A ranking that decreases along every edge rules cycles out. *)
Lemma ranked_acyclic dag (rank : string → nat) :
  (∀ n d, edge dag n d → rank d < rank n) → acyclic dag.
Proof.
  intros Hrank n Hn.
  assert (∀ a b, tc (edge dag) a b → rank b < rank a) as Hlt.
  { induction 1 as [?? H|??? H _ IH]; [by apply Hrank|].
    apply Hrank in H. lia. }
  apply Hlt in Hn. lia.
Qed.

Lemma zero_in_degree_sound dag R n d :
  zero_in_degree dag R n → edge dag n d → d ∉ R.
Proof.
  unfold zero_in_degree. intros Hz (deps & Hn & Hd & _).
  rewrite Hn in Hz. simpl in Hz. by eapply count_in_zero.
Qed.

Lemma zero_in_degree_complete dag R m :
  R ⊆ dom dag → m ∈ R → ¬ zero_in_degree dag R m → ∃ d, edge dag m d ∧ d ∈ R.
Proof.
  unfold zero_in_degree. intros Hsub Hm Hnz.
  apply count_in_pos in Hnz as (d & Hd & HdR).
  destruct (dag !! m) as [deps|] eqn:E; simpl in Hd; [|by apply elem_of_nil in Hd].
  exists d. split; [|done]. exists deps. split_and!; [done..|]. by apply Hsub.
Qed.

(** ** [get_execution_order] *)

Lemma init_in_degree_lookup dag n :
  Orchestrator.init_in_degree dag !! n = count_in (dom dag) <$> dag !! n.
Proof.
  unfold Orchestrator.init_in_degree.
  set (b := (λ _ : list string, 0) <$> dag).
  set (D := dom dag).
  assert (map_fold (λ node deps in_degree, <[node := count_in D deps]> in_degree)
            b dag !! n
          = match dag !! n with
            | Some deps => Some (count_in D deps)
            | None => b !! n
            end) as ->.
  { revert n.
    apply (map_fold_weak_ind
      (λ r m, ∀ n, r !! n = match m !! n with
                            | Some deps => Some (count_in D deps)
                            | None => b !! n
                            end)).
    - intros n. by rewrite lookup_empty.
    - intros i x m r Hi IH n. destruct (decide (i = n)) as [->|Hne].
      + by rewrite !lookup_insert_eq.
      + rewrite !lookup_insert_ne by done. apply IH. }
  destruct (dag !! n) eqn:E; [done|]. unfold b. by rewrite lookup_fmap, E.
Qed.

Lemma recount_lookup dag R in_degree n :
  Orchestrator.recount dag R in_degree !! n =
    if decide (n ∈ R) then Some (count_in R (default [] (dag !! n)))
    else in_degree !! n.
Proof.
  unfold Orchestrator.recount.
  assert (∀ (l : list string) (m : gmap string nat),
    foldl (λ acc node, <[node := count_in R (default [] (dag !! node))]> acc) m l !! n
    = if decide (n ∈ l) then Some (count_in R (default [] (dag !! n))) else m !! n)
    as Hfold.
  { induction l as [|a l IH]; intros m; cbn [foldl].
    - rewrite decide_False; [done|]. apply not_elem_of_nil.
    - rewrite IH. rewrite lookup_insert.
      repeat case_decide; set_solver. }
  rewrite Hfold. destruct (decide (n ∈ R)).
  - rewrite decide_True; [done|]. by apply elem_of_elements.
  - rewrite decide_False; [done|]. by rewrite elem_of_elements.
Qed.

(** The loop of [get_execution_order] is the level loop on
    [zero_in_degree], as long as [in_degree] counts, for every remaining
    node, its dependencies that remain. *)
Lemma order_loop_level_loop dag fuel : ∀ in_degree R levels,
  (∀ n, n ∈ R → in_degree !! n = Some (count_in R (default [] (dag !! n)))) →
  Orchestrator.order_loop dag fuel in_degree R levels
  = levels ++ level_loop (zero_in_degree dag) fuel R.
Proof.
  induction fuel as [|fuel IH]; intros in_degree R levels Hinv; simpl.
  - by rewrite app_nil_r.
  - destruct (decide (R = ∅)); [by rewrite app_nil_r|].
    rewrite (filter_ext_elem (λ n, in_degree !! n = Some 0) (zero_in_degree dag R)).
    2:{ intros x Hx%elem_of_elements. rewrite (Hinv x Hx).
        unfold zero_in_degree. split; [congruence|by intros ->]. }
    destruct (filter (zero_in_degree dag R) (elements R)) as [|r rs] eqn:E;
      [by rewrite app_nil_r|].
    rewrite IH.
    + by rewrite <- app_assoc.
    + intros k Hk. rewrite recount_lookup. by rewrite decide_True.
Qed.

Lemma get_execution_order_fueled_level_loop fuel dag :
  Orchestrator.get_execution_order_fueled fuel dag
  = level_loop (zero_in_degree dag) fuel (dom dag).
Proof.
  unfold Orchestrator.get_execution_order_fueled.
  rewrite order_loop_level_loop; [done|].
  intros n Hn. rewrite init_in_degree_lookup.
  apply elem_of_dom in Hn as [deps Hn]. by rewrite Hn.
Qed.

(** The loop of [get_execution_order] ends on its own: more fuel than the
    number of nodes changes nothing. *)
Lemma get_execution_order_fuel fuel dag :
  size dag ≤ fuel →
  Orchestrator.get_execution_order_fueled fuel dag
  = Orchestrator.get_execution_order dag.
Proof.
  intros Hfuel. unfold Orchestrator.get_execution_order.
  rewrite !get_execution_order_fueled_level_loop.
  apply level_loop_fuel; rewrite size_dom; lia.
Qed.

Lemma get_execution_order_NoDup dag :
  NoDup (concat (Orchestrator.get_execution_order dag)).
Proof.
  unfold Orchestrator.get_execution_order.
  rewrite get_execution_order_fueled_level_loop. apply level_loop_NoDup.
Qed.

Lemma get_execution_order_dom dag t :
  t ∈ concat (Orchestrator.get_execution_order dag) → t ∈ dom dag.
Proof.
  unfold Orchestrator.get_execution_order.
  rewrite get_execution_order_fueled_level_loop. apply level_loop_concat_elem.
Qed.

(** Every in-graph dependency of a placed task sits in a strictly earlier
    level, on any dag. *)
Lemma get_execution_order_order dag j t d :
  in_level (Orchestrator.get_execution_order dag) j t → edge dag t d →
  ∃ i, i < j ∧ in_level (Orchestrator.get_execution_order dag) i d.
Proof.
  unfold Orchestrator.get_execution_order.
  rewrite get_execution_order_fueled_level_loop. intros Hj Hd.
  eapply (level_loop_order _ (edge dag)); eauto using zero_in_degree_sound.
  by apply edge_dom in Hd as [_ ?].
Qed.

Lemma get_execution_order_complete dag t :
  acyclic dag → t ∈ dom dag → t ∈ concat (Orchestrator.get_execution_order dag).
Proof.
  intros Hacyc Ht. unfold Orchestrator.get_execution_order.
  rewrite get_execution_order_fueled_level_loop.
  apply (level_loop_complete _ (edge dag)); [| |by rewrite size_dom|done].
  - intros R' m HR' Hm Hnr. apply zero_in_degree_complete; auto.
  - intros m _. by apply acyclic_acc.
Qed.

Lemma get_execution_order_no_cycle dag t :
  on_cycle dag t → t ∉ concat (Orchestrator.get_execution_order dag).
Proof.
  intros Hcyc. unfold Orchestrator.get_execution_order.
  rewrite get_execution_order_fueled_level_loop.
  apply (level_loop_no_cycle _ (edge dag)); [by eauto using zero_in_degree_sound|].
  eapply (tc_congruence id); [|exact Hcyc].
  intros x y Hxy. split; [done|]. by apply edge_dom in Hxy as [_ ?].
Qed.

(** ** [build_execution_order] *)

Lemma task_map_of_spec tasks :
  (∀ n t, Runner.task_map_of tasks !! n = Some t → Runner.task_id t = n)
  ∧ dom (Runner.task_map_of tasks) = list_to_set (Runner.task_id <$> tasks).
Proof.
  unfold Runner.task_map_of.
  assert (∀ (l : list Runner.SwarmTask) (m : gmap string Runner.SwarmTask),
    (∀ n t, m !! n = Some t → Runner.task_id t = n) →
    (∀ n t, foldl (λ m t, <[Runner.task_id t := t]> m) m l !! n = Some t
            → Runner.task_id t = n)
    ∧ dom (foldl (λ m t, <[Runner.task_id t := t]> m) m l)
      = dom m ∪ list_to_set (Runner.task_id <$> l)) as Hfold.
  { induction l as [|a l IH]; intros m Hm; cbn [foldl].
    - split; [done|]. rewrite fmap_nil, list_to_set_nil. set_solver.
    - destruct (IH (<[Runner.task_id a := a]> m)) as [IH1 IH2].
      { intros n t. rewrite lookup_insert. case_decide; [congruence|apply Hm]. }
      split; [done|]. rewrite IH2, dom_insert_L, fmap_cons, list_to_set_cons.
      set_solver. }
  destruct (Hfold tasks ∅) as [H1 H2]; [by intros ?? ?%lookup_empty_Some|].
  split; [done|]. rewrite H2, dom_empty_L. set_solver.
Qed.

Lemma task_dag_lookup tasks n :
  Runner.task_dag tasks !! n
  = Runner.dependencies <$> Runner.task_map_of tasks !! n.
Proof. unfold Runner.task_dag. by rewrite lookup_fmap. Qed.

Lemma task_dag_dom tasks :
  dom (Runner.task_dag tasks) = list_to_set (Runner.task_id <$> tasks).
Proof.
  unfold Runner.task_dag. rewrite dom_fmap_L. apply task_map_of_spec.
Qed.

(** The ids [collect_ready] gathers are the members of [remaining] that
    pass [deps_done]. *)
Lemma collect_ready_ids task_map U R :
  (∀ n t, task_map !! n = Some t → Runner.task_id t = n) →
  R ⊆ dom task_map →
  Runner.task_id <$> Runner.collect_ready task_map (U ∖ R) R
  = filter (deps_done task_map U R) (elements R).
Proof.
  intros Hid HR. unfold Runner.collect_ready.
  assert (∀ x, x ∈ elements R → x ∈ dom task_map) as Hl
    by (intros x Hx%elem_of_elements; by apply HR).
  induction (elements R) as [|a l IH]; [done|].
  assert (a ∈ dom task_map) as [t Ht]%elem_of_dom by (apply Hl; left).
  assert (deps_done task_map U R a ↔ Runner.deps_completed (U ∖ R) t) as Hiff
    by (unfold deps_done; by rewrite Ht).
  rewrite filter_cons, <- IH by (intros x Hx; apply Hl; by right).
  destruct (decide (deps_done task_map U R a)) as [Hd|Hd];
    cbn [omap list_omap]; rewrite Ht;
    destruct (decide (Runner.deps_completed (U ∖ R) t)); try tauto.
  rewrite fmap_cons. by rewrite (Hid _ _ Ht).
Qed.

Lemma build_loop_level_loop task_map U fuel : ∀ R levels,
  (∀ n t, task_map !! n = Some t → Runner.task_id t = n) →
  U = dom task_map → R ⊆ U →
  Runner.level_ids (Runner.build_loop task_map fuel (U ∖ R) R levels)
  = Runner.level_ids levels ++ level_loop (deps_done task_map U) fuel R.
Proof.
  intros R levels Hid HU. revert R levels.
  induction fuel as [|fuel IH]; intros R levels HR;
    cbn [Runner.build_loop level_loop].
  - by rewrite app_nil_r.
  - destruct (decide (R = ∅)); [by rewrite app_nil_r|].
    pose proof (collect_ready_ids task_map U R Hid) as Hids.
    rewrite <- Hids by (by subst U).
    destruct (Runner.collect_ready task_map (U ∖ R) R) as [|r rs] eqn:E;
      [by rewrite app_nil_r|].
    set (ready := r :: rs) in *.
    assert ((list_to_set (Runner.task_id <$> ready) : gset string) ⊆ R) as Hsub.
    { rewrite Hids by (by subst U). intros x Hx%elem_of_list_to_set.
      apply list_elem_of_filter in Hx as [_ Hx]. by apply elem_of_elements. }
    rewrite (difference_shrink U R _ Hsub HR).
    rewrite IH by set_solver.
    unfold Runner.level_ids. rewrite fmap_app. simpl.
    by rewrite <- app_assoc.
Qed.

Lemma build_execution_order_fueled_level_loop fuel tasks :
  Runner.level_ids (Runner.build_execution_order_fueled fuel tasks)
  = level_loop
      (deps_done (Runner.task_map_of tasks) (dom (Runner.task_map_of tasks)))
      fuel (dom (Runner.task_map_of tasks)).
Proof.
  unfold Runner.build_execution_order_fueled.
  destruct (task_map_of_spec tasks) as [Hid Hdom]. rewrite <- Hdom.
  set (U := dom (Runner.task_map_of tasks)).
  replace (∅ : gset string) with (U ∖ U) by set_solver.
  by rewrite (build_loop_level_loop _ U).
Qed.

Lemma task_ids_size tasks :
  size (dom (Runner.task_map_of tasks)) ≤ length tasks.
Proof.
  destruct (task_map_of_spec tasks) as [_ ->].
  rewrite <- (length_fmap Runner.task_id tasks).
  induction (Runner.task_id <$> tasks) as [|a l IH].
  - rewrite list_to_set_nil, size_empty. simpl. lia.
  - rewrite list_to_set_cons. simpl. pose proof (size_union_alt ({[a]} : gset string) (list_to_set l)) as Hu.
    rewrite size_singleton in Hu.
    assert (size (list_to_set l ∖ {[a]} : gset string)
            ≤ size (list_to_set l : gset string))
      by (apply subseteq_size; set_solver).
    lia.
Qed.

(** The loop of [build_execution_order] ends on its own: more fuel than the
    number of tasks changes nothing. *)
Lemma build_execution_order_fuel fuel tasks :
  length tasks ≤ fuel →
  Runner.level_ids (Runner.build_execution_order_fueled fuel tasks)
  = Runner.level_ids (Runner.build_execution_order tasks).
Proof.
  intros Hfuel. unfold Runner.build_execution_order.
  rewrite !build_execution_order_fueled_level_loop.
  pose proof (task_ids_size tasks). apply level_loop_fuel; lia.
Qed.

Lemma deps_done_sound tasks R n d :
  deps_done (Runner.task_map_of tasks) (dom (Runner.task_map_of tasks)) R n →
  edge (Runner.task_dag tasks) n d → d ∉ R.
Proof.
  unfold deps_done. intros Hdone (deps & Hn & Hd & _).
  rewrite task_dag_lookup in Hn.
  destruct (Runner.task_map_of tasks !! n) as [t|]; [|done].
  simpl in Hn. simplify_eq. unfold Runner.deps_completed in Hdone.
  rewrite Forall_forall in Hdone. apply Hdone in Hd. set_solver.
Qed.

Lemma deps_done_complete tasks R m :
  closed (Runner.task_dag tasks) →
  R ⊆ dom (Runner.task_map_of tasks) → m ∈ R →
  ¬ deps_done (Runner.task_map_of tasks) (dom (Runner.task_map_of tasks)) R m →
  ∃ d, edge (Runner.task_dag tasks) m d ∧ d ∈ R.
Proof.
  intros Hclosed HR Hm Hnd. unfold deps_done in Hnd.
  assert (m ∈ dom (Runner.task_map_of tasks)) as [t Ht]%elem_of_dom by auto.
  rewrite Ht in Hnd. unfold Runner.deps_completed in Hnd.
  apply not_Forall_Exists in Hnd; [|apply _].
  apply Exists_exists in Hnd as (d & Hd & Hnot).
  assert (Runner.task_dag tasks !! m = Some (Runner.dependencies t)) as Hdag
    by (by rewrite task_dag_lookup, Ht).
  assert (d ∈ dom (Runner.task_dag tasks)) as HdU by (by eapply Hclosed).
  exists d. split; [by exists (Runner.dependencies t)|].
  unfold Runner.task_dag in HdU. rewrite dom_fmap_L in HdU.
  destruct (decide (d ∈ R)); [done|]. exfalso. apply Hnot. set_solver.
Qed.

Lemma build_execution_order_NoDup tasks :
  NoDup (concat (Runner.level_ids (Runner.build_execution_order tasks))).
Proof.
  unfold Runner.build_execution_order.
  rewrite build_execution_order_fueled_level_loop. apply level_loop_NoDup.
Qed.

Lemma build_execution_order_dom tasks t :
  t ∈ concat (Runner.level_ids (Runner.build_execution_order tasks)) →
  t ∈ dom (Runner.task_dag tasks).
Proof.
  unfold Runner.build_execution_order.
  rewrite build_execution_order_fueled_level_loop.
  intros Ht%level_loop_concat_elem.
  unfold Runner.task_dag. by rewrite dom_fmap_L.
Qed.

Lemma build_execution_order_order tasks j t d :
  in_level (Runner.level_ids (Runner.build_execution_order tasks)) j t →
  edge (Runner.task_dag tasks) t d →
  ∃ i, i < j ∧ in_level (Runner.level_ids (Runner.build_execution_order tasks)) i d.
Proof.
  unfold Runner.build_execution_order.
  rewrite build_execution_order_fueled_level_loop. intros Hj Hd.
  eapply (level_loop_order _ (edge (Runner.task_dag tasks))); eauto.
  - intros R' n d'. apply deps_done_sound.
  - apply edge_dom in Hd as [_ Hd].
    unfold Runner.task_dag in Hd. by rewrite dom_fmap_L in Hd.
Qed.

Lemma build_execution_order_complete tasks t :
  closed (Runner.task_dag tasks) → acyclic (Runner.task_dag tasks) →
  t ∈ dom (Runner.task_dag tasks) →
  t ∈ concat (Runner.level_ids (Runner.build_execution_order tasks)).
Proof.
  intros Hclosed Hacyc Ht. unfold Runner.build_execution_order.
  rewrite build_execution_order_fueled_level_loop.
  apply (level_loop_complete _ (edge (Runner.task_dag tasks))).
  - intros R' m HR' Hm Hnr. by apply deps_done_complete.
  - intros m _. by apply acyclic_acc.
  - apply task_ids_size.
  - unfold Runner.task_dag in Ht. by rewrite dom_fmap_L in Ht.
Qed.

Lemma build_execution_order_no_cycle tasks t :
  on_cycle (Runner.task_dag tasks) t →
  t ∉ concat (Runner.level_ids (Runner.build_execution_order tasks)).
Proof.
  intros Hcyc. unfold Runner.build_execution_order.
  rewrite build_execution_order_fueled_level_loop.
  apply (level_loop_no_cycle _ (edge (Runner.task_dag tasks))).
  - intros R' n d'. apply deps_done_sound.
  - eapply (tc_congruence id); [|exact Hcyc].
    intros x y Hxy. split; [done|]. apply edge_dom in Hxy as [_ Hy].
    unfold Runner.task_dag in Hy. by rewrite dom_fmap_L in Hy.
Qed.

(** A task [build_execution_order] places has all its dependency ids among
    the tasks of the list. *)
Lemma build_execution_order_placed_deps tasks j t d :
  in_level (Runner.level_ids (Runner.build_execution_order tasks)) j t →
  depends_on tasks t d → edge (Runner.task_dag tasks) t d.
Proof.
  unfold Runner.build_execution_order.
  rewrite build_execution_order_fueled_level_loop.
  intros Hj (deps & Hdeps & Hd). exists deps. split_and!; [done..|].
  apply level_loop_ready in Hj. unfold deps_done in Hj.
  rewrite task_dag_lookup in Hdeps.
  destruct (Runner.task_map_of tasks !! t) as [task|]; [|done].
  simpl in Hdeps. simplify_eq. unfold Runner.deps_completed in Hj.
  rewrite Forall_forall in Hj. apply Hj in Hd.
  unfold Runner.task_dag. rewrite dom_fmap_L. set_solver.
Qed.

(** ** Checking the side conditions on a given input *)


(** A dag all of whose nodes are placed by [get_execution_order] has no
    cycle. *)
Lemma placed_acyclic dag :
  Forall (λ t, t ∈ concat (Orchestrator.get_execution_order dag))
    (elements (dom dag)) →
  acyclic dag.
Proof.
  rewrite Forall_forall. intros Hall t Hcyc.
  apply (get_execution_order_no_cycle dag t Hcyc), Hall, elem_of_elements.
  by eapply tc_edge_dom.
Qed.

Lemma checked_closed dag :
  map_Forall (λ _ deps, Forall (λ d, d ∈ dom dag) deps) dag → closed dag.
Proof.
  intros Hall n deps d Hn Hd. apply Hall in Hn.
  rewrite Forall_forall in Hn. by apply Hn.
Qed.

(** ** The level schedulers *)

(** C1 (amended).  On a task set whose in-set dependency graph is acyclic,
    [get_execution_order] returns levels whose concatenation holds every
    task id exactly once, and every dependency id of a task that belongs to
    the set sits in a strictly earlier level than the task.
    [build_execution_order] does the same on a task list whose dependency
    ids all belong to the list. *)
Theorem C1_levels_cover_and_order
    (dag : gmap string (list string)) (tasks : list Runner.SwarmTask) :
  (acyclic dag →
   let levels := Orchestrator.get_execution_order dag in
   NoDup (concat levels)
   ∧ (∀ t, t ∈ concat levels ↔ t ∈ dom dag)
   ∧ (∀ j t d, in_level levels j t → edge dag t d →
        ∃ i, i < j ∧ in_level levels i d))
  ∧ (acyclic (Runner.task_dag tasks) → closed (Runner.task_dag tasks) →
     let levels := Runner.level_ids (Runner.build_execution_order tasks) in
     NoDup (concat levels)
     ∧ (∀ t, t ∈ concat levels ↔ t ∈ dom (Runner.task_dag tasks))
     ∧ (∀ j t d, in_level levels j t → edge (Runner.task_dag tasks) t d →
          ∃ i, i < j ∧ in_level levels i d)).
Proof.
  split.
  - intros Hacyc levels. split_and!.
    + apply get_execution_order_NoDup.
    + intros t. split; [apply get_execution_order_dom|].
      by apply get_execution_order_complete.
    + intros j t d. apply get_execution_order_order.
  - intros Hacyc Hclosed levels. split_and!.
    + apply build_execution_order_NoDup.
    + intros t. split; [apply build_execution_order_dom|].
      by apply build_execution_order_complete.
    + intros j t d. apply build_execution_order_order.
Qed.

Lemma diamond_dag_acyclic : acyclic Samples.diamond_dag.
Proof. apply placed_acyclic. by_evaluation. Qed.

Lemma diamond_tasks_acyclic : acyclic (Runner.task_dag Samples.diamond_tasks).
Proof. apply placed_acyclic. by_evaluation. Qed.

Lemma diamond_tasks_closed : closed (Runner.task_dag Samples.diamond_tasks).
Proof. apply checked_closed. by_evaluation. Qed.

(** The diamond A, B(A), C(A), D(B, C) is scheduled in three levels by both
    schedulers, and D comes after B. *)
Lemma C1_levels_cover_and_order_witness :
  (NoDup (concat (Orchestrator.get_execution_order Samples.diamond_dag))
   ∧ "D" ∈ concat (Orchestrator.get_execution_order Samples.diamond_dag)
   ∧ ∃ i, i < 2 ∧ in_level (Orchestrator.get_execution_order Samples.diamond_dag) i "B")
  ∧ (NoDup (concat (Runner.level_ids
                      (Runner.build_execution_order Samples.diamond_tasks)))
     ∧ "D" ∈ concat (Runner.level_ids
                      (Runner.build_execution_order Samples.diamond_tasks))).
Proof.
  destruct (C1_levels_cover_and_order Samples.diamond_dag Samples.diamond_tasks)
    as [HG HB].
  destruct (HG diamond_dag_acyclic) as (Hnd & Hcover & Horder).
  destruct (HB diamond_tasks_acyclic diamond_tasks_closed) as (Hnd' & Hcover' & _).
  split; split_and!.
  - exact Hnd.
  - apply Hcover. by_evaluation.
  - apply (Horder 2 "D" "B").
    + exists ["D"]. split; by_evaluation.
    + exists ["B"; "C"]. split_and!; by_evaluation.
  - exact Hnd'.
  - apply Hcover'. by_evaluation.
Defined.

(** C1, as stated, fails for [build_execution_order]: the in-set graph of
    the one-task list below has no edge at all, and the task is placed in no
    level, because its dependency id names no task. *)
Lemma C1_counterexample :
  acyclic (Runner.task_dag Samples.dangling_tasks)
  ∧ "t1" ∈ dom (Runner.task_dag Samples.dangling_tasks)
  ∧ Runner.build_execution_order Samples.dangling_tasks = []
  ∧ "t1" ∉ concat (Runner.level_ids
                     (Runner.build_execution_order Samples.dangling_tasks)).
Proof.
  split_and!.
  - apply placed_acyclic. by_evaluation.
  - by_evaluation.
  - vm_compute. reflexivity.
  - by_evaluation.
Qed.

(** C2 (amended).  Both schedulers end on every task set and return a list
    of levels; they have no error result.  A task that lies on a dependency
    cycle is left out of every level. *)
Theorem C2_cycle_members_left_out
    (dag : gmap string (list string)) (tasks : list Runner.SwarmTask) :
  (∀ fuel, size dag ≤ fuel →
     Orchestrator.get_execution_order_fueled fuel dag
     = Orchestrator.get_execution_order dag)
  ∧ (∀ fuel, length tasks ≤ fuel →
       Runner.level_ids (Runner.build_execution_order_fueled fuel tasks)
       = Runner.level_ids (Runner.build_execution_order tasks))
  ∧ (∀ t, on_cycle dag t → t ∉ concat (Orchestrator.get_execution_order dag))
  ∧ (∀ t, on_cycle (Runner.task_dag tasks) t →
       t ∉ concat (Runner.level_ids (Runner.build_execution_order tasks))).
Proof.
  split_and!.
  - intros fuel. apply get_execution_order_fuel.
  - intros fuel. apply build_execution_order_fuel.
  - apply get_execution_order_no_cycle.
  - apply build_execution_order_no_cycle.
Qed.

Lemma cyclic_dag_on_cycle : on_cycle Samples.cyclic_dag "a".
Proof.
  apply tc_l with "b"; [|apply tc_once];
    [exists ["b"]|exists ["a"]]; split_and!; by_evaluation.
Qed.

Lemma cyclic_tasks_on_cycle :
  on_cycle (Runner.task_dag Samples.cyclic_tasks) "a".
Proof.
  apply tc_l with "b"; [|apply tc_once];
    [exists ["b"]|exists ["a"]]; split_and!; by_evaluation.
Qed.

Lemma C2_cycle_members_left_out_witness :
  ("a" ∉ concat (Orchestrator.get_execution_order Samples.cyclic_dag))
  ∧ ("a" ∉ concat (Runner.level_ids
                     (Runner.build_execution_order Samples.cyclic_tasks))).
Proof.
  destruct (C2_cycle_members_left_out Samples.cyclic_dag Samples.cyclic_tasks)
    as (_ & _ & HG & HB).
  split; [apply HG, cyclic_dag_on_cycle|apply HB, cyclic_tasks_on_cycle].
Defined.

(** C2, as stated, fails: on the two tasks that depend on each other both
    schedulers return the empty list of levels, which is an ordinary
    result, and the two tasks are in no level. *)
Lemma C2_counterexample :
  on_cycle Samples.cyclic_dag "a"
  ∧ Orchestrator.get_execution_order Samples.cyclic_dag = []
  ∧ on_cycle (Runner.task_dag Samples.cyclic_tasks) "a"
  ∧ Runner.build_execution_order Samples.cyclic_tasks = [].
Proof.
  split_and!.
  - apply cyclic_dag_on_cycle.
  - vm_compute. reflexivity.
  - apply cyclic_tasks_on_cycle.
  - vm_compute. reflexivity.
Qed.

(** [get_execution_order] ignores dependency ids outside the dag: a task all
    of whose dependencies are such ids is in the first level. *)
Lemma get_execution_order_dangling dag t deps :
  dag !! t = Some deps → (∀ d, d ∈ deps → d ∉ dom dag) →
  in_level (Orchestrator.get_execution_order dag) 0 t.
Proof.
  intros Ht Hdangling. unfold Orchestrator.get_execution_order.
  rewrite get_execution_order_fueled_level_loop.
  assert (t ∈ dom dag) as Hdom by (apply elem_of_dom; eauto).
  assert (zero_in_degree dag (dom dag) t) as Hz.
  { unfold zero_in_degree. rewrite Ht. simpl. by apply count_in_zero. }
  assert (t ∈ filter (zero_in_degree dag (dom dag)) (elements (dom dag))) as Hin
    by (by apply ready_elem).
  destruct (size dag) as [|fuel] eqn:Hsz.
  { apply map_size_empty_inv in Hsz. subst dag. by rewrite lookup_empty in Ht. }
  rewrite level_loop_unfold. rewrite decide_False by set_solver.
  destruct (filter (zero_in_degree dag (dom dag)) (elements (dom dag)))
    as [|r rs] eqn:E; [by apply elem_of_nil in Hin|].
  by exists (r :: rs).
Qed.

(** [build_execution_order] never places a task one of whose dependency
    ids names no task of the list. *)
Lemma build_execution_order_dangling tasks t d :
  depends_on tasks t d → d ∉ dom (Runner.task_dag tasks) →
  t ∉ concat (Runner.level_ids (Runner.build_execution_order tasks)).
Proof.
  intros Hdep Hdangling [j Hj]%elem_of_concat_in_level.
  apply Hdangling.
  assert (edge (Runner.task_dag tasks) t d) as Hedge
    by (by eapply build_execution_order_placed_deps).
  by apply edge_dom in Hedge as [_ ?].
Qed.

(** [get_ready_tasks] never returns a task one of whose dependency ids
    names no task of the queue. *)
Lemma get_ready_tasks_dangling st q t d :
  Orchestrator.read_queue st = Some q →
  d ∈ Orchestrator.dependencies t → d ∉ dom (Orchestrator.tasks q) →
  t ∉ Orchestrator.get_ready_tasks st.
Proof.
  intros Hq Hd Hdangling Hin.
  unfold Orchestrator.get_ready_tasks in Hin. rewrite Hq in Hin.
  apply list_elem_of_fmap in Hin as ([tid t'] & -> & Hin).
  apply list_elem_of_filter in Hin as [[_ Hall] _]. simpl in *.
  rewrite Forall_forall in Hall. apply Hall in Hd.
  apply Hdangling. apply elem_of_dom in Hd as [f Hf].
  apply map_lookup_filter_Some in Hf as [Hf _]. apply elem_of_dom. eauto.
Qed.

(** C6.  The three scheduling functions disagree on a dependency id that
    names no task.  For the queue [create_queue] persists for the single
    pending task [t1] with dependencies [["ghost"]], [get_execution_order]
    puts [t1] in the first level, and that is the [execution_order] stored
    in the queue; [get_ready_tasks] on the same queue returns no task, and
    [build_execution_order] on the same task places it in no level. *)
Theorem C6_dangling_dependency :
  Orchestrator.get_execution_order Samples.dangling_dag = [["t1"]]
  ∧ fmap Orchestrator.execution_order
      (Orchestrator.read_queue Samples.dangling_store) = Some [["t1"]]
  ∧ Orchestrator.get_ready_tasks Samples.dangling_store = []
  ∧ Runner.build_execution_order Samples.dangling_tasks = [].
Proof. split_and!; vm_compute; reflexivity. Qed.

(** ** The analyzers *)

Lemma analyze_task_thresholds user_request :
  let a := Orchestrator.analyze_task user_request in
  let score := Orchestrator.complexity_score user_request in
  (4 ≤ score →
     Orchestrator.complexity a = "complex" ∧ Orchestrator.swarm_mode a = true)
  ∧ (2 ≤ score < 4 →
       Orchestrator.complexity a = "medium"
       ∧ Orchestrator.swarm_mode a = Orchestrator.parallel_hint user_request)
  ∧ (score < 2 →
       Orchestrator.complexity a = "simple" ∧ Orchestrator.swarm_mode a = false).
Proof.
  cbv zeta. unfold Orchestrator.analyze_task.
  destruct (4 <=? Orchestrator.complexity_score user_request) eqn:E4;
    [apply Nat.leb_le in E4|apply Nat.leb_gt in E4];
    (destruct (2 <=? Orchestrator.complexity_score user_request) eqn:E2;
      [apply Nat.leb_le in E2|apply Nat.leb_gt in E2]);
    simpl; split_and!; intros; try lia; done.
Qed.

Lemma analyze_complexity_thresholds task_description :
  let a := Runner.analyze_complexity task_description in
  let score := Runner.complexity_score task_description in
  (4 ≤ score → Runner.complexity a = "complex" ∧ Runner.swarm_mode a = true)
  ∧ (2 ≤ score < 4 →
       Runner.complexity a = "medium" ∧ Runner.swarm_mode a = false)
  ∧ (score < 2 → Runner.complexity a = "simple" ∧ Runner.swarm_mode a = false).
Proof.
  cbv zeta. unfold Runner.analyze_complexity.
  destruct (4 <=? Runner.complexity_score task_description) eqn:E4;
    [apply Nat.leb_le in E4|apply Nat.leb_gt in E4];
    (destruct (2 <=? Runner.complexity_score task_description) eqn:E2;
      [apply Nat.leb_le in E2|apply Nat.leb_gt in E2]);
    simpl; split_and!; intros; try lia; done.
Qed.

(** C5 (amended).  For every request, [analyze_task] obeys the thresholds:
    a score of 4 or more gives complex and swarm mode; a score of 2 or 3
    gives medium, with swarm mode exactly when the request holds one of the
    parallelism hints; a score below 2 gives simple without swarm mode.
    [analyze_complexity] obeys the same thresholds, except that in the
    medium band its swarm mode is always off. *)
Theorem C5_analyzer_thresholds (request : string) :
  (let a := Orchestrator.analyze_task request in
   let score := Orchestrator.complexity_score request in
   (4 ≤ score →
      Orchestrator.complexity a = "complex" ∧ Orchestrator.swarm_mode a = true)
   ∧ (2 ≤ score < 4 →
        Orchestrator.complexity a = "medium"
        ∧ (Orchestrator.swarm_mode a = true
           ↔ Orchestrator.parallel_hint request = true))
   ∧ (score < 2 →
        Orchestrator.complexity a = "simple"
        ∧ Orchestrator.swarm_mode a = false))
  ∧ (let a := Runner.analyze_complexity request in
     let score := Runner.complexity_score request in
     (4 ≤ score → Runner.complexity a = "complex" ∧ Runner.swarm_mode a = true)
     ∧ (2 ≤ score < 4 →
          Runner.complexity a = "medium" ∧ Runner.swarm_mode a = false)
     ∧ (score < 2 →
          Runner.complexity a = "simple" ∧ Runner.swarm_mode a = false)).
Proof.
  split.
  - destruct (analyze_task_thresholds request) as (H4 & H2 & H0).
    split_and!; [done| |done].
    intros Hs. destruct (H2 Hs) as [Hc ->]. done.
  - apply analyze_complexity_thresholds.
Qed.

Lemma C5_analyzer_thresholds_witness :
  (Orchestrator.complexity (Orchestrator.analyze_task Samples.complex_request)
   = "complex"
   ∧ Orchestrator.swarm_mode (Orchestrator.analyze_task Samples.complex_request)
     = true)
  ∧ (Orchestrator.complexity
       (Orchestrator.analyze_task Samples.parallel_request) = "medium"
     ∧ Orchestrator.swarm_mode
         (Orchestrator.analyze_task Samples.parallel_request) = true)
  ∧ (Orchestrator.complexity (Orchestrator.analyze_task "hello") = "simple"
     ∧ Orchestrator.swarm_mode (Orchestrator.analyze_task "hello") = false)
  ∧ (Runner.complexity (Runner.analyze_complexity Samples.parallel_request)
     = "medium"
     ∧ Runner.swarm_mode (Runner.analyze_complexity Samples.parallel_request)
       = false).
Proof.
  destruct (C5_analyzer_thresholds Samples.complex_request) as [(H4 & _ & _) _].
  destruct (C5_analyzer_thresholds Samples.parallel_request)
    as [(_ & H2 & _) (_ & H2' & _)].
  destruct (C5_analyzer_thresholds "hello") as [(_ & _ & H0) _].
  assert (4 ≤ Orchestrator.complexity_score Samples.complex_request) as E4
    by (vm_compute; lia).
  assert (2 ≤ Orchestrator.complexity_score Samples.parallel_request < 4) as E2
    by (vm_compute; lia).
  assert (2 ≤ Runner.complexity_score Samples.parallel_request < 4) as E2'
    by (vm_compute; lia).
  assert (Orchestrator.complexity_score "hello" < 2) as E0
    by (vm_compute; lia).
  split_and!.
  - apply (H4 E4).
  - apply (H4 E4).
  - apply (H2 E2).
  - apply (H2 E2). reflexivity.
  - apply (H0 E0).
  - apply (H0 E0).
  - apply (H2' E2').
  - apply (H2' E2').
Defined.

(** C5, as stated, fails for [analyze_complexity]: the request below scores
    2 and holds a parallelism hint, and its swarm mode is off. *)
Lemma C5_counterexample :
  Runner.complexity_score Samples.parallel_request = 2
  ∧ Orchestrator.parallel_hint Samples.parallel_request = true
  ∧ Runner.analyze_complexity Samples.parallel_request
    = Runner.mkComplexity "medium" false.
Proof. split_and!; vm_compute; reflexivity. Qed.

(** ** The decomposers *)

(** The development template is the only one whose entries test [tasks]
    before they index it; [tasks] is empty at that point, so it yields its
    six tasks without any dependency. *)
Lemma development_template_no_dependencies env n :
  ∃ tasks, Orchestrator.development_template [] env n = inr (tasks, n + 6)
           ∧ length tasks = 6
           ∧ Forall (λ t, Orchestrator.dependencies t = []) tasks.
Proof.
  eexists. split_and!.
  - cbv [Orchestrator.development_template Orchestrator.entry mbind M_bind mret
         M_ret Orchestrator._generate_task_id Orchestrator.SubTask_init
         bool_decide decide_rel]. simpl.
    replace (n + 6) with (S (S (S (S (S (S n)))))) by lia. reflexivity.
  - reflexivity.
  - repeat constructor.
Qed.

(** The fixed decomposition of workflow_runner.py: six tasks, wired
    research, design, implement, then test and document, then review. *)
Lemma runner_decompose_task_template task_description :
  (λ t, (Runner.task_id t, Runner.worker_type t, Runner.dependencies t))
    <$> Runner.decompose_task task_description
  = [ ("task_001", "researcher", []);
      ("task_002", "coder", ["task_001"]);
      ("task_003", "coder", ["task_002"]);
      ("task_004", "tester", ["task_003"]);
      ("task_005", "writer", ["task_003"]);
      ("task_006", "reviewer", ["task_003"; "task_004"; "task_005"]) ].
Proof. reflexivity. Qed.

(** The slip that empties the wiring shows in the plan [execute] builds for
    a development request: six tasks, all in one level. *)
Lemma development_request_single_level :
  ∃ main_task_id analysis tasks dag level st',
    Orchestrator.execute Samples.development_request Samples.empty_store
      Samples.sample_env 0
    = inr (Orchestrator.ready main_task_id analysis tasks dag [level], st', 7)
    ∧ Orchestrator.task_type analysis = "development"
    ∧ length tasks = 6 ∧ length level = 6.
Proof. do 6 eexists. split_and!; [vm_compute; reflexivity|reflexivity..]. Qed.

(** C4.  On the request with the four complex keywords [analyze_task]
    scores 8 and answers complex with swarm mode, and the category it
    matches is refactor.  [decompose_task] on that analysis raises
    [IndexError] whatever ids and time stamps it draws: the second entry of
    the refactor template reads [tasks[0]] while [tasks] is still the empty
    list.  No list of six tasks is returned, and [execute] on the request
    raises in the same way. *)
Theorem C4_refactor_request_raises :
  Orchestrator.complexity_score Samples.complex_request = 8
  ∧ Orchestrator.complexity (Orchestrator.analyze_task Samples.complex_request)
    = "complex"
  ∧ Orchestrator.swarm_mode (Orchestrator.analyze_task Samples.complex_request)
    = true
  ∧ Orchestrator.task_type (Orchestrator.analyze_task Samples.complex_request)
    = "refactor"
  ∧ (∀ env n,
       Orchestrator.decompose_task
         (Orchestrator.analyze_task Samples.complex_request) env n
       = inl IndexError)
  ∧ (∀ st env n,
       Orchestrator.execute Samples.complex_request st env n = inl IndexError).
Proof. split_and!; vm_compute; reflexivity. Qed.

(** ** The persisted queue *)

Lemma count_status_le tasks s :
  Orchestrator.count_status tasks s ≤ size tasks.
Proof.
  unfold Orchestrator.count_status. rewrite <- length_map_to_list.
  apply length_filter.
Qed.

Lemma count_status_pos tasks s :
  0 < Orchestrator.count_status tasks s
  ↔ ∃ tid t, tasks !! tid = Some t ∧ Orchestrator.status t = s.
Proof.
  unfold Orchestrator.count_status. split.
  - destruct (filter _ (map_to_list tasks)) as [|[tid t] l] eqn:E;
      simpl; [lia|]. intros _.
    assert ((tid, t) ∈ filter (λ p, Orchestrator.status p.2 = s)
              (map_to_list tasks)) as Hin by (rewrite E; left).
    apply list_elem_of_filter in Hin as [Hs Hin].
    apply elem_of_map_to_list in Hin. eauto.
  - intros (tid & t & Ht & Hs).
    assert ((tid, t) ∈ filter (λ p, Orchestrator.status p.2 = s)
              (map_to_list tasks)) as Hin.
    { apply list_elem_of_filter. split; [done|]. by apply elem_of_map_to_list. }
    destruct (filter _ (map_to_list tasks)); [by apply elem_of_nil in Hin|].
    simpl. lia.
Qed.

Lemma count_status_zero tasks s :
  Orchestrator.count_status tasks s = 0
  ↔ ∀ tid t, tasks !! tid = Some t → Orchestrator.status t ≠ s.
Proof.
  split.
  - intros Hz tid t Ht Hs.
    assert (0 < Orchestrator.count_status tasks s); [|lia].
    apply count_status_pos. eauto.
  - intros Hall. destruct (Orchestrator.count_status tasks s) eqn:E; [done|].
    assert (0 < Orchestrator.count_status tasks s) as Hpos by lia.
    apply count_status_pos in Hpos as (tid & t & Ht & Hs).
    by destruct (Hall tid t Ht).
Qed.

Lemma set_field_status t kw :
  Orchestrator.status (Orchestrator.set_field t kw) = Orchestrator.status t.
Proof. by destruct t, kw. Qed.

Lemma update_fields_status kwargs : ∀ t,
  Orchestrator.status (Orchestrator.update_fields t kwargs)
  = Orchestrator.status t.
Proof.
  unfold Orchestrator.update_fields.
  induction kwargs as [|kw kwargs IH]; intros t; [done|].
  cbn [foldl]. by rewrite IH, set_field_status.
Qed.

Lemma set_status_status v t :
  Orchestrator.status (Orchestrator.set_status v t) = v.
Proof. by destruct t. Qed.

(** ** Doubles

    What is needed of [binary_round_aux], the rounding every operation of
    [SpecFloat] ends with, to bound the percentage [get_progress]
    computes. *)

Section float64.
Local Open Scope Z_scope.

Lemma digits2_pos_size p : digits2_pos p = Pos.size p.
Proof. induction p; simpl; congruence. Qed.

Lemma Zdigits2_bounds p :
  2 ^ (Zdigits2 (Zpos p) - 1) ≤ Zpos p < 2 ^ Zdigits2 (Zpos p).
Proof.
  change (Zdigits2 (Z.pos p)) with (Z.pos (digits2_pos p)).
  rewrite digits2_pos_size.
  pose proof (Pos.size_gt p) as Hgt. pose proof (Pos.size_le p) as Hle.
  apply Pos2Z.pos_lt_pos in Hgt. apply Pos2Z.pos_le_pos in Hle.
  rewrite Pos2Z.inj_pow in Hgt, Hle.
  replace (Z.pos (Pos.size p)) with (Z.succ (Z.pos (Pos.size p) - 1)) in Hle
    by lia.
  rewrite Z.pow_succ_r in Hle by lia. rewrite (Pos2Z.inj_xO p) in Hle.
  lia.
Qed.

Lemma Zdigits2_unique m k :
  2 ^ (k - 1) ≤ m < 2 ^ k → 0 < m → Zdigits2 m = k.
Proof.
  intros [Hlo Hhi] Hm. destruct m as [|p|p]; try lia.
  pose proof (Zdigits2_bounds p) as [Hlo' Hhi'].
  assert (0 < Zdigits2 (Z.pos p)) as Hd by (simpl; lia).
  assert (0 < k) as Hk.
  { destruct (Z_lt_le_dec 0 k); [done|].
    assert (2 ^ k ≤ 1); [|lia].
    destruct (Z.eq_dec k 0) as [->|]; [done|].
    rewrite Z.pow_neg_r by lia. lia. }
  assert (Zdigits2 (Z.pos p) - 1 < k) as H1.
  { apply (Z.pow_lt_mono_r_iff 2); lia. }
  assert (k - 1 < Zdigits2 (Z.pos p)) as H2.
  { apply (Z.pow_lt_mono_r_iff 2); lia. }
  lia.
Qed.

Lemma iter_pos_nat {A} (f : A → A) p : ∀ x,
  iter_pos f p x = Nat.iter (Pos.to_nat p) f x.
Proof.
  induction p as [p IH|p IH|]; intros x; cbn [iter_pos].
  - rewrite !IH, Pos2Nat.inj_xI.
    replace (S (2 * Pos.to_nat p))%nat
      with (Pos.to_nat p + (Pos.to_nat p + 1))%nat by lia.
    rewrite !Nat.iter_add. reflexivity.
  - rewrite !IH, Pos2Nat.inj_xO.
    replace (2 * Pos.to_nat p)%nat with (Pos.to_nat p + Pos.to_nat p)%nat
      by lia.
    by rewrite Nat.iter_add.
  - reflexivity.
Qed.

Lemma shr_1_spec mrs :
  0 ≤ shr_m mrs →
  shr_m (shr_1 mrs) = shr_m mrs / 2
  ∧ shr_r (shr_1 mrs) = Z.odd (shr_m mrs)
  ∧ shr_s (shr_1 mrs) = shr_r mrs || shr_s mrs.
Proof.
  destruct mrs as [m r s]. cbn [shr_m shr_r shr_s]. intros Hm.
  rewrite <- Z.div2_div.
  destruct m as [|[p|p|]|]; try lia; done.
Qed.

Lemma iter_shr_1 (n : nat) : ∀ mrs,
  0 ≤ shr_m mrs →
  shr_m (Nat.iter n shr_1 mrs) = shr_m mrs / 2 ^ Z.of_nat n
  ∧ (shr_r mrs = false → shr_s mrs = false →
     shr_m mrs mod 2 ^ Z.of_nat n = 0 →
     shr_r (Nat.iter n shr_1 mrs) = false
     ∧ shr_s (Nat.iter n shr_1 mrs) = false)
  ∧ ((0 < n)%nat →
     shr_r (Nat.iter n shr_1 mrs)
     = Z.testbit (shr_m mrs) (Z.of_nat n - 1)).
Proof.
  induction n as [|n IH]; intros mrs Hm.
  - change (Nat.iter 0 shr_1 mrs) with mrs. rewrite Z.pow_0_r, Z.div_1_r.
    split_and!; [done|done|lia].
  - destruct (IH mrs Hm) as (IHm & IHexact & IHr).
    change (Nat.iter (S n) shr_1 mrs) with (shr_1 (Nat.iter n shr_1 mrs)).
    assert (0 ≤ shr_m (Nat.iter n shr_1 mrs)) as Hpos.
    { rewrite IHm. apply Z.div_pos; [done|]. apply Z.pow_pos_nonneg; lia. }
    destruct (shr_1_spec _ Hpos) as (Hm1 & Hr1 & Hs1).
    assert (2 ^ Z.of_nat (S n) = 2 ^ Z.of_nat n * 2) as Hpow.
    { rewrite Nat2Z.inj_succ, Z.pow_succ_r by lia. lia. }
    assert (Z.odd (shr_m mrs / 2 ^ Z.of_nat n)
            = Z.testbit (shr_m mrs) (Z.of_nat n)) as Hbit.
    { rewrite Z.testbit_odd, Z.shiftr_div_pow2 by lia. done. }
    assert (0 < 2 ^ Z.of_nat n) as Hp by (apply Z.pow_pos_nonneg; lia).
    split_and!.
    + rewrite Hm1, IHm, Hpow, Z.div_div by lia. done.
    + intros Hr Hs Hmod.
      assert (shr_m mrs mod 2 ^ Z.of_nat n = 0) as Hmod'.
      { rewrite Hpow in Hmod. apply Z.mod_divide in Hmod as [k Hk]; [|lia].
        apply Z.mod_divide; [lia|]. exists (k * 2). lia. }
      destruct (IHexact Hr Hs Hmod') as [Hr' Hs'].
      rewrite Hr1, Hs1, Hr', Hs', IHm. split; [|done].
      rewrite Hpow in Hmod. apply Z.mod_divide in Hmod as [k Hk]; [|lia].
      replace (shr_m mrs) with (k * 2 * 2 ^ Z.of_nat n) by lia.
      rewrite Z.div_mul by lia. rewrite Z.mul_comm, Z.odd_mul. done.
    + intros _. rewrite Hr1, IHm, Hbit. f_equal. lia.
Qed.

Lemma loc_of_shr_record_of_loc m l :
  loc_of_shr_record (shr_record_of_loc m l) = l.
Proof. by destruct l as [|[]]. Qed.

Lemma shr_m_shr_record_of_loc m l : shr_m (shr_record_of_loc m l) = m.
Proof. by destruct l as [|[]]. Qed.

Lemma round_nearest_even_bounds m l :
  m ≤ round_nearest_even m l ≤ m + 1.
Proof.
  destruct l as [|[]]; cbn [round_nearest_even]; try lia.
  destruct (Z.even m); lia.
Qed.

Lemma round_nearest_even_down mrs :
  shr_r mrs = false →
  round_nearest_even (shr_m mrs) (loc_of_shr_record mrs) = shr_m mrs.
Proof. destruct mrs as [m [] []]; done. Qed.

(** The shift of [shr_fexp]. *)
Lemma shr_spec m l e n :
  0 ≤ m → 0 ≤ n →
  ∃ mrs, shr (shr_record_of_loc m l) e n = (mrs, e + n)
         ∧ shr_m mrs = m / 2 ^ n
         ∧ (n = 0 → loc_of_shr_record mrs = l)
         ∧ (l = loc_Exact → m mod 2 ^ n = 0 → shr_r mrs = false)
         ∧ (0 < n → shr_r mrs = Z.testbit m (n - 1)).
Proof.
  intros Hm Hn. destruct n as [|p|p]; try lia.
  - eexists. split; [cbn [shr]; by rewrite Z.add_0_r|].
    rewrite shr_m_shr_record_of_loc, Z.pow_0_r, Z.div_1_r.
    split_and!; [done|by rewrite loc_of_shr_record_of_loc| |lia].
    by intros ->.
  - eexists. split; [reflexivity|]. rewrite iter_pos_nat.
    assert (0 ≤ shr_m (shr_record_of_loc m l)) as Hm'
      by by rewrite shr_m_shr_record_of_loc.
    destruct (iter_shr_1 (Pos.to_nat p) _ Hm') as (H1 & H2 & H3).
    rewrite shr_m_shr_record_of_loc, positive_nat_Z in *.
    split_and!; [done|lia| |].
    + intros -> Hmod. by apply H2.
    + intros _. apply H3. lia.
Qed.

Lemma div_pow2_bounds m d k :
  0 ≤ k ≤ d - 1 → 2 ^ (d - 1) ≤ m < 2 ^ d →
  2 ^ (d - 1 - k) ≤ m / 2 ^ k < 2 ^ (d - k).
Proof.
  intros Hk [Hlo Hhi].
  assert (0 < 2 ^ k) by (apply Z.pow_pos_nonneg; lia).
  split.
  - apply Z.div_le_lower_bound; [done|].
    rewrite <- Z.pow_add_r by lia. by replace (k + (d - 1 - k)) with (d - 1) by lia.
  - apply Z.div_lt_upper_bound; [done|].
    rewrite <- Z.pow_add_r by lia. by replace (k + (d - k)) with d by lia.
Qed.

(** [binary_round_aux] on a mantissa of at least 53 digits, in the range of
    the normal numbers: the mantissa is cut to 53 digits and rounded up by
    at most one; a mantissa rounded up to 2^53 is renormalised. *)
Lemma binary_round_aux_normal s mx ex lx :
  0 < mx → 53 ≤ Zdigits2 mx →
  -1074 ≤ Zdigits2 mx + ex - 53 → Zdigits2 mx + ex - 53 < 971 →
  ∃ mr,
    mx / 2 ^ (Zdigits2 mx - 53) ≤ mr ≤ mx / 2 ^ (Zdigits2 mx - 53) + 1
    ∧ 2 ^ 52 ≤ mr ≤ 2 ^ 53
    ∧ (lx = loc_Exact → mx mod 2 ^ (Zdigits2 mx - 53) = 0 →
       mr = mx / 2 ^ (Zdigits2 mx - 53))
    ∧ (53 < Zdigits2 mx → Z.testbit mx (Zdigits2 mx - 54) = false →
       mr = mx / 2 ^ (Zdigits2 mx - 53))
    ∧ binary_round_aux 53 1024 s mx ex lx
      = if decide (mr = 2 ^ 53)
        then S754_finite s (Z.to_pos (2 ^ 52)) (ex + Zdigits2 mx - 52)
        else S754_finite s (Z.to_pos mr) (ex + Zdigits2 mx - 53).
Proof.
  intros Hmx Hd Hlo Hhi. set (d := Zdigits2 mx) in *.
  assert (2 ^ (d - 1) ≤ mx < 2 ^ d) as Hbounds.
  { destruct mx as [|p|p]; try lia. apply Zdigits2_bounds. }
  pose proof (div_pow2_bounds mx d (d - 53) ltac:(lia) Hbounds) as Hm1.
  replace (d - 1 - (d - 53)) with 52 in Hm1 by lia.
  replace (d - (d - 53)) with 53 in Hm1 by lia.
  unfold binary_round_aux, shr_fexp. fold d.
  assert (fexp 53 1024 (d + ex) - ex = d - 53) as ->
    by (unfold fexp, emin; lia).
  destruct (shr_spec mx lx ex (d - 53) ltac:(lia) ltac:(lia))
    as (mrs & -> & Hm & Hloc & Hexact & Hbit).
  set (mr := round_nearest_even (shr_m mrs) (loc_of_shr_record mrs)).
  pose proof (round_nearest_even_bounds (shr_m mrs) (loc_of_shr_record mrs))
    as Hmr. fold mr in Hmr. rewrite Hm in Hmr.
  exists mr. split; [done|]. split; [lia|].
  assert (∀ H : shr_r mrs = false, mr = mx / 2 ^ (d - 53)) as Hdown.
  { intros Hr. unfold mr. by rewrite round_nearest_even_down, Hm. }
  split; [|split].
  - intros Hl Hmod. by apply Hdown, Hexact.
  - intros Hgt Htest. apply Hdown. rewrite Hbit by lia.
    by replace (d - 53 - 1) with (d - 54) by lia.
  - destruct (decide (mr = 2 ^ 53)) as [Heq|Hne].
    + rewrite Heq.
      assert (Zdigits2 (2 ^ 53) = 54) as -> by reflexivity.
      assert (fexp 53 1024 (54 + (ex + (d - 53))) - (ex + (d - 53)) = 1) as ->
        by (unfold fexp, emin; lia).
      cbn [shr_record_of_loc shr iter_pos].
      assert (shr_m (shr_1 {| shr_m := 2 ^ 53; shr_r := false; shr_s := false |})
              = 2 ^ 52) as -> by reflexivity.
      change (2 ^ 52) with (Z.pos (Z.to_pos (2 ^ 52))) at 1.
      cbv iota beta.
      assert ((ex + (d - 53) + 1 <=? 1024 - 53) = true) as ->
        by (apply Z.leb_le; lia).
      f_equal. lia.
    + assert (Zdigits2 mr = 53) as ->.
      { apply Zdigits2_unique; [|lia]. simpl (53 - 1). lia. }
      assert (fexp 53 1024 (53 + (ex + (d - 53))) - (ex + (d - 53)) = 0) as ->
        by (unfold fexp, emin; lia).
      cbn [shr_record_of_loc shr shr_m].
      destruct mr as [|pm|pm] eqn:Emr; try lia.
      assert ((ex + (d - 53) <=? 1024 - 53) = true) as ->
        by (apply Z.leb_le; lia).
      f_equal. lia.
Qed.

Lemma pos_iter_xO p : ∀ k, Z.pos (Pos.iter xO p k) = Z.pos p * 2 ^ Z.pos k.
Proof.
  intros k. induction k as [|k IH] using Pos.peano_ind.
  - simpl. lia.
  - rewrite Pos.iter_succ, Pos2Z.inj_xO, IH, Pos2Z.inj_succ, Z.pow_succ_r by lia.
    lia.
Qed.

(** An integer below 2^53 converts to a float without rounding. *)
Lemma float_of_Z_exact n :
  0 < n < 2 ^ 53 →
  ∃ m e, float_of_Z n = S754_finite false (Z.to_pos m) e
         ∧ 2 ^ 52 ≤ m < 2 ^ 53 ∧ -52 ≤ e ≤ 0
         ∧ m = n * 2 ^ (- e) ∧ e = Zdigits2 n - 53.
Proof.
  intros [Hpos Hlt]. destruct n as [|p|p]; try lia.
  pose proof (Zdigits2_bounds p) as [Hlo Hhi].
  set (d := Zdigits2 (Z.pos p)) in *.
  assert (1 ≤ d) as Hd1 by (unfold d; simpl; lia).
  assert (d ≤ 53) as Hd53.
  { assert (d - 1 < 53); [|lia]. apply (Z.pow_lt_mono_r_iff 2); lia. }
  exists (Z.pos p * 2 ^ (53 - d)), (d - 53).
  assert (2 ^ 52 ≤ Z.pos p * 2 ^ (53 - d) < 2 ^ 53) as Hm.
  { assert (0 < 2 ^ (53 - d)) by (apply Z.pow_pos_nonneg; lia).
    replace (2 ^ 52) with (2 ^ (d - 1) * 2 ^ (53 - d))
      by (rewrite <- Z.pow_add_r by lia; f_equal; lia).
    replace (2 ^ 53) with (2 ^ d * 2 ^ (53 - d))
      by (rewrite <- Z.pow_add_r by lia; f_equal; lia).
    split; [apply Z.mul_le_mono_nonneg_r; lia
           |apply Z.mul_lt_mono_pos_r; lia]. }
  split_and!; [|lia|lia|lia|lia|do 2 f_equal; lia|done].
  unfold float_of_Z, binary_normalize, binary_round.
  change (Z.pos (digits2_pos p)) with d.
  assert (fexp 53 1024 (d + 0) = d - 53) as -> by (unfold fexp, emin; lia).
  assert (∃ mz, shl_align p 0 (d - 53) = (mz, d - 53)
                ∧ Z.pos mz = Z.pos p * 2 ^ (53 - d)) as (mz & -> & Hmz).
  { unfold shl_align. rewrite Z.sub_0_r.
    destruct (d - 53) as [|k|k] eqn:Ek; try lia.
    - exists p. split; [done|]. replace (53 - d) with 0 by lia. lia.
    - eexists. split; [reflexivity|]. rewrite pos_iter_xO.
      do 2 f_equal. lia. }
  assert (Zdigits2 (Z.pos mz) = 53) as Hdz.
  { apply Zdigits2_unique; [|lia]. rewrite Hmz. simpl (53 - 1). lia. }
  destruct (binary_round_aux_normal false (Z.pos mz) (d - 53) loc_Exact)
    as (mr & _ & Hmr & Hexact & _ & ->); rewrite ?Hdz; try lia.
  rewrite Hdz in Hexact. simpl (53 - 53) in Hexact.
  rewrite Z.pow_0_r, Z.mod_1_r, Z.div_1_r in Hexact.
  rewrite (Hexact eq_refl eq_refl).
  rewrite decide_False by lia. rewrite Hmz. f_equal. lia.
Qed.

Lemma Zdigits2_mono a b : 0 < a ≤ b → Zdigits2 a ≤ Zdigits2 b.
Proof.
  intros [Ha Hab]. destruct a as [|pa|pa], b as [|pb|pb]; try lia.
  pose proof (Zdigits2_bounds pa) as [Hlo _].
  pose proof (Zdigits2_bounds pb) as [_ Hhi].
  assert (0 < Zdigits2 (Z.pos pb)) by (simpl; lia).
  assert (Zdigits2 (Z.pos pa) - 1 < Zdigits2 (Z.pos pb)); [|lia].
  apply (Z.pow_lt_mono_r_iff 2); lia.
Qed.

(** The quotient of two normal floats, the first not above the second, is
    a normal float not above one. *)
Lemma SFdiv_le_one mc ec mt et :
  2 ^ 52 ≤ mc < 2 ^ 53 → 2 ^ 52 ≤ mt < 2 ^ 53 →
  -52 ≤ ec ≤ 0 → -52 ≤ et ≤ 0 →
  ec < et ∨ (ec = et ∧ mc ≤ mt) →
  ∃ m e,
    SFdiv 53 1024 (S754_finite false (Z.to_pos mc) ec)
      (S754_finite false (Z.to_pos mt) et)
    = S754_finite false (Z.to_pos m) e
    ∧ 2 ^ 52 ≤ m < 2 ^ 53 ∧ -107 ≤ e
    ∧ (e ≤ -53 ∨ (m = 2 ^ 52 ∧ e = -52))
    ∧ (ec = et → mc = mt → m = 2 ^ 52 ∧ e = -52)
    ∧ (∀ c t, mc = c * 2 ^ (- ec) → mt = t * 2 ^ (- et) → c < t → e ≤ -53).
Proof.
  intros Hmc Hmt Hec Het Hle.
  unfold SFdiv, SFdiv_core_binary.
  rewrite !Z2Pos.id by lia.
  rewrite (Zdigits2_unique mc 53), (Zdigits2_unique mt 53)
    by (simpl (53 - 1); lia).
  assert (Z.min (fexp 53 1024 (53 + ec - (53 + et))) (ec - et) = ec - et - 53)
    as -> by (unfold fexp, emin; lia).
  replace (ec - et - (ec - et - 53)) with 53 by lia.
  rewrite Z.shiftl_mul_pow2 by lia.
  destruct (Z.div_eucl (mc * 2 ^ 53) mt) as [q r] eqn:E.
  assert (q = mc * 2 ^ 53 / mt) as Hq by (unfold Z.div; by rewrite E).
  assert (2 ^ 52 ≤ q) as Hqlo.
  { rewrite Hq. apply Z.div_le_lower_bound; lia. }
  assert (q < 2 ^ 54) as Hqhi.
  { rewrite Hq. apply Z.div_lt_upper_bound; lia. }
  assert (ec = et → q ≤ 2 ^ 53) as Hqone.
  { intros ->. destruct Hle as [?|[_ Hle]]; [lia|].
    rewrite Hq. apply Z.div_le_upper_bound; [lia|]. nia. }
  assert (mc = mt → q = 2 ^ 53) as Hqsame.
  { intros ->. rewrite Hq, Z.mul_comm, Z.div_mul; lia. }
  assert (∀ c t, mc = c * 2 ^ (- ec) → mt = t * 2 ^ (- et) → c < t →
            (ec = et → q ≤ 2 ^ 53 - 2)
            ∧ (ec = et - 1 → q ≤ 2 ^ 54 - 3)) as Hstrict.
  { intros c t Hc Ht Hct.
    assert (0 < 2 ^ (- et)) as Hpt by (apply Z.pow_pos_nonneg; lia).
    split; intros Heq.
    - assert (mc + 1 ≤ mt) as Hlt.
      { rewrite Hc, Ht, Heq. nia. }
      assert (q < 2 ^ 53 - 1); [|lia].
      rewrite Hq. apply Z.div_lt_upper_bound; [lia|]. nia.
    - assert (mc + 2 ≤ 2 * mt) as Hlt.
      { rewrite Hc, Ht, Heq.
        replace (- (et - 1)) with (Z.succ (- et)) by lia.
        rewrite Z.pow_succ_r by lia. nia. }
      assert (q < 2 ^ 54 - 2); [|lia].
      rewrite Hq. apply Z.div_lt_upper_bound; [lia|]. nia. }
  cbn [xorb].
  destruct (Z_lt_le_dec q (2 ^ 53)) as [Hsmall|Hbig].
  - assert (Zdigits2 q = 53) as Hdq
      by (apply Zdigits2_unique; [simpl (53 - 1)|]; lia).
    destruct (binary_round_aux_normal false q (ec - et - 53)
                (new_location mt r))
      as (mr & Hmr1 & Hmr & _ & _ & ->); rewrite ?Hdq; try lia.
    rewrite Hdq in Hmr1. change (53 - 53) with 0 in *.
    rewrite Z.pow_0_r, Z.div_1_r in Hmr1.
    destruct (decide (mr = 2 ^ 53)) as [Heq|Hne].
    + exists (2 ^ 52), (ec - et - 53 + 53 - 52).
      split_and!; [done|lia..| |].
      * intros _ Hsame. specialize (Hqsame Hsame). lia.
      * intros c t Hc Ht Hct. destruct (Hstrict c t Hc Ht Hct) as [H1 _].
        destruct (Z.eq_dec ec et) as [Heq'|]; [specialize (H1 Heq')|]; lia.
    + exists mr, (ec - et - 53 + 53 - 53). split_and!; [done|lia..| |].
      * intros _ Hsame. specialize (Hqsame Hsame). lia.
      * intros; lia.
  - assert (Zdigits2 q = 54) as Hdq
      by (apply Zdigits2_unique; [simpl (54 - 1)|]; lia).
    destruct (binary_round_aux_normal false q (ec - et - 53)
                (new_location mt r))
      as (mr & Hmr1 & Hmr & _ & Hbit & ->); rewrite ?Hdq; try lia.
    rewrite Hdq in Hmr1, Hbit. change (54 - 53) with 1 in *.
    change (54 - 54) with 0 in *.
    assert (ec = et → mr = 2 ^ 52) as Hsame.
    { intros Heq. assert (q = 2 ^ 53) as Hq53 by (specialize (Hqone Heq); lia).
      rewrite Hbit; [|lia|by rewrite Hq53]. by rewrite Hq53. }
    assert (q / 2 ^ 1 = q / 2) as Hhalf by done.
    destruct (decide (mr = 2 ^ 53)) as [Heq|Hne].
    + exists (2 ^ 52), (ec - et - 53 + 54 - 52). split_and!; [done|lia..| | |].
      * destruct (Z.eq_dec ec et) as [Heq'|Hneq]; [|lia].
        specialize (Hsame Heq'). lia.
      * intros Heq'. specialize (Hsame Heq'). lia.
      * intros c t Hc Ht Hct. destruct (Hstrict c t Hc Ht Hct) as [H1 H2].
        destruct (Z.eq_dec ec et) as [Heq'|];
          [specialize (Hsame Heq'); lia|].
        destruct (Z.eq_dec ec (et - 1)) as [Heq'|]; [|lia].
        specialize (H2 Heq').
        assert (q / 2 < 2 ^ 53 - 1); [|lia].
        apply Z.div_lt_upper_bound; lia.
    + exists mr, (ec - et - 53 + 54 - 53). split_and!; [done|lia|lia|lia| | |].
      * destruct (Z.eq_dec ec et) as [Heq|Hneq]; [|lia].
        right. split; [by apply Hsame|lia].
      * intros Heq _. split; [by apply Hsame|lia].
      * intros c t Hc Ht Hct. destruct (Hstrict c t Hc Ht Hct) as [H1 _].
        destruct (Z.eq_dec ec et) as [Heq'|]; [specialize (H1 Heq')|]; lia.
Qed.

(** A normal float not above one, times one hundred, is a normal float
    not above one hundred. *)
Lemma SFmul_hundred_le m e :
  2 ^ 52 ≤ m < 2 ^ 53 → -107 ≤ e →
  e ≤ -53 ∨ (m = 2 ^ 52 ∧ e = -52) →
  ∃ m' e',
    SFmul 53 1024 (S754_finite false (Z.to_pos m) e) (float_of_Z 100)
    = S754_finite false (Z.to_pos m') e'
    ∧ 2 ^ 52 ≤ m' < 2 ^ 53
    ∧ (e' < -46 ∨ (e' = -46 ∧ m' ≤ 7036874417766400))
    ∧ (m = 2 ^ 52 → e = -52 → m' = 7036874417766400 ∧ e' = -46)
    ∧ (e ≤ -53 → e' < -46 ∨ (e' = -46 ∧ m' < 7036874417766400)).
Proof.
  intros Hm He Hone.
  change (float_of_Z 100) with (S754_finite false 7036874417766400 (-46)).
  cbn [SFmul xorb]. rewrite Pos2Z.inj_mul, Z2Pos.id by lia.
  set (P := m * 7036874417766400).
  assert (2 ^ 104 ≤ P < 2 ^ 106) as HP by (unfold P; lia).
  destruct (Z_lt_le_dec P (2 ^ 105)) as [Hsmall|Hbig].
  - assert (Zdigits2 P = 105) as HdP
      by (apply Zdigits2_unique; [simpl (105 - 1)|]; lia).
    destruct (binary_round_aux_normal false P (e + -46) loc_Exact)
      as (mr & Hmr1 & Hmr & Hexact & _ & ->); rewrite ?HdP; try lia.
    rewrite HdP in Hmr1, Hexact. change (105 - 53) with 52 in *.
    assert (m = 2 ^ 52 → mr = 7036874417766400) as Hunit.
    { intros Heq. rewrite Hexact; [|done|]; unfold P; rewrite Heq; done. }
    destruct (decide (mr = 2 ^ 53)) as [Heq|Hne].
    + exists (2 ^ 52), (e + -46 + 105 - 52). split_and!; [done|lia|lia| | |].
      * destruct Hone as [Hone|[Hone ->]]; [lia|]. specialize (Hunit Hone). lia.
      * intros Hm52 _. specialize (Hunit Hm52). lia.
      * intros He'. lia.
    + exists mr, (e + -46 + 105 - 53). split_and!; [done|lia|lia| | |].
      * destruct Hone as [Hone|[Hone ->]]; [lia|]. specialize (Hunit Hone). lia.
      * intros Hm52 ->. specialize (Hunit Hm52). lia.
      * intros He'. lia.
  - assert (Zdigits2 P = 106) as HdP
      by (apply Zdigits2_unique; [simpl (106 - 1)|]; lia).
    assert (e ≤ -53) as He' by (unfold P in *; lia).
    destruct (binary_round_aux_normal false P (e + -46) loc_Exact)
      as (mr & Hmr1 & Hmr & _ & Hbit & ->); rewrite ?HdP; try lia.
    rewrite HdP in Hmr1, Hbit. change (106 - 53) with 53 in *.
    change (106 - 54) with 52 in *.
    assert (P / 2 ^ 53 < 7036874417766400) as Hcut.
    { apply Z.div_lt_upper_bound; [lia|]. unfold P. lia. }
    assert (mr < 7036874417766400) as Hbelow.
    { destruct (Z.eq_dec m (2 ^ 53 - 1)) as [Hmax|Hnmax].
      - rewrite Hbit; [done|lia|]. unfold P. rewrite Hmax. done.
      - assert (P / 2 ^ 53 < 7036874417766400 - 1); [|lia].
        apply Z.div_lt_upper_bound; [lia|]. unfold P. lia. }
    rewrite decide_False by lia.
    exists mr, (e + -46 + 106 - 53). split_and!; [done|lia|lia|lia|lia|lia].
Qed.

(** The percentage of [c] out of [t], as the doubles compute it, lies
    between 0 and 100. *)
Lemma percentage_bounds (c t : nat) :
  (0 < t)%nat → (c ≤ t)%nat → Z.of_nat t < 2 ^ 53 →
  SFleb (S754_zero false) (percentage c t) = true
  ∧ SFleb (percentage c t) (float_of_Z 100) = true.
Proof.
  intros Ht Hct Hsmall. unfold percentage.
  destruct (float_of_Z_exact (Z.of_nat t)) as (mt & et & -> & Hmt & Het & Hvt & Hdt);
    [lia|].
  destruct c as [|c].
  { change (float_of_Z (Z.of_nat 0)) with (S754_zero false).
    cbn [SFdiv SFmul xorb].
    change (float_of_Z 100) with (S754_finite false 7036874417766400 (-46)).
    done. }
  destruct (float_of_Z_exact (Z.of_nat (S c)))
    as (mc & ec & -> & Hmc & Hec & Hvc & Hdc); [lia|].
  assert (ec ≤ et) as Hle.
  { rewrite Hdc, Hdt.
    pose proof (Zdigits2_mono (Z.of_nat (S c)) (Z.of_nat t)). lia. }
  destruct (SFdiv_le_one mc ec mt et Hmc Hmt Hec Het)
    as (m & e & -> & Hm & He & Hone & _).
  { destruct (Z.eq_dec ec et) as [Heq|]; [right|left; lia].
    split; [done|]. rewrite Hvc, Hvt, Heq.
    apply Z.mul_le_mono_nonneg_r; [|lia]. apply Z.pow_nonneg. lia. }
  destruct (SFmul_hundred_le m e Hm He Hone)
    as (m' & e' & -> & Hm' & Hhund & _).
  change (float_of_Z 100) with (S754_finite false 7036874417766400 (-46)).
  split; [done|]. unfold SFleb, SFcompare.
  destruct Hhund as [Hlt|[-> Hle']].
  - by rewrite (proj2 (Z.compare_lt_iff e' (-46)) Hlt).
  - rewrite Z.compare_refl, Pos.compare_cont_spec. cbn [Pos.switch_Eq].
    destruct (Pos.compare_spec (Z.to_pos m') 7036874417766400) as [?|?|Hgt];
      [done|done|]. exfalso.
    apply Pos2Z.pos_lt_pos in Hgt. rewrite Z2Pos.id in Hgt by lia. lia.
Qed.

End float64.

(** The percentage is 100.0 exactly when the two counts are equal, and 0.0
    exactly when the first is 0. *)
Lemma percentage_extremes (c t : nat) :
  0 < t → c ≤ t → (Z.of_nat t < 2 ^ 53)%Z →
  (percentage c t = float_of_Z 100 ↔ c = t)
  ∧ (percentage c t = S754_zero false ↔ c = 0).
Proof.
  intros Ht Hct Hsmall. unfold percentage.
  destruct (float_of_Z_exact (Z.of_nat t))
    as (mt & et & Eqt & Hmt & Het & Hvt & Hdt); [lia|].
  destruct c as [|c].
  { change (float_of_Z (Z.of_nat 0)) with (S754_zero false). rewrite Eqt.
    cbn [SFdiv SFmul xorb].
    change (float_of_Z 100) with (S754_finite false 7036874417766400 (-46)).
    split; split; try done; lia. }
  destruct (float_of_Z_exact (Z.of_nat (S c)))
    as (mc & ec & Eqc & Hmc & Hec & Hvc & Hdc); [lia|].
  assert (ec ≤ et)%Z as Hle.
  { rewrite Hdc, Hdt.
    pose proof (Zdigits2_mono (Z.of_nat (S c)) (Z.of_nat t)). lia. }
  rewrite Eqc, Eqt.
  destruct (SFdiv_le_one mc ec mt et Hmc Hmt Hec Het)
    as (m & e & -> & Hm & He & Hone & Hsame & Hstrict).
  { destruct (Z.eq_dec ec et) as [Heq|]; [right|left; lia].
    split; [done|]. rewrite Hvc, Hvt, Heq.
    apply Z.mul_le_mono_nonneg_r; [|lia]. apply Z.pow_nonneg. lia. }
  destruct (SFmul_hundred_le m e Hm He Hone)
    as (m2 & e2 & -> & Hm2 & Hhund & Hfull & Hbelow).
  change (float_of_Z 100) with (S754_finite false 7036874417766400 (-46)).
  split; [|split; [done|lia]]. split.
  - intros Heq. destruct (decide (S c = t)) as [|Hne]; [done|]. exfalso.
    assert (e ≤ -53)%Z as He53
      by (apply (Hstrict (Z.of_nat (S c)) (Z.of_nat t)); [done|done|lia]).
    injection Heq as Hmeq Heeq.
    assert (m2 = 7036874417766400)%Z as Hm2eq
      by (rewrite <- (Z2Pos.id m2) by lia; by rewrite Hmeq).
    destruct (Hbelow He53) as [?|[_ ?]]; lia.
  - intros Heq. assert (Z.of_nat (S c) = Z.of_nat t) as Heqz by lia.
    assert (ec = et) as Hee by (rewrite Hdc, Hdt, Heqz; done).
    assert (mc = mt) as Hmm by (rewrite Hvc, Hvt, Hee, Heqz; done).
    destruct (Hsame Hee Hmm) as [Hm52 He52].
    destruct (Hfull Hm52 He52) as [-> ->]. done.
Qed.

(** ** Progress *)

(** [get_progress] on a persisted queue: the division is only reached with
    a positive total, so a result is always returned. *)
Lemma get_progress_persisted st q :
  Orchestrator.read_queue st = Some q →
  ∃ p,
    Orchestrator.get_progress st
    = inr (Orchestrator.mkProgress
             (size (Orchestrator.tasks q))
             (Orchestrator.count_status (Orchestrator.tasks q) "completed")
             (Orchestrator.count_status (Orchestrator.tasks q) "running")
             (Orchestrator.count_status (Orchestrator.tasks q) "pending")
             (Orchestrator.count_status (Orchestrator.tasks q) "failed")
             (Some p))
    ∧ (size (Orchestrator.tasks q) = 0 → p = py_int 0)
    ∧ (0 < size (Orchestrator.tasks q) →
         p = py_float
               (percentage
                  (Orchestrator.count_status (Orchestrator.tasks q) "completed")
                  (size (Orchestrator.tasks q)))).
Proof.
  intros Hq. unfold Orchestrator.get_progress, Orchestrator.true_div.
  rewrite Hq. destruct (size (Orchestrator.tasks q)) as [|t] eqn:Hsz.
  - exists (py_int 0). split_and!; [done|done|lia].
  - cbn [Nat.ltb Nat.leb]. rewrite decide_False by lia.
    eexists. split_and!; [reflexivity|lia|done].
Qed.

(** ** [aggregate_results] *)

Lemma task_result_raises st t e :
  Orchestrator.task_result st t = inl e
  ↔ ∃ path, Orchestrator.status t = "completed"
            ∧ Orchestrator.result_file t = Some path ∧ path ≠ ""
            ∧ Orchestrator.result_files st !! path
              = Some (Orchestrator.unloadable e).
Proof.
  unfold Orchestrator.task_result, Orchestrator.load_result. split.
  - case_bool_decide as Hs; [|done].
    destruct (Orchestrator.result_file t) as [path|]; [|done].
    case_bool_decide as Hp; [done|].
    destruct (Orchestrator.result_files st !! path) as [[v|e']|] eqn:E;
      [done| |done].
    intros [= ->]. by exists path.
  - intros (path & Hs & -> & Hp & ->).
    by rewrite bool_decide_eq_true_2, bool_decide_eq_false_2 by done.
Qed.

Lemma task_result_document st t v :
  Orchestrator.task_result st t = inr (Some v)
  ↔ ∃ path, Orchestrator.status t = "completed"
            ∧ Orchestrator.result_file t = Some path ∧ path ≠ ""
            ∧ Orchestrator.result_files st !! path
              = Some (Orchestrator.document v).
Proof.
  unfold Orchestrator.task_result, Orchestrator.load_result. split.
  - case_bool_decide as Hs; [|done].
    destruct (Orchestrator.result_file t) as [path|]; [|done].
    case_bool_decide as Hp; [done|].
    destruct (Orchestrator.result_files st !! path) as [[v'|e']|] eqn:E;
      [|done|done].
    intros [= ->]. by exists path.
  - intros (path & Hs & -> & Hp & ->).
    by rewrite bool_decide_eq_true_2, bool_decide_eq_false_2 by done.
Qed.

Lemma collect_results_spec st (l : list (string * Orchestrator.SubTask)) :
  match Orchestrator.collect_results st l with
  | inr rs =>
      (∀ tid t, (tid, t) ∈ l → ∀ e, Orchestrator.task_result st t ≠ inl e)
      ∧ ∀ tid v,
          (tid, v) ∈ rs
          ↔ ∃ t, (tid, t) ∈ l ∧ Orchestrator.task_result st t = inr (Some v)
  | inl e => ∃ tid t, (tid, t) ∈ l ∧ Orchestrator.task_result st t = inl e
  end.
Proof.
  induction l as [|[tid0 t0] l IH]; cbn [Orchestrator.collect_results].
  { split; [by intros ?? ?%elem_of_nil|].
    intros tid v. split; [by intros ?%elem_of_nil|].
    by intros (? & ?%elem_of_nil & _). }
  destruct (Orchestrator.task_result st t0) as [e|o] eqn:E0.
  { exists tid0, t0. split; [left|done]. }
  destruct (Orchestrator.collect_results st l) as [e|rs].
  { destruct IH as (tid & t & ? & ?). exists tid, t. split; [by right|done]. }
  destruct IH as [IHok IHin]. split.
  - intros tid t [[= -> ->]|Hin]%elem_of_cons e; [by rewrite E0|].
    by eapply IHok.
  - intros tid v. destruct o as [v0|].
    + rewrite elem_of_cons, IHin. split.
      * intros [[= -> ->]|(t & ? & ?)]; [exists t0|exists t];
          (split; [by constructor|done]).
      * intros (t & [[= -> ->]|Hin]%elem_of_cons & Ht).
        -- left. rewrite E0 in Ht. by simplify_eq.
        -- right. by exists t.
    + rewrite IHin. split.
      * intros (t & ? & ?). exists t. split; [by right|done].
      * intros (t & [[= -> ->]|Hin]%elem_of_cons & Ht);
          [by rewrite E0 in Ht|]. by exists t.
Qed.

Lemma summary_line_spec str tid v :
  match Orchestrator.summary_line str tid v with
  | inr _ => summarisable v
  | inl e => e = AttributeError ∧ ¬ summarisable v
  end.
Proof.
  unfold Orchestrator.summary_line, summarisable.
  destruct v as [|?|?|?|?|?|result]; try (split; [done|tauto]).
  destruct (result !! "output") as [[|?|?|?|?|?|output]|]; cbn [default];
    try done; (split; [done|tauto]).
Qed.

Lemma summary_parts_spec str (rs : list (string * json)) :
  match Orchestrator.summary_parts str rs with
  | inr _ => ∀ tid v, (tid, v) ∈ rs → summarisable v
  | inl e => e = AttributeError ∧ ∃ tid v, (tid, v) ∈ rs ∧ ¬ summarisable v
  end.
Proof.
  induction rs as [|[tid0 v0] rs IH]; cbn [Orchestrator.summary_parts].
  { by intros ?? ?%elem_of_nil. }
  pose proof (summary_line_spec str tid0 v0) as Hline.
  destruct (Orchestrator.summary_line str tid0 v0) as [e|line].
  { destruct Hline as [-> Hline]. split; [done|].
    exists tid0, v0. split; [left|done]. }
  destruct (Orchestrator.summary_parts str rs) as [e|lines].
  { destruct IH as [-> (tid & v & ? & ?)]. split; [done|].
    exists tid, v. split; [by right|done]. }
  intros tid v [[= -> ->]|Hin]%elem_of_cons; [done|]. by eapply IH.
Qed.

Lemma _generate_summary_spec str (rs : list (string * json)) :
  match Orchestrator._generate_summary str rs with
  | inr _ => ∀ tid v, (tid, v) ∈ rs → summarisable v
  | inl e => e = AttributeError ∧ ∃ tid v, (tid, v) ∈ rs ∧ ¬ summarisable v
  end.
Proof.
  unfold Orchestrator._generate_summary.
  destruct rs as [|r rs]; [by intros ?? ?%elem_of_nil|].
  pose proof (summary_parts_spec str (r :: rs)) as Hparts.
  by destruct (Orchestrator.summary_parts str (r :: rs)).
Qed.

(** [aggregate_results] returns exactly when every result file a completed
    task names is missing or holds a document the summary can read; it
    raises on a path that cannot be loaded, and on a document that is not
    shaped like a result. *)
Lemma aggregate_results_returns str st q :
  Orchestrator.read_queue st = Some q →
  (∃ agg, Orchestrator.aggregate_results str st = inr agg)
  ↔ results_loadable st q.
Proof.
  intros Hq. destruct (get_progress_persisted st q Hq) as (p & Hp & _).
  unfold Orchestrator.aggregate_results. rewrite Hq.
  pose proof (collect_results_spec st (map_to_list (Orchestrator.tasks q)))
    as Hcollect.
  destruct (Orchestrator.collect_results st
              (map_to_list (Orchestrator.tasks q))) as [e|rs].
  { split; [by intros [? ?]|]. intros Hload. exfalso.
    destruct Hcollect as (tid & t & Hin%elem_of_map_to_list & Hraise).
    apply task_result_raises in Hraise as (path & Hs & Hf & Hpath & He).
    specialize (Hload tid t path Hin Hs Hf Hpath). by rewrite He in Hload. }
  destruct Hcollect as [Hok Hin]. rewrite Hp.
  pose proof (_generate_summary_spec str rs) as Hsummary.
  destruct (Orchestrator._generate_summary str rs) as [e|text].
  - split; [by intros [? ?]|]. intros Hload. exfalso.
    destruct Hsummary as [_ (tid & v & Hv & Hbad)]. apply Hbad.
    apply Hin in Hv as (t & Ht%elem_of_map_to_list & Hdoc).
    apply task_result_document in Hdoc as (path & Hs & Hf & Hpath & He).
    specialize (Hload tid t path Ht Hs Hf Hpath). by rewrite He in Hload.
  - split; [intros _|by eexists].
    intros tid t path Ht Hs Hf Hpath.
    destruct (Orchestrator.result_files st !! path) as [[v|e]|] eqn:E;
      [|exfalso|done].
    + apply (Hsummary tid v), Hin. exists t.
      split; [by apply elem_of_map_to_list|].
      apply task_result_document. by exists path.
    + apply (Hok tid t (proj2 (elem_of_map_to_list _ _ _) Ht) e).
      apply task_result_raises. by exists path.
Qed.

Lemma aggregate_status_cases str (st : Orchestrator.Store)
    (q : Orchestrator.Queue) (agg : Orchestrator.Aggregate) :
  Orchestrator.read_queue st = Some q →
  Orchestrator.aggregate_results str st = inr agg →
  let n_failed :=
    Orchestrator.count_status (Orchestrator.tasks q) "failed" in
  let n_completed :=
    Orchestrator.count_status (Orchestrator.tasks q) "completed" in
  let final := Orchestrator.aggregate_status agg in
  (n_failed = 0 → final = "success")
  ∧ (0 < n_failed → 0 < n_completed → final = "partial")
  ∧ (0 < n_failed → n_completed = 0 → final = "failed").
Proof.
  intros Hq. destruct (get_progress_persisted st q Hq) as (p & Hp & _).
  unfold Orchestrator.aggregate_results. rewrite Hq, Hp.
  destruct (Orchestrator.collect_results st _) as [e|rs]; [done|].
  destruct (Orchestrator._generate_summary str rs) as [e|text]; [done|].
  intros [= <-].
  cbn [Orchestrator.aggregate_status Orchestrator.failed Orchestrator.completed].
  destruct (Orchestrator.count_status (Orchestrator.tasks q) "failed");
    destruct (Orchestrator.count_status (Orchestrator.tasks q) "completed");
    simpl; split_and!; intros; try lia; done.
Qed.

(** C8.  On a persisted queue, whenever [aggregate_results] returns it
    reports success when no task is failed, partial when some task is
    failed and some task is completed, and failed when some task is failed
    and none is completed; the counts are those of the tasks whose status
    is "failed" and "completed".  It returns exactly when every result file
    a completed task names is missing or holds a document its summary can
    read; otherwise [open], [json.load] or [_generate_summary] raises and
    no status is derived. *)
Theorem C8_final_status (str : json → string) (st : Orchestrator.Store)
    (q : Orchestrator.Queue) :
  Orchestrator.read_queue st = Some q →
  (∀ agg, Orchestrator.aggregate_results str st = inr agg →
     let n_failed :=
       Orchestrator.count_status (Orchestrator.tasks q) "failed" in
     let n_completed :=
       Orchestrator.count_status (Orchestrator.tasks q) "completed" in
     let final := Orchestrator.aggregate_status agg in
     (n_failed = 0 → final = "success")
     ∧ (0 < n_failed → 0 < n_completed → final = "partial")
     ∧ (0 < n_failed → n_completed = 0 → final = "failed"))
  ∧ ((∃ agg, Orchestrator.aggregate_results str st = inr agg)
     ↔ results_loadable st q).
Proof.
  intros Hq. split.
  - intros agg Hagg. by apply (aggregate_status_cases str st q agg).
  - by apply aggregate_results_returns.
Qed.

Lemma C8_final_status_witness :
  final_status_of
    (Orchestrator.aggregate_results (λ _, "") Samples.done_store)
  = Some "success"
  ∧ final_status_of
      (Orchestrator.aggregate_results (λ _, "") Samples.partial_store)
    = Some "partial"
  ∧ final_status_of
      (Orchestrator.aggregate_results (λ _, "") Samples.failed_only_store)
    = Some "failed".
Proof.
  assert (∀ tasks,
            results_loadable (Samples.store_of tasks)
              (Orchestrator.create_queue "2024-01-01T00:00:00" "main_0" tasks
                 (Orchestrator.build_dag tasks) Samples.empty_store).1)
    as Hload by (by intros tasks tid t path _ _ _ _).
  split_and!.
  - destruct (C8_final_status (λ _, "") Samples.done_store _ eq_refl)
      as [Htable Hreturns].
    destruct (proj2 Hreturns (Hload _)) as [agg Hagg].
    destruct (Htable agg Hagg) as (Hs & _ & _).
    rewrite Hagg. simpl. f_equal. apply Hs. vm_compute. reflexivity.
  - destruct (C8_final_status (λ _, "") Samples.partial_store _ eq_refl)
      as [Htable Hreturns].
    destruct (proj2 Hreturns (Hload _)) as [agg Hagg].
    destruct (Htable agg Hagg) as (_ & Hp & _).
    rewrite Hagg. simpl. f_equal. apply Hp; vm_compute; lia.
  - destruct (C8_final_status (λ _, "") Samples.failed_only_store _ eq_refl)
      as [Htable Hreturns].
    destruct (proj2 Hreturns (Hload _)) as [agg Hagg].
    destruct (Htable agg Hagg) as (_ & _ & Hf).
    rewrite Hagg. simpl. f_equal.
    apply Hf; [vm_compute; lia|vm_compute; reflexivity].
Defined.

(** C9 (amended).  [get_progress] always returns: the division is guarded,
    and no queue state makes it divide by zero.  On a queue file that
    holds a queue the dict has a percentage: the int 0 when the queue holds
    no task, and otherwise the double [completed / total * 100], which
    lies between 0.0 and 100.0 (the counts being below 2^53, so that their
    conversion to doubles is exact).  On a missing or empty queue file the
    early return gives the five counters, all 0, and no percentage. *)
Theorem C9_progress_percent (st : Orchestrator.Store) :
  ∃ pr,
    Orchestrator.get_progress st = inr pr
    ∧ Orchestrator.completed pr ≤ Orchestrator.total pr
    ∧ (∀ q, Orchestrator.read_queue st = Some q →
         Orchestrator.total pr = size (Orchestrator.tasks q)
         ∧ Orchestrator.completed pr
           = Orchestrator.count_status (Orchestrator.tasks q) "completed"
         ∧ (Orchestrator.total pr = 0 →
              Orchestrator.progress_percent pr = Some (py_int 0))
         ∧ (0 < Orchestrator.total pr →
              ∃ p, Orchestrator.progress_percent pr = Some (py_float p)
                   ∧ p = SFmul 53 1024
                           (SFdiv 53 1024
                              (float_of_Z (Z.of_nat (Orchestrator.completed pr)))
                              (float_of_Z (Z.of_nat (Orchestrator.total pr))))
                           (float_of_Z 100)
                   ∧ ((Z.of_nat (Orchestrator.total pr) < 2 ^ 53)%Z →
                      SFleb (S754_zero false) p = true
                      ∧ SFleb p (float_of_Z 100) = true)))
    ∧ (Orchestrator.read_queue st = None →
         pr = Orchestrator.mkProgress 0 0 0 0 0 None).
Proof.
  destruct (Orchestrator.read_queue st) as [q|] eqn:Hq.
  - destruct (get_progress_persisted st q Hq) as (p & Hp & Hzero & Hpos).
    eexists. split; [exact Hp|].
    cbn [Orchestrator.completed Orchestrator.total Orchestrator.progress_percent].
    pose proof (count_status_le (Orchestrator.tasks q) "completed") as Hle.
    split_and!; [done| |done].
    intros q' [= <-]. split_and!; [done|done| |].
    + intros Hsz. by rewrite (Hzero Hsz).
    + intros Hsz. rewrite (Hpos Hsz). eexists. split_and!; [done|done|].
      intros Hsmall. by apply percentage_bounds.
  - exists (Orchestrator.mkProgress 0 0 0 0 0 None).
    unfold Orchestrator.get_progress. rewrite Hq. split_and!; try done.
Qed.

Lemma C9_progress_percent_witness :
  Orchestrator.get_progress Samples.no_task_store
  = inr (Orchestrator.mkProgress 0 0 0 0 0 (Some (py_int 0)))
  ∧ ∃ pr p, Orchestrator.get_progress Samples.partial_store = inr pr
            ∧ Orchestrator.progress_percent pr = Some (py_float p)
            ∧ SFleb (S754_zero false) p = true
            ∧ SFleb p (float_of_Z 100) = true.
Proof.
  split.
  - destruct (C9_progress_percent Samples.no_task_store)
      as (pr & Hpr & _ & Hsome & _).
    destruct (Hsome _ eq_refl) as (Htotal & Hcompleted & Hzero & _).
    rewrite Hpr. f_equal. destruct pr as [t c r pe f pp].
    cbn in Htotal, Hcompleted, Hzero. vm_compute in Hpr.
    injection Hpr as <- <- <- <- <- <-. done.
  - destruct (C9_progress_percent Samples.partial_store)
      as (pr & Hpr & _ & Hsome & _).
    destruct (Hsome _ eq_refl) as (Htotal & _ & _ & Hpos).
    destruct Hpos as (p & Hp & _ & Hbounds);
      [rewrite Htotal; vm_compute; lia|].
    exists pr, p. split_and!; [done|done|..]; apply Hbounds;
      rewrite Htotal; by vm_compute.
Defined.

(** C9, as stated, fails on a missing queue file: the percentage is not 0
    there, [get_progress] returns the five counters and no percentage at
    all. *)
Lemma C9_counterexample :
  Orchestrator.read_queue Samples.empty_store = None
  ∧ ∃ pr, Orchestrator.get_progress Samples.empty_store = inr pr
          ∧ Orchestrator.progress_percent pr = None.
Proof. split; [done|]. by eexists. Qed.

(** C10.  [update_task_status] on an id that is not a key of the task map,
    or on a missing queue, leaves the store as it is.  On an id that is a
    key, it replaces that task by the task with the new status and the
    keyword fields, and leaves every other task, the dag, the execution
    order, the main task id, the other keys of the queue and the result
    files as they are. *)
Theorem C10_update_task_status_frame
    (st : Orchestrator.Store) (task_id status : string)
    (kwargs : list Orchestrator.kwarg) :
  let st' := Orchestrator.update_task_status task_id status kwargs st in
  (Orchestrator.read_queue st = None → st' = st)
  ∧ (∀ q, Orchestrator.read_queue st = Some q →
          Orchestrator.tasks q !! task_id = None → st' = st)
  ∧ (∀ q task, Orchestrator.read_queue st = Some q →
       Orchestrator.tasks q !! task_id = Some task →
       ∃ q' task',
         Orchestrator.read_queue st' = Some q'
         ∧ Orchestrator.tasks q' !! task_id = Some task'
         ∧ task' = Orchestrator.update_fields
                     (Orchestrator.set_status status task) kwargs
         ∧ Orchestrator.status task' = status
         ∧ (kwargs = [] → task' = Orchestrator.set_status status task)
         ∧ (∀ other, other ≠ task_id →
              Orchestrator.tasks q' !! other = Orchestrator.tasks q !! other)
         ∧ Orchestrator.dag q' = Orchestrator.dag q
         ∧ Orchestrator.execution_order q' = Orchestrator.execution_order q
         ∧ Orchestrator.main_task_id q' = Orchestrator.main_task_id q
         ∧ Orchestrator.version q' = Orchestrator.version q
         ∧ Orchestrator.queue_created_at q' = Orchestrator.queue_created_at q
         ∧ Orchestrator.result_files st' = Orchestrator.result_files st).
Proof.
  cbv zeta. unfold Orchestrator.update_task_status. split_and!.
  - by intros ->.
  - by intros q -> ->.
  - intros q task -> ->. eexists _, _. split; [reflexivity|].
    cbn [Orchestrator.tasks Orchestrator.dag Orchestrator.execution_order
         Orchestrator.main_task_id Orchestrator.version
         Orchestrator.queue_created_at Orchestrator.result_files].
    split_and!; try done.
    + by rewrite lookup_insert_eq.
    + by rewrite update_fields_status, set_status_status.
    + by intros ->.
    + intros other Hne. by rewrite lookup_insert_ne.
Qed.

Lemma C10_update_task_status_frame_witness :
  Orchestrator.update_task_status "A" "running" [] Samples.empty_store
  = Samples.empty_store
  ∧ Orchestrator.update_task_status "Z" "running" [] Samples.partial_store
    = Samples.partial_store
  ∧ ∃ q', Orchestrator.read_queue
            (Orchestrator.update_task_status "D" "running"
               [Orchestrator.kw_worker_id (Some "w1")] Samples.partial_store)
          = Some q'
          ∧ Orchestrator.status <$> Orchestrator.tasks q' !! "D" = Some "running"
          ∧ Orchestrator.status <$> Orchestrator.tasks q' !! "A" = Some "failed".
Proof.
  split_and!.
  - apply (C10_update_task_status_frame Samples.empty_store "A" "running" []).
    reflexivity.
  - destruct (C10_update_task_status_frame Samples.partial_store "Z" "running" [])
      as (_ & H & _).
    eapply H; [reflexivity|]. vm_compute. reflexivity.
  - destruct (C10_update_task_status_frame Samples.partial_store "D" "running"
                [Orchestrator.kw_worker_id (Some "w1")]) as (_ & _ & H).
    edestruct H as (q' & task' & Hq' & Ht' & _ & Hs & _ & Hother & _);
      [reflexivity|vm_compute; reflexivity|].
    exists q'. split_and!; [done| |].
    + by rewrite Ht', <- Hs.
    + rewrite Hother by done. vm_compute. reflexivity.
Defined.


(** ** [execute_parallel] *)

Lemma object_of_Some tid tasks i :
  Runner.object_of tid tasks = Some i →
  ∃ t, tasks !! i = Some t ∧ Runner.task_id t = tid.
Proof.
  revert i. induction tasks as [|a tasks IH]; intros i; simpl; [done|].
  destruct (Runner.object_of tid tasks) as [j|].
  - intros [= <-]. by apply IH.
  - destruct (decide (Runner.task_id a = tid)); [|done].
    intros [= <-]. by exists a.
Qed.

Lemma object_of_ids tid l1 : ∀ l2,
  Runner.task_id <$> l1 = Runner.task_id <$> l2 →
  Runner.object_of tid l1 = Runner.object_of tid l2.
Proof.
  induction l1 as [|a l1 IH]; intros [|b l2] Heq; try done.
  rewrite !fmap_cons in Heq. injection Heq as Hab Heq.
  simpl. rewrite (IH l2 Heq), Hab. done.
Qed.

Lemma object_of_elem tid tasks :
  tid ∈ Runner.task_id <$> tasks → is_Some (Runner.object_of tid tasks).
Proof.
  induction tasks as [|a tasks IH]; [by intros ?%elem_of_nil|].
  rewrite fmap_cons. simpl. intros Hin.
  destruct (Runner.object_of tid tasks); [eauto|].
  destruct (decide (Runner.task_id a = tid)); [eauto|].
  apply elem_of_cons in Hin as [?|Hin]; [congruence|].
  by destruct (IH Hin).
Qed.

Lemma assign_status_ids tid v tasks :
  Runner.task_id <$> Runner.assign_status tid v tasks
  = Runner.task_id <$> tasks.
Proof.
  unfold Runner.assign_status.
  destruct (Runner.object_of tid tasks) as [i|]; [|done].
  apply list_eq. intros j. rewrite !list_lookup_fmap.
  destruct (decide (i = j)) as [->|Hne].
  - rewrite list_lookup_alter_eq. by destruct (tasks !! j).
  - by rewrite list_lookup_alter_ne.
Qed.

Lemma assign_status_lookup tid v tasks i j :
  Runner.object_of tid tasks = Some i →
  Runner.assign_status tid v tasks !! j
  = if decide (i = j) then Runner.set_status v <$> tasks !! j else tasks !! j.
Proof.
  intros Hi. unfold Runner.assign_status. rewrite Hi.
  destruct (decide (i = j)) as [->|Hne].
  - by rewrite list_lookup_alter_eq.
  - by rewrite list_lookup_alter_ne.
Qed.

Lemma complete_task_tasks run tasks all_results task :
  (Runner.complete_task run (tasks, all_results) task).1
  = Runner.assign_status (Runner.task_id task) (outcome_status (run task))
      (Runner.assign_status (Runner.task_id task) "running" tasks).
Proof. unfold Runner.complete_task. by destruct (run task). Qed.

Lemma complete_task_ids run acc task :
  Runner.task_id <$> (Runner.complete_task run acc task).1
  = Runner.task_id <$> acc.1.
Proof.
  destruct acc as [tasks all_results].
  by rewrite complete_task_tasks, !assign_status_ids.
Qed.


(** Tasks of other ids leave an object alone. *)
Lemma run_level_untouched run level i : ∀ acc,
  (∀ t, t ∈ level → Runner.object_of (Runner.task_id t) acc.1 ≠ Some i) →
  (foldl (Runner.complete_task run) acc level).1 !! i = acc.1 !! i.
Proof.
  induction level as [|a level IH]; intros [tasks all_results] Hother; [done|].
  cbn [foldl]. rewrite IH.
  - rewrite complete_task_tasks. simpl.
    assert (Runner.object_of (Runner.task_id a) tasks ≠ Some i) as Ha
      by (apply (Hother a); left).
    unfold Runner.assign_status at 1.
    rewrite (object_of_ids _ _ tasks) by apply assign_status_ids.
    destruct (Runner.object_of (Runner.task_id a) tasks) as [j|] eqn:Hj.
    + rewrite list_lookup_alter_ne by congruence.
      rewrite (assign_status_lookup _ _ _ j) by done.
      rewrite decide_False by congruence. done.
    + unfold Runner.assign_status. by rewrite Hj.
  - intros t Ht.
    rewrite (object_of_ids _ _ tasks) by apply complete_task_ids.
    apply (Hother t). by right.
Qed.

(** After the tasks of [level] have run, the object of each carries the
    status of its own outcome. *)
Lemma run_level_status run level : ∀ acc t i,
  NoDup (Runner.task_id <$> level) → t ∈ level →
  Runner.object_of (Runner.task_id t) acc.1 = Some i →
  ∃ t', (foldl (Runner.complete_task run) acc level).1 !! i = Some t'
        ∧ Runner.task_id t' = Runner.task_id t
        ∧ Runner.status t' = outcome_status (run t).
Proof.
  induction level as [|a level IH]; intros [tasks all_results] t i Hnd Ht Hi;
    [by apply elem_of_nil in Ht|].
  rewrite fmap_cons in Hnd. apply NoDup_cons in Hnd as [Ha Hnd].
  cbn [foldl]. apply elem_of_cons in Ht as [->|Ht].
  - rewrite run_level_untouched.
    + rewrite complete_task_tasks. simpl in *.
      destruct (object_of_Some _ _ _ Hi) as (o & Ho & Hid).
      rewrite (assign_status_lookup _ _ _ i i)
        by (by rewrite (object_of_ids _ _ tasks) by apply assign_status_ids).
      rewrite decide_True by done.
      rewrite (assign_status_lookup _ _ _ i i) by done.
      rewrite decide_True by done. rewrite Ho. simpl. eauto.
    + intros t' Ht' Hi'.
      rewrite (object_of_ids _ _ tasks) in Hi' by apply complete_task_ids.
      simpl in Hi. apply object_of_Some in Hi as (o & Ho & Hid).
      apply object_of_Some in Hi' as (o' & Ho' & Hid').
      apply Ha. apply list_elem_of_fmap. exists t'. split; [congruence|done].
  - apply IH; [done..|].
    by rewrite (object_of_ids _ _ tasks) by apply complete_task_ids.
Qed.

Lemma foldl_concat {A B} (f : A → B → A) (ls : list (list B)) : ∀ a,
  foldl (λ acc l, foldl f acc l) a ls = foldl f a (concat ls).
Proof.
  induction ls as [|l ls IH]; intros a; [done|].
  simpl. by rewrite foldl_app, IH.
Qed.

Lemma concat_level_ids levels :
  concat (Runner.level_ids levels) = Runner.task_id <$> concat levels.
Proof.
  unfold Runner.level_ids. induction levels as [|l levels IH]; [done|].
  rewrite fmap_cons. simpl. by rewrite fmap_app, IH.
Qed.

(** [execute_parallel] runs every task of every level it computed: when it
    returns, the object of each such task carries the status of the task's
    own outcome, and the status of the summary is "completed". *)
Lemma execute_parallel_runs_every_level run tasks max_workers t :
  t ∈ concat (Runner.build_execution_order tasks) →
  Runner.summary_status (Runner.execute_parallel run tasks max_workers)
  = "completed"
  ∧ ∃ i t',
      Runner.object_of (Runner.task_id t) tasks = Some i
      ∧ Runner.final_tasks (Runner.execute_parallel run tasks max_workers) !! i
        = Some t'
      ∧ Runner.task_id t' = Runner.task_id t
      ∧ Runner.status t' = outcome_status (run t).
Proof.
  intros Ht. unfold Runner.execute_parallel. rewrite foldl_concat.
  pose proof (build_execution_order_NoDup tasks) as Hnd.
  rewrite concat_level_ids in Hnd.
  assert (is_Some (Runner.object_of (Runner.task_id t) tasks)) as [i Hi].
  { apply object_of_elem.
    assert (Runner.task_id t ∈ dom (Runner.task_dag tasks)) as Hdom.
    { apply build_execution_order_dom. rewrite concat_level_ids.
      by apply list_elem_of_fmap_2. }
    rewrite task_dag_dom in Hdom. by apply elem_of_list_to_set in Hdom. }
  destruct (run_level_status run _ (tasks, ∅) t i Hnd Ht Hi) as (t' & Ht' & ? & ?).
  destruct (foldl (Runner.complete_task run) (tasks, ∅)
              (concat (Runner.build_execution_order tasks)))
    as [tasks' all_results] eqn:E.
  split; [done|]. exists i, t'. done.
Qed.

(** With [_execute_single_task] as it is written no call raises, so every
    task [execute_parallel] runs ends completed; a task ends failed only
    under a method that raises. *)
Lemma execute_parallel_as_written tasks max_workers t :
  t ∈ concat (Runner.build_execution_order tasks) →
  ∃ i t',
    Runner.object_of (Runner.task_id t) tasks = Some i
    ∧ Runner.final_tasks
        (Runner.execute_parallel Runner._execute_single_task tasks max_workers)
      !! i = Some t'
    ∧ Runner.status t' = "completed".
Proof.
  intros Ht.
  destruct (execute_parallel_runs_every_level Runner._execute_single_task
              tasks max_workers t Ht) as (_ & i & t' & Hi & Ht' & _ & Hs).
  exists i, t'. done.
Qed.

(** ** Failure of a dependency *)





(** ** The thread pool *)

Lemma finished_before_mono tr tr' i i' t :
  i ≤ i' → Engine.finished_before tr i t →
  Engine.finished_before (tr ++ tr') i' t.
Proof.
  intros Hi (j & ok & Hj & Hlook). exists j, ok. split; [lia|].
  by apply lookup_app_l_Some.
Qed.

Lemma started_at_snoc tr e i u :
  Engine.started_at (tr ++ [e]) i u →
  Engine.started_at tr i u ∨ (i = length tr ∧ e = Engine.Started u).
Proof.
  unfold Engine.started_at. intros Hi.
  apply lookup_app_Some in Hi as [Hi|[Hlen Hi]]; [by left|right].
  apply list_lookup_singleton_Some in Hi as [Hz He].
  split; [lia|done].
Qed.

Lemma invariant_initial levels : Engine.invariant levels (Engine.initial levels).
Proof.
  exists 0. simpl. split_and!; try done; try lia.
  - intros t [Ht|Ht]; by apply elem_of_nil in Ht.
Qed.

Lemma invariant_step max_workers levels s s' :
  Engine.invariant levels s → Engine.step max_workers s s' →
  Engine.invariant levels s'.
Proof.
  intros (n & Hlater & Hn & Hpast & Hcur & Hpool & Hstarted) Hstep.
  destruct Hstep as [level rest tr|rest q1 t q2 run tr Hfree|rest q r1 t r2 ok tr];
    simpl in *.
  - (* the next level is entered *)
    symmetry in Hlater. apply drop_cons_inv in Hlater as [Hlevel Hrest].
    assert (n < length levels) by (by eapply lookup_lt_Some).
    exists (S n). simpl. rewrite Nat.sub_0_r. split_and!.
    + done.
    + lia.
    + intros k t Hk Ht. destruct (decide (S k < n)) as [|Hlast]; [by eauto|].
      assert (k = n - 1) as -> by lia.
      destruct (Hcur t) as [Hq|[Hr|Hf]]; [lia|done| | |done];
        by apply elem_of_nil in Hq || by apply elem_of_nil in Hr.
    + intros t _ (lvl & Hl & Ht). rewrite Hlevel in Hl. simplify_eq. by left.
    + intros t [Ht|Ht]; [|by apply elem_of_nil in Ht].
      split; [lia|]. by exists level.
    + intros i u Hi. destruct (Hstarted i u Hi) as (k' & ? & ? & ?).
      exists k'. split_and!; [lia|done..].
  - (* a worker starts a submitted task *)
    assert (0 < n ∧ in_level levels (n - 1) t) as [Hpos Ht].
    { apply Hpool. left. apply elem_of_app. right. left. }
    exists n. simpl. rewrite length_app. simpl. split_and!.
    + done.
    + done.
    + intros k t' Hk Ht'. eapply finished_before_mono; [|by eauto]. lia.
    + intros t' _ Ht'. destruct (Hcur t' Hpos Ht') as [Hq|[Hr|Hf]].
      * apply elem_of_app in Hq as [Hq|[->|Hq]%elem_of_cons].
        -- left. apply elem_of_app. by left.
        -- right. left. left.
        -- left. apply elem_of_app. by right.
      * right. left. by right.
      * right. right. eapply finished_before_mono; [|done]. lia.
    + intros t' [Hq|Hr]; apply Hpool.
      * left. apply elem_of_app in Hq as [Hq|Hq]; apply elem_of_app;
          [by left|right; by right].
      * apply elem_of_cons in Hr as [->|Hr]; [|by right].
        left. apply elem_of_app. right. left.
    + intros i u [Hi|[-> Heq]]%started_at_snoc.
      * destruct (Hstarted i u Hi) as (k' & ? & ? & Hbefore).
        exists k'. split_and!; [done..|].
        intros k t' Hk Ht'. rewrite <- (app_nil_r tr) at 1.
        rewrite <- app_assoc. eapply finished_before_mono; [|by eauto]. done.
      * simplify_eq. exists (n - 1). split_and!; [lia|done|].
        intros k t' Hk Ht'.
        eapply finished_before_mono; [|apply (Hpast k t'); [lia|done]]. done.
  - (* a running task terminates *)
    exists n. simpl. rewrite length_app. simpl. split_and!.
    + done.
    + done.
    + intros k t' Hk Ht'. eapply finished_before_mono; [|by eauto]. lia.
    + intros t' Hpos Ht'. destruct (Hcur t' Hpos Ht') as [Hq|[Hr|Hf]].
      * by left.
      * apply elem_of_app in Hr as [Hr|[->|Hr]%elem_of_cons].
        -- right. left. apply elem_of_app. by left.
        -- right. right. exists (length tr), ok. split; [lia|].
           by rewrite lookup_app_r, Nat.sub_diag by lia.
        -- right. left. apply elem_of_app. by right.
      * right. right. eapply finished_before_mono; [|done]. lia.
    + intros t' [Hq|Hr]; apply Hpool; [by left|].
      right. apply elem_of_app in Hr as [Hr|Hr]; apply elem_of_app;
        [by left|right; by right].
    + intros i u [Hi|[-> Heq]]%started_at_snoc; [|done].
      destruct (Hstarted i u Hi) as (k' & ? & ? & Hbefore).
      exists k'. split_and!; [done..|].
      intros k t' Hk Ht'. eapply finished_before_mono; [|by eauto]. done.
Qed.

Lemma reachable_invariant max_workers levels s :
  Engine.reachable max_workers levels s → Engine.invariant levels s.
Proof.
  unfold Engine.reachable. revert s.
  apply rtc_ind_r; [apply invariant_initial|].
  intros y z _ Hstep Hy. by eapply invariant_step.
Qed.

(** The pool never blocks: with at least one worker, a state in which there
    is still something to run or to enter has a successor. *)
Lemma engine_progress max_workers s :
  0 < max_workers →
  (Engine.later_levels s = [] ∧ Engine.submitted s = []
   ∧ Engine.running s = [])
  ∨ ∃ s', Engine.step max_workers s s'.
Proof.
  intros Hw. destruct s as [later q run tr].
  destruct run as [|r run].
  - destruct q as [|t q].
    + destruct later as [|level rest]; [by left|].
      right. eexists. apply Engine.step_enter_level.
    + right. eexists. apply (Engine.step_start max_workers later [] t q [] tr).
      simpl. lia.
  - right. eexists.
    apply (Engine.step_finish max_workers later q [] r run true tr).
Qed.

(** No task of a level is started before every task of every earlier level
    has terminated. *)
Lemma levels_run_in_order max_workers levels s k k' t u i :
  NoDup (concat levels) → Engine.reachable max_workers levels s →
  k < k' → in_level levels k t → in_level levels k' u →
  Engine.started_at (Engine.trace s) i u →
  Engine.finished_before (Engine.trace s) i t.
Proof.
  intros Hnd Hreach Hk Ht Hu Hi.
  destruct (reachable_invariant _ _ _ Hreach) as (n & _ & _ & _ & _ & _ & Hstarted).
  destruct (Hstarted i u Hi) as (k'' & _ & Hu' & Hbefore).
  destruct Hu as (lu & Hlu & Hulu), Hu' as (lu' & Hlu' & Hulu').
  assert (k' = k'') as <- by (by eapply (concat_NoDup_index levels k' k'' lu lu' u)).
  by eapply Hbefore.
Qed.

Lemma build_execution_order_order_tc tasks u d :
  tc (depends_on tasks) u d →
  ∀ j, in_level (Runner.level_ids (Runner.build_execution_order tasks)) j u →
  ∃ i, i < j
       ∧ in_level (Runner.level_ids (Runner.build_execution_order tasks)) i d.
Proof.
  induction 1 as [u d Hd|u y d Hy _ IH]; intros j Hj.
  - eapply build_execution_order_order; [done|].
    by eapply build_execution_order_placed_deps.
  - destruct (build_execution_order_order tasks j u y) as (i & Hi & Hyi);
      [done|by eapply build_execution_order_placed_deps|].
    destruct (IH i Hyi) as (i' & ? & ?). exists i'. split; [lia|done].
Qed.

(** C7.  [execute_parallel] enters the levels in order: a task of a level is
    never started before every task of every earlier level has terminated,
    completed or failed.  This holds of any list of levels without repeated
    ids, and so of the levels [build_execution_order] computes; on these, a
    task is therefore never started before all the tasks it depends on,
    directly or through other tasks, have terminated. *)
Theorem C7_levels_run_in_order (max_workers : nat) :
  (∀ levels s k k' t u i,
     NoDup (concat levels) → Engine.reachable max_workers levels s →
     k < k' → in_level levels k t → in_level levels k' u →
     Engine.started_at (Engine.trace s) i u →
     Engine.finished_before (Engine.trace s) i t)
  ∧ (∀ tasks s k t u i,
       let levels := Runner.level_ids (Runner.build_execution_order tasks) in
       Engine.reachable max_workers levels s →
       in_level levels k t → in_level levels (S k) u →
       Engine.started_at (Engine.trace s) i u →
       Engine.finished_before (Engine.trace s) i t)
  ∧ (∀ tasks s u d i,
       Engine.reachable max_workers
         (Runner.level_ids (Runner.build_execution_order tasks)) s →
       Engine.started_at (Engine.trace s) i u →
       tc (depends_on tasks) u d →
       Engine.finished_before (Engine.trace s) i d).
Proof.
  split_and!.
  - intros levels s k k' t u i. apply levels_run_in_order.
  - intros tasks s k t u i levels Hreach Ht Hu Hi.
    eapply (levels_run_in_order max_workers levels s k (S k)); eauto.
    apply build_execution_order_NoDup.
  - intros tasks s u d i Hreach Hi Hdep.
    destruct (reachable_invariant _ _ _ Hreach)
      as (n & _ & _ & _ & _ & _ & Hstarted).
    destruct (Hstarted i u Hi) as (k' & _ & Hu & Hbefore).
    destruct (build_execution_order_order_tc tasks u d Hdep k' Hu)
      as (k & Hk & Hd).
    by eapply Hbefore.
Qed.

Lemma D_started_reachable :
  Engine.reachable 3
    (Runner.level_ids (Runner.build_execution_order Samples.A_then_D))
    Samples.D_started.
Proof.
  unfold Engine.reachable, Engine.initial.
  replace (Runner.level_ids (Runner.build_execution_order Samples.A_then_D))
    with [["A"]; ["D"]] by (vm_compute; reflexivity).
  eapply rtc_l; [apply Engine.step_enter_level|].
  eapply rtc_l; [apply (Engine.step_start 3 _ [] "A" [] [] []); simpl; lia|].
  eapply rtc_l; [apply (Engine.step_finish 3 _ _ [] "A" [] false)|].
  eapply rtc_l; [apply Engine.step_enter_level|].
  eapply rtc_l; [apply (Engine.step_start 3 _ [] "D" [] [] _); simpl; lia|].
  apply rtc_refl.
Qed.

Lemma C7_levels_run_in_order_witness :
  Engine.finished_before (Engine.trace Samples.D_started) 2 "A".
Proof.
  destruct (C7_levels_run_in_order 3) as (_ & _ & Hdeps).
  apply (Hdeps Samples.A_then_D Samples.D_started "D" "A" 2).
  - apply D_started_reachable.
  - reflexivity.
  - apply tc_once. exists ["A"]. split; [vm_compute; reflexivity|left].
Defined.

(** * Further properties of the two files *)

(** ** Shape of the levels *)

Section level_shape.
Context (ready_in : gset string → string → Prop).
Context `{!∀ R n, Decision (ready_in R n)}.

Lemma remaining_after_S R (levels : list (list string)) j lvl :
  levels !! j = Some lvl →
  remaining_after R levels (S j) = remaining_after R levels j ∖ list_to_set lvl.
Proof.
  intros Hj. unfold remaining_after.
  rewrite (take_S_r _ _ _ Hj), concat_app, list_to_set_app_L. simpl.
  rewrite app_nil_r. by rewrite difference_difference_l_L.
Qed.

(** Level [j] is the whole set of members that are ready once the first
    [j] levels are gone, and it is not empty. *)
Lemma level_loop_level fuel : ∀ R j lvl,
  level_loop ready_in fuel R !! j = Some lvl →
  lvl ≠ []
  ∧ lvl = filter (ready_in (remaining_after R (level_loop ready_in fuel R) j))
            (elements (remaining_after R (level_loop ready_in fuel R) j)).
Proof.
  induction fuel as [|fuel IH]; intros R j lvl Hj; [done|].
  destruct (level_loop_cases ready_in fuel R)
    as [[E _]|(ready & Hr & Hne & _ & _ & E)]; rewrite E in Hj |- *; [done|].
  destruct j as [|j]; simpl in Hj.
  - simplify_eq. unfold remaining_after. simpl.
    by rewrite difference_empty_L.
  - destruct (IH _ _ _ Hj) as [Hlvl Heq]. split; [done|].
    unfold remaining_after in *. simpl.
    by rewrite list_to_set_app_L, <- difference_difference_l_L.
Qed.

(** A member of a level after the first was in the set, and not ready,
    when the level before was formed. *)
Lemma level_loop_not_earlier fuel R j x :
  in_level (level_loop ready_in fuel R) (S j) x →
  x ∈ remaining_after R (level_loop ready_in fuel R) j
  ∧ ¬ ready_in (remaining_after R (level_loop ready_in fuel R) j) x.
Proof.
  intros (lvl & Hj & Hx).
  assert (is_Some (level_loop ready_in fuel R !! j)) as [prev Hprev].
  { apply lookup_lt_is_Some. apply lookup_lt_Some in Hj. lia. }
  destruct (level_loop_level _ _ _ _ Hj) as [_ Hlvl].
  destruct (level_loop_level _ _ _ _ Hprev) as [_ Hprevl].
  rewrite Hlvl in Hx. apply list_elem_of_filter in Hx as [_ Hx].
  apply elem_of_elements in Hx.
  rewrite (remaining_after_S _ _ _ _ Hprev) in Hx.
  apply elem_of_difference in Hx as [HxR Hxprev]. split; [done|].
  intros Hready. apply Hxprev. apply elem_of_list_to_set. rewrite Hprevl.
  apply list_elem_of_filter. split; [done|]. by apply elem_of_elements.
Qed.

(** Two readiness tests that agree on the subsets of [R] give the same
    levels. *)
Lemma level_loop_ext (ready_in' : gset string → string → Prop)
    `{!∀ R n, Decision (ready_in' R n)} fuel : ∀ R,
  (∀ R' n, R' ⊆ R → n ∈ R' → ready_in R' n ↔ ready_in' R' n) →
  level_loop ready_in fuel R = level_loop ready_in' fuel R.
Proof.
  induction fuel as [|fuel IH]; intros R Hext; [done|]. simpl.
  destruct (decide (R = ∅)); [done|].
  rewrite (filter_ext_elem (ready_in R) (ready_in' R)).
  2:{ intros x Hx%elem_of_elements. by apply Hext. }
  destruct (filter (ready_in' R) (elements R)) as [|r rs]; [done|].
  f_equal. apply IH. intros R' m HR' Hm. apply Hext; [set_solver|done].
Qed.

Lemma level_loop_length fuel : ∀ R,
  length (level_loop ready_in fuel R) ≤ size R.
Proof.
  induction fuel as [|fuel IH]; intros R; [simpl; lia|].
  destruct (level_loop_cases ready_in fuel R)
    as [[E _]|(ready & Hr & Hne & _ & Hlt & E)]; rewrite E; [simpl; lia|].
  simpl. specialize (IH (R ∖ list_to_set ready)). lia.
Qed.

End level_shape.

Lemma remaining_after_subseteq R levels j : remaining_after R levels j ⊆ R.
Proof. unfold remaining_after. set_solver. Qed.

(** X1.  The levels of [get_execution_order] are as early as the
    dependencies allow: a task of a level after the first has a dependency
    in the level just before it. *)
Theorem get_execution_order_as_early_as_possible
    (dag : gmap string (list string)) (j : nat) (t : string) :
  in_level (Orchestrator.get_execution_order dag) (S j) t →
  ∃ d, edge dag t d ∧ in_level (Orchestrator.get_execution_order dag) j d.
Proof.
  unfold Orchestrator.get_execution_order.
  rewrite get_execution_order_fueled_level_loop. intros Ht.
  destruct (level_loop_not_earlier _ _ _ _ _ Ht) as [HtR Hnot].
  apply zero_in_degree_complete in Hnot as (d & Hd & HdR);
    [|apply remaining_after_subseteq|done].
  exists d. split; [done|].
  destruct Ht as (lvl & Hlvl & Ht).
  assert (is_Some (level_loop (zero_in_degree dag) (size dag) (dom dag) !! j))
    as [prev Hprev].
  { apply lookup_lt_is_Some. apply lookup_lt_Some in Hlvl. lia. }
  exists prev. split; [done|].
  assert (in_level (level_loop (zero_in_degree dag) (size dag) (dom dag)) (S j) t)
    as Hready by (by exists lvl).
  apply level_loop_ready in Hready.
  eapply zero_in_degree_sound in Hready; [|done].
  rewrite (remaining_after_S _ _ _ _ Hprev) in Hready.
  destruct (decide (d ∈ prev)); [done|]. exfalso. apply Hready. set_solver.
Qed.

Lemma get_execution_order_as_early_as_possible_witness :
  ∃ d, edge Samples.diamond_dag "D" d
       ∧ in_level (Orchestrator.get_execution_order Samples.diamond_dag) 1 d.
Proof.
  apply (get_execution_order_as_early_as_possible Samples.diamond_dag 1 "D").
  exists ["D"]. split; by_evaluation.
Defined.

Lemma get_execution_order_levels_shape (dag : gmap string (list string)) :
  Forall (λ level, level ≠ []) (Orchestrator.get_execution_order dag)
  ∧ length (Orchestrator.get_execution_order dag) ≤ size dag.
Proof.
  unfold Orchestrator.get_execution_order.
  rewrite get_execution_order_fueled_level_loop. split.
  - apply Forall_forall. intros lvl [j Hj]%list_elem_of_lookup.
    by apply level_loop_level in Hj as [? _].
  - etrans; [apply level_loop_length|]. by rewrite size_dom.
Qed.

(** X2.  No level [get_execution_order] returns is empty, and it returns at
    most as many levels as the dag has nodes. *)
Theorem get_execution_order_levels_bounded (dag : gmap string (list string)) :
  Forall (λ level, level ≠ []) (Orchestrator.get_execution_order dag)
  ∧ length (Orchestrator.get_execution_order dag) ≤ size dag.
Proof. apply get_execution_order_levels_shape. Qed.

(** X3.  [get_execution_order] leaves a node out exactly when it leaves out
    one of the node's dependencies inside the dag. *)
Theorem get_execution_order_left_out
    (dag : gmap string (list string)) (t : string) :
  t ∈ dom dag →
  t ∉ concat (Orchestrator.get_execution_order dag)
  ↔ ∃ d, edge dag t d ∧ d ∉ concat (Orchestrator.get_execution_order dag).
Proof.
  intros Ht. split.
  - intros Hout. revert Hout. unfold Orchestrator.get_execution_order.
    rewrite get_execution_order_fueled_level_loop. intros Hout.
    set (L := level_loop (zero_in_degree dag) (size dag) (dom dag)) in *.
    assert (t ∈ dom dag ∖ list_to_set (concat L)) as HtR by set_solver.
    pose proof (level_loop_stuck (zero_in_degree dag) (size dag) (dom dag) t)
      as Hstuck.
    fold L in Hstuck.
    apply zero_in_degree_complete in Hstuck as (d & Hd & HdR);
      [|set_solver|done|by rewrite size_dom|done].
    exists d. split; [done|]. set_solver.
  - intros (d & Hd & Hout) [j Hj]%elem_of_concat_in_level.
    destruct (get_execution_order_order dag j t d Hj Hd) as (i & _ & Hi).
    apply Hout. apply elem_of_concat_in_level. eauto.
Qed.

Lemma get_execution_order_left_out_witness :
  ("a" ∉ concat (Orchestrator.get_execution_order Samples.cyclic_dag))
  ↔ ∃ d, edge Samples.cyclic_dag "a" d
         ∧ d ∉ concat (Orchestrator.get_execution_order Samples.cyclic_dag).
Proof.
  apply (get_execution_order_left_out Samples.cyclic_dag "a"). by_evaluation.
Defined.

(** X4.  On a task list whose dependency ids all name tasks of the list,
    the two schedulers compute the same levels: the ids of the levels of
    [build_execution_order] are the levels [get_execution_order] returns
    for the dependency map of the list. *)
Theorem schedulers_agree_on_closed_lists (tasks : list Runner.SwarmTask) :
  closed (Runner.task_dag tasks) →
  Runner.level_ids (Runner.build_execution_order tasks)
  = Orchestrator.get_execution_order (Runner.task_dag tasks).
Proof.
  intros Hclosed.
  unfold Runner.build_execution_order, Orchestrator.get_execution_order.
  rewrite build_execution_order_fueled_level_loop,
    get_execution_order_fueled_level_loop.
  assert (dom (Runner.task_dag tasks) = dom (Runner.task_map_of tasks)) as Hdom
    by (unfold Runner.task_dag; by rewrite dom_fmap_L).
  rewrite Hdom.
  rewrite (level_loop_fuel _ (length tasks) (size (Runner.task_dag tasks)));
    [|apply task_ids_size|by rewrite <- Hdom, size_dom].
  apply level_loop_ext. intros R' n HR' Hn.
  assert (n ∈ dom (Runner.task_map_of tasks)) as [task Htask]%elem_of_dom by auto.
  unfold deps_done, zero_in_degree. rewrite task_dag_lookup, Htask. simpl.
  rewrite count_in_zero. unfold Runner.deps_completed. rewrite Forall_forall.
  split.
  - intros Hall d Hd. apply Hall in Hd. set_solver.
  - intros Hall d Hd. apply elem_of_difference. split; [|by apply Hall].
    rewrite <- Hdom. eapply Hclosed; [|done]. by rewrite task_dag_lookup, Htask.
Qed.

Lemma schedulers_agree_on_closed_lists_witness :
  Runner.level_ids (Runner.build_execution_order Samples.diamond_tasks)
  = Orchestrator.get_execution_order (Runner.task_dag Samples.diamond_tasks).
Proof.
  apply (schedulers_agree_on_closed_lists Samples.diamond_tasks).
  apply diamond_tasks_closed.
Defined.

(** X5.  The levels of [build_execution_order] are as early as the
    dependencies allow, none of them is empty, and there are at most as
    many as the list has tasks. *)
Theorem build_execution_order_as_early_as_possible
    (tasks : list Runner.SwarmTask) :
  (∀ j t,
     in_level (Runner.level_ids (Runner.build_execution_order tasks)) (S j) t →
     ∃ d, depends_on tasks t d
          ∧ in_level (Runner.level_ids (Runner.build_execution_order tasks))
              j d)
  ∧ Forall (λ level, level ≠ []) (Runner.build_execution_order tasks)
  ∧ length (Runner.build_execution_order tasks) ≤ length tasks.
Proof.
  split_and!.
  - intros j t Ht. revert Ht. unfold Runner.build_execution_order.
    rewrite build_execution_order_fueled_level_loop.
    set (tm := Runner.task_map_of tasks). set (U := dom tm).
    set (L := level_loop (deps_done tm U) (length tasks) U). intros Ht.
    destruct (level_loop_not_earlier _ _ _ _ _ Ht) as [HtR Hnot].
    fold L in HtR, Hnot.
    assert (is_Some (L !! j)) as [prev Hprev].
    { destruct Ht as (lvl & Hlvl & _). apply lookup_lt_is_Some.
      apply lookup_lt_Some in Hlvl. lia. }
    apply level_loop_ready in Ht. fold L in Ht.
    rewrite (remaining_after_S _ _ _ _ Hprev) in Ht.
    unfold deps_done in Ht, Hnot.
    destruct (tm !! t) as [task|] eqn:Htask; [|done].
    unfold Runner.deps_completed in Ht, Hnot.
    apply not_Forall_Exists in Hnot; [|apply _].
    apply Exists_exists in Hnot as (d & Hd & HdR).
    rewrite Forall_forall in Ht. apply Ht in Hd as HdU.
    exists d. split.
    + exists (Runner.dependencies task). split; [|done].
      by rewrite task_dag_lookup; fold tm; rewrite Htask.
    + exists prev. split; [done|].
      destruct (decide (d ∈ prev)); [done|]. exfalso. apply HdR. set_solver.
  - apply Forall_forall. intros lvl Hlvl Hnil. subst lvl.
    assert ([] ∈ Runner.level_ids (Runner.build_execution_order tasks)) as Hin.
    { unfold Runner.level_ids. apply list_elem_of_fmap. by exists []. }
    revert Hin. unfold Runner.build_execution_order.
    rewrite build_execution_order_fueled_level_loop.
    intros [i Hi]%list_elem_of_lookup. by apply level_loop_level in Hi as [? _].
  - assert (length (Runner.build_execution_order tasks)
            = length (Runner.level_ids (Runner.build_execution_order tasks)))
      as -> by (unfold Runner.level_ids; by rewrite length_fmap).
    unfold Runner.build_execution_order.
    rewrite build_execution_order_fueled_level_loop.
    etrans; [apply level_loop_length|]. apply task_ids_size.
Qed.

Lemma build_execution_order_as_early_as_possible_witness :
  (∃ d, depends_on Samples.diamond_tasks "D" d
        ∧ in_level (Runner.level_ids
                      (Runner.build_execution_order Samples.diamond_tasks)) 1 d)
  ∧ Forall (λ level, level ≠ [])
      (Runner.build_execution_order Samples.diamond_tasks)
  ∧ length (Runner.build_execution_order Samples.diamond_tasks) ≤ 4.
Proof.
  destruct (build_execution_order_as_early_as_possible Samples.diamond_tasks)
    as (Hd & Hne & Hlen).
  split_and!; [|exact Hne|exact Hlen].
  apply (Hd 1 "D"). exists ["D"]. split; by_evaluation.
Defined.

(** A dag none of whose dependency ids is a key is scheduled in one level
    that holds every node. *)
Lemma get_execution_order_one_level dag :
  dag ≠ ∅ → (∀ n d, ¬ edge dag n d) →
  ∃ level, Orchestrator.get_execution_order dag = [level]
           ∧ ∀ t, t ∈ level ↔ t ∈ dom dag.
Proof.
  intros Hne Hnoedge.
  assert (∀ t, t ∈ dom dag →
            in_level (Orchestrator.get_execution_order dag) 0 t) as Hzero.
  { intros t [deps Ht]%elem_of_dom.
    apply (get_execution_order_dangling dag t deps Ht).
    intros d Hd Hdom. apply (Hnoedge t d). by exists deps. }
  destruct (Orchestrator.get_execution_order dag) as [|level rest] eqn:E.
  - exfalso. destruct (map_choose dag Hne) as (t & deps & Ht).
    destruct (Hzero t) as (lvl & Hl & _); [by apply elem_of_dom|done].
  - exists level.
    assert (∀ t, t ∈ level ↔ t ∈ dom dag) as Hlevel.
    { intros t. split.
      - intros Ht. apply get_execution_order_dom. rewrite E. simpl.
        apply elem_of_app. by left.
      - intros Ht. destruct (Hzero t Ht) as (lvl & Hl & Hin).
        simpl in Hl. by simplify_eq. }
    split; [|done]. destruct rest as [|next rest]; [done|]. exfalso.
    pose proof (get_execution_order_levels_shape dag) as [Hnonempty _].
    rewrite E in Hnonempty.
    apply Forall_cons in Hnonempty as [_ Hnonempty].
    apply Forall_cons in Hnonempty as [Hnext _].
    destruct next as [|x next]; [done|].
    pose proof (get_execution_order_NoDup dag) as Hnd. rewrite E in Hnd.
    simpl in Hnd. apply NoDup_app in Hnd as (_ & Hdisj & _).
    assert (x ∈ dom dag) as Hx.
    { apply get_execution_order_dom. rewrite E. simpl.
      apply elem_of_app. right. left. }
    apply (Hdisj x); [by apply Hlevel|left].
Qed.

Lemma build_dag_dom tasks :
  dom (Orchestrator.build_dag tasks)
  = list_to_set (Orchestrator.task_id <$> tasks).
Proof.
  unfold Orchestrator.build_dag.
  rewrite (foldl_insert_dom Orchestrator.task_id Orchestrator.dependencies).
  rewrite dom_empty_L. set_solver.
Qed.

Lemma build_dag_no_edge tasks :
  Forall (λ t, Orchestrator.dependencies t = []) tasks →
  ∀ n d, ¬ edge (Orchestrator.build_dag tasks) n d.
Proof.
  intros Hall n d (deps & Hn & Hd & _).
  apply (foldl_insert_origin Orchestrator.task_id Orchestrator.dependencies)
    in Hn as [Hn|(a & Ha & _ & Hdeps)]; [by apply lookup_empty_Some in Hn|].
  rewrite Forall_forall in Hall. rewrite (Hall a Ha) in Hdeps. subst deps.
  by apply elem_of_nil in Hd.
Qed.



Lemma decompose_task_cases (analysis : Orchestrator.TaskAnalysis)
    (env : Env) (n : nat) :
  match Orchestrator.decompose_task analysis env n with
  | inl e =>
      e = IndexError
      ∧ (Orchestrator.task_type analysis = "refactor"
         ∨ Orchestrator.task_type analysis = "test")
  | inr (tasks, n') =>
      Orchestrator.task_type analysis ≠ "refactor"
      ∧ Orchestrator.task_type analysis ≠ "test"
      ∧ length tasks
        = (if bool_decide (Orchestrator.task_type analysis = "development")
           then 6 else 1)
      ∧ n' = length tasks + n
      ∧ ∀ i t, tasks !! i = Some t →
          Orchestrator.task_id t = "task_" +:+ uuid_hex8 env (i + n)
          ∧ Orchestrator.dependencies t = []
          ∧ Orchestrator.status t = "pending"
  end.
Proof.
  unfold Orchestrator.decompose_task.
  destruct (bool_decide (Orchestrator.task_type analysis = "development"))
    eqn:Hdev.
  - apply bool_decide_eq_true in Hdev.
    cbv [Orchestrator.development_template Orchestrator.entry mbind M_bind mret
         M_ret Orchestrator._generate_task_id Orchestrator.SubTask_init
         bool_decide decide_rel]. simpl.
    split_and!; [rewrite Hdev; discriminate|rewrite Hdev; discriminate|reflexivity|reflexivity|].
    intros i t Hi.
    repeat (destruct i as [|i];
            [apply (inj Some) in Hi; subst t; split_and!; reflexivity|]).
    inversion Hi.
  - destruct (bool_decide (Orchestrator.task_type analysis = "refactor"))
      eqn:Href.
    { apply bool_decide_eq_true in Href. split; [reflexivity|by left]. }
    destruct (bool_decide (Orchestrator.task_type analysis = "test"))
      eqn:Htest.
    { apply bool_decide_eq_true in Htest. split; [reflexivity|by right]. }
    apply bool_decide_eq_false in Href, Htest.
    split_and!; [exact Href|exact Htest|reflexivity|reflexivity|].
    intros i t Hi. destruct i as [|i]; [|inversion Hi].
    apply (inj Some) in Hi. subst t. split_and!; reflexivity.
Qed.

(** X6.  [decompose_task] on every analysis.  It raises [IndexError]
    exactly on the refactor and test categories, whose templates read
    [tasks[0]] while [tasks] is still the empty list.  On every other
    category it returns six tasks (development) or one task (any other
    category); the ids are the fresh ids drawn, in order, and every task
    comes out pending and with an empty dependency list: the guards
    [if tasks] of the development template see the empty list as well, so
    the wiring the template describes is never produced. *)
Theorem decompose_task_outcomes (analysis : Orchestrator.TaskAnalysis)
    (env : Env) (n : nat) :
  match Orchestrator.decompose_task analysis env n with
  | inl e =>
      e = IndexError
      ∧ (Orchestrator.task_type analysis = "refactor"
         ∨ Orchestrator.task_type analysis = "test")
  | inr (tasks, n') =>
      Orchestrator.task_type analysis ≠ "refactor"
      ∧ Orchestrator.task_type analysis ≠ "test"
      ∧ length tasks
        = (if bool_decide (Orchestrator.task_type analysis = "development")
           then 6 else 1)
      ∧ n' = length tasks + n
      ∧ ∀ i t, tasks !! i = Some t →
          Orchestrator.task_id t = "task_" +:+ uuid_hex8 env (i + n)
          ∧ Orchestrator.dependencies t = []
          ∧ Orchestrator.status t = "pending"
  end.
Proof. apply decompose_task_cases. Qed.

(** X7.  [execute] on every request.  Without swarm mode it answers
    [simple_task] and leaves the files alone.  With swarm mode it raises
    [IndexError] when the request is classified refactor or test, and
    writes nothing; it returns a plan only when the request is classified
    as neither, and then it persists a queue that holds the plan it
    returns, keeps the result files, and the plan has a single level that
    holds every task id: all the tasks it generated are released at
    once. *)
Theorem execute_outcomes (user_request : string) (st : Orchestrator.Store)
    (env : Env) (n : nat) :
  match Orchestrator.execute user_request st env n with
  | inl e =>
      e = IndexError
      ∧ Orchestrator.swarm_mode (Orchestrator.analyze_task user_request) = true
      ∧ (Orchestrator.classify_type user_request = "refactor"
         ∨ Orchestrator.classify_type user_request = "test")
  | inr (Orchestrator.simple_task analysis, st', n') =>
      Orchestrator.swarm_mode (Orchestrator.analyze_task user_request) = false
      ∧ analysis = Orchestrator.analyze_task user_request
      ∧ st' = st ∧ n' = n
  | inr (Orchestrator.ready main_task_id analysis tasks dag execution_order,
         st', n') =>
      Orchestrator.swarm_mode (Orchestrator.analyze_task user_request) = true
      ∧ Orchestrator.classify_type user_request ≠ "refactor"
      ∧ Orchestrator.classify_type user_request ≠ "test"
      ∧ analysis = Orchestrator.analyze_task user_request
      ∧ main_task_id = "main_" +:+ uuid_hex8 env (length tasks + n)
      ∧ n' = S (length tasks + n)
      ∧ dag = Orchestrator.build_dag tasks
      ∧ (∃ level, execution_order = [level]
                  ∧ ∀ tid, tid ∈ level ↔ tid ∈ Orchestrator.task_id <$> tasks)
      ∧ Orchestrator.result_files st' = Orchestrator.result_files st
      ∧ ∃ q, Orchestrator.read_queue st' = Some q
             ∧ Orchestrator.main_task_id q = main_task_id
             ∧ Orchestrator.dag q = dag
             ∧ Orchestrator.execution_order q = execution_order
             ∧ dom (Orchestrator.tasks q)
               = list_to_set (Orchestrator.task_id <$> tasks)
  end.
Proof.
  unfold Orchestrator.execute.
  assert (Orchestrator.task_type (Orchestrator.analyze_task user_request)
          = Orchestrator.classify_type user_request) as Htype.
  { unfold Orchestrator.analyze_task.
    by destruct (if 4 <=? _ then _ else _). }
  destruct (Orchestrator.swarm_mode (Orchestrator.analyze_task user_request))
    eqn:Hswarm; cbn [negb]; [|done].
  pose proof (decompose_task_cases
                (Orchestrator.analyze_task user_request) env n) as Hcases.
  unfold mbind, M_bind at 1.
  destruct (Orchestrator.decompose_task
              (Orchestrator.analyze_task user_request) env n)
    as [e|[tasks n']].
  { rewrite <- Htype. destruct Hcases as [-> Hcases]. done. }
  destruct Hcases as (Hr & Ht & Hlen & -> & Htasks).
  rewrite Htype in Hr, Ht.
  cbv [mbind M_bind Orchestrator._generate_main_task_id Orchestrator.now mret
       M_ret Orchestrator.create_queue].
  split_and!; try reflexivity; try assumption.
  - assert (Orchestrator.build_dag tasks ≠ ∅) as Hne.
    { intros Hempty.
      pose proof (build_dag_dom tasks) as Hdom. rewrite Hempty in Hdom.
      rewrite dom_empty_L in Hdom. destruct tasks as [|t tasks].
      - by destruct (bool_decide _).
      - rewrite fmap_cons, list_to_set_cons in Hdom. set_solver. }
    destruct (get_execution_order_one_level _ Hne) as (level & -> & Hlevel).
    { apply build_dag_no_edge. apply Forall_lookup. intros i t Hi.
      by destruct (Htasks i t Hi) as (_ & ? & _). }
    exists level. split; [done|]. intros tid. rewrite Hlevel, build_dag_dom.
    by rewrite elem_of_list_to_set.
  - eexists. split; [reflexivity|]. cbn.
    split_and!; try reflexivity.
    rewrite (foldl_insert_dom Orchestrator.task_id (λ t, t)).
    rewrite dom_empty_L. set_solver.
Qed.


(** ** The queue file: creation *)

Lemma create_queue_tasks_lookup now main_task_id tasks dag st tid t :
  NoDup (Orchestrator.task_id <$> tasks) →
  Orchestrator.tasks
    (Orchestrator.create_queue now main_task_id tasks dag st).1 !! tid = Some t
  ↔ t ∈ tasks ∧ Orchestrator.task_id t = tid.
Proof.
  intros Hnd. cbn. split.
  - intros [Hin|(a & Ha & Hk & Hv)]%(foldl_insert_origin
                                      Orchestrator.task_id (λ t, t));
      [by apply lookup_empty_Some in Hin|].
    by subst.
  - intros [Ht <-].
    by apply (foldl_insert_NoDup Orchestrator.task_id (λ t, t)).
Qed.

Lemma create_queue_tasks_list now main_task_id tasks dag st :
  NoDup (Orchestrator.task_id <$> tasks) →
  map_to_list
    (Orchestrator.tasks
       (Orchestrator.create_queue now main_task_id tasks dag st).1)
  ≡ₚ (λ t, (Orchestrator.task_id t, t)) <$> tasks.
Proof.
  intros Hnd.
  assert (NoDup ((λ t, (Orchestrator.task_id t, t)) <$> tasks).*1) as Hnd'.
  { by rewrite <- list_fmap_compose. }
  rewrite <- (map_to_list_to_map _ Hnd'). f_equiv.
  apply map_eq. intros tid. apply option_eq. intros t.
  rewrite create_queue_tasks_lookup by done.
  rewrite <- elem_of_list_to_map by done.
  rewrite list_elem_of_fmap. split.
  - intros [Ht <-]. by exists t.
  - intros (t' & Heq & Ht'). injection Heq as -> ->. done.
Qed.

(** X8.  [create_queue] and [read_queue] round trip.  For tasks of distinct
    ids, the queue read back holds exactly the tasks given, each under its
    own id, and the result files are kept. *)
Theorem create_queue_read_back (now main_task_id : string)
    (tasks : list Orchestrator.SubTask) (dag : gmap string (list string))
    (st : Orchestrator.Store) :
  NoDup (Orchestrator.task_id <$> tasks) →
  ∃ q,
    Orchestrator.read_queue
      (Orchestrator.create_queue now main_task_id tasks dag st).2 = Some q
    ∧ q = (Orchestrator.create_queue now main_task_id tasks dag st).1
    ∧ (∀ tid t, Orchestrator.tasks q !! tid = Some t
                ↔ t ∈ tasks ∧ Orchestrator.task_id t = tid)
    ∧ size (Orchestrator.tasks q) = length tasks
    ∧ Orchestrator.result_files
        (Orchestrator.create_queue now main_task_id tasks dag st).2
      = Orchestrator.result_files st.
Proof.
  intros Hnd. eexists. split; [reflexivity|]. split; [reflexivity|].
  split_and!.
  - intros tid t.
    apply (create_queue_tasks_lookup now main_task_id tasks dag st tid t Hnd).
  - rewrite <- length_map_to_list,
      (create_queue_tasks_list now main_task_id tasks dag st Hnd).
    by rewrite length_fmap.
  - reflexivity.
Qed.

Lemma create_queue_read_back_witness :
  NoDup (Orchestrator.task_id <$> Samples.queued_tasks)
  ∧ ∃ q,
      Orchestrator.read_queue
        (Orchestrator.create_queue "now" "main_0" Samples.queued_tasks
           (Orchestrator.build_dag Samples.queued_tasks)
           Samples.empty_store).2 = Some q
      ∧ size (Orchestrator.tasks q) = length Samples.queued_tasks.
Proof.
  assert (NoDup (Orchestrator.task_id <$> Samples.queued_tasks)) as Hnd
    by by_evaluation.
  split; [done|].
  destruct (create_queue_read_back "now" "main_0" Samples.queued_tasks
              (Orchestrator.build_dag Samples.queued_tasks)
              Samples.empty_store Hnd) as (q & Hq & _ & _ & Hsize & _).
  by exists q.
Defined.

Lemma filter_pairs_snd {A} (key : A → string) (P : string * A → Prop)
    `{!∀ p, Decision (P p)} (Q : A → Prop) `{!∀ a, Decision (Q a)}
    (l : list A) :
  (∀ a, a ∈ l → P (key a, a) ↔ Q a) →
  (filter P ((λ a, (key a, a)) <$> l)).*2 = filter Q l.
Proof.
  induction l as [|a l IH]; intros HPQ; [done|].
  rewrite fmap_cons, !filter_cons.
  assert (P (key a, a) ↔ Q a) as Ha by (apply HPQ; left).
  assert ((filter P ((λ a, (key a, a)) <$> l)).*2 = filter Q l) as IH'
    by (apply IH; intros b Hb; apply HPQ; by right).
  destruct (decide (P (key a, a))), (decide (Q a)); try tauto.
  by rewrite fmap_cons, IH'.
Qed.

(** X9.  The first tasks released.  Right after [create_queue] on tasks of
    distinct ids that are all pending, [get_ready_tasks] returns the tasks
    that list no dependency, each once, and no other task. *)
Theorem create_queue_ready_tasks (now main_task_id : string)
    (tasks : list Orchestrator.SubTask) (dag : gmap string (list string))
    (st : Orchestrator.Store) :
  NoDup (Orchestrator.task_id <$> tasks) →
  Forall (λ t, Orchestrator.status t = "pending") tasks →
  Orchestrator.get_ready_tasks
    (Orchestrator.create_queue now main_task_id tasks dag st).2
  ≡ₚ filter (λ t, Orchestrator.dependencies t = []) tasks.
Proof.
  intros Hnd Hpending. unfold Orchestrator.get_ready_tasks.
  change (Orchestrator.read_queue
            (Orchestrator.create_queue now main_task_id tasks dag st).2)
    with (Some (Orchestrator.create_queue now main_task_id tasks dag st).1).
  cbv beta iota zeta.
  set (q := (Orchestrator.create_queue now main_task_id tasks dag st).1).
  assert (dom (filter (λ p : string * Orchestrator.SubTask,
                         Orchestrator.status p.2 = "completed")
                 (Orchestrator.tasks q)) = (∅ : gset string)) as ->.
  { apply set_eq. intros x. split; [|set_solver].
    intros [t [Ht Hs]%map_lookup_filter_Some]%elem_of_dom. exfalso.
    apply (create_queue_tasks_lookup now main_task_id tasks dag st x t Hnd)
      in Ht as [Ht _].
    rewrite Forall_forall in Hpending. simpl in Hs.
    rewrite (Hpending t Ht) in Hs. discriminate Hs. }
  pose proof (create_queue_tasks_list now main_task_id tasks dag st Hnd)
    as Hlist.
  fold q in Hlist. rewrite Hlist.
  rewrite (filter_pairs_snd Orchestrator.task_id _
             (λ t, Orchestrator.dependencies t = [])); [done|].
  intros t Ht. simpl. rewrite Forall_forall in Hpending. split.
  - intros [_ Hdeps]. destruct (Orchestrator.dependencies t) as [|d deps];
      [done|]. apply Forall_cons in Hdeps as [Hd _]. set_solver.
  - intros ->. split; [by apply Hpending|constructor].
Qed.

Lemma create_queue_ready_tasks_witness :
  NoDup (Orchestrator.task_id <$> Samples.queued_tasks)
  ∧ Forall (λ t, Orchestrator.status t = "pending") Samples.queued_tasks
  ∧ Orchestrator.get_ready_tasks (Samples.store_of Samples.queued_tasks)
    ≡ₚ [Samples.sub_task "A" [] "pending"; Samples.sub_task "B" [] "pending"].
Proof.
  assert (NoDup (Orchestrator.task_id <$> Samples.queued_tasks)) as Hnd
    by by_evaluation.
  assert (Forall (λ t, Orchestrator.status t = "pending") Samples.queued_tasks)
    as Hp by (repeat constructor).
  split_and!; [done..|].
  apply (create_queue_ready_tasks "2024-01-01T00:00:00" "main_0"
           Samples.queued_tasks (Orchestrator.build_dag Samples.queued_tasks)
           Samples.empty_store Hnd Hp).
Defined.


(** ** The queue file: updates *)

(** Two keyword arguments either assign different fields, and the order
    does not matter, or the same field, and the later one wins. *)
Lemma set_field_twice (a b : Orchestrator.kwarg) :
  (∀ u, Orchestrator.set_field (Orchestrator.set_field u a) b
        = Orchestrator.set_field (Orchestrator.set_field u b) a)
  ∨ (∀ u, Orchestrator.set_field (Orchestrator.set_field u a) b
          = Orchestrator.set_field u b).
Proof.
  destruct a, b;
    first [ left; intros []; reflexivity | right; intros []; reflexivity ].
Qed.

Lemma update_fields_overwritten kwargs : ∀ u a,
  Orchestrator.set_field
    (Orchestrator.update_fields (Orchestrator.set_field u a) kwargs) a
  = Orchestrator.set_field (Orchestrator.update_fields u kwargs) a.
Proof.
  unfold Orchestrator.update_fields.
  induction kwargs as [|b kwargs IH]; intros u a; cbn [foldl].
  - destruct (set_field_twice a a) as [H|H]; [|apply H].
    destruct u, a; reflexivity.
  - destruct (set_field_twice a b) as [H|H]; rewrite H; [apply IH|done].
Qed.

Lemma update_fields_twice kwargs : ∀ t,
  Orchestrator.update_fields (Orchestrator.update_fields t kwargs) kwargs
  = Orchestrator.update_fields t kwargs.
Proof.
  induction kwargs as [|a kwargs IH] using rev_ind; intros t; [done|].
  unfold Orchestrator.update_fields in *. rewrite !foldl_app. cbn [foldl].
  pose proof (update_fields_overwritten kwargs) as Hover.
  unfold Orchestrator.update_fields in Hover. by rewrite Hover, IH.
Qed.

Lemma set_status_update_fields v kwargs : ∀ t,
  Orchestrator.set_status v (Orchestrator.update_fields t kwargs)
  = Orchestrator.update_fields (Orchestrator.set_status v t) kwargs.
Proof.
  unfold Orchestrator.update_fields.
  induction kwargs as [|a kwargs IH]; intros t; cbn [foldl]; [done|].
  rewrite IH. f_equal. by destruct t, a.
Qed.

Lemma set_status_twice v w t :
  Orchestrator.set_status v (Orchestrator.set_status w t)
  = Orchestrator.set_status v t.
Proof. by destruct t. Qed.

(** X10.  [update_task_status] is idempotent: the same call a second time
    changes nothing, whatever the keyword arguments and whether or not the
    task is in the queue. *)
Theorem update_task_status_idempotent (task_id status : string)
    (kwargs : list Orchestrator.kwarg) (st : Orchestrator.Store) :
  Orchestrator.update_task_status task_id status kwargs
    (Orchestrator.update_task_status task_id status kwargs st)
  = Orchestrator.update_task_status task_id status kwargs st.
Proof.
  unfold Orchestrator.update_task_status at 2.
  destruct (Orchestrator.read_queue st) as [q|] eqn:Hq.
  - destruct (Orchestrator.tasks q !! task_id) as [t|] eqn:Ht.
    + unfold Orchestrator.update_task_status.
      cbn [Orchestrator.read_queue Orchestrator.queue_file Orchestrator.tasks
           Orchestrator.version Orchestrator.queue_created_at
           Orchestrator.main_task_id Orchestrator.dag
           Orchestrator.execution_order Orchestrator.result_files].
      rewrite Hq, Ht, lookup_insert_eq, insert_insert_eq.
      by rewrite <- set_status_update_fields, update_fields_twice,
        set_status_update_fields, set_status_twice.
    + unfold Orchestrator.update_task_status. by rewrite Hq, Ht.
  - unfold Orchestrator.update_task_status. by rewrite Hq.
Qed.

(** ** The queue file: results *)

(** What [save_result] leaves behind when a result file opens: the
    document at the path, and the queue updated when it holds the task. *)
Lemma save_result_opened open_result_file now now' task_id worker_id output
    execution_time tokens_used st path :
  open_result_file task_id = inr (Orchestrator.result_path path) →
  Orchestrator.save_result open_result_file now now' task_id worker_id output
    execution_time tokens_used st
  = inr (Orchestrator.saved
           (Orchestrator.update_task_status task_id "completed"
              [Orchestrator.kw_worker_id (Some worker_id);
               Orchestrator.kw_result_file (Some path);
               Orchestrator.kw_completed_at (Some now')]
              (Orchestrator.mkStore (Orchestrator.queue_file st)
                 (<[path := Orchestrator.document
                              (Orchestrator.result_dict
                                 (Orchestrator.mkResultFile task_id worker_id
                                    "completed" output execution_time
                                    tokens_used now))]>
                    (Orchestrator.result_files st))))).
Proof. intros Hopen. unfold Orchestrator.save_result. by rewrite Hopen. Qed.

Lemma aggregate_results_lists str st q agg tid t path v :
  Orchestrator.read_queue st = Some q →
  Orchestrator.aggregate_results str st = inr agg →
  Orchestrator.tasks q !! tid = Some t →
  Orchestrator.status t = "completed" →
  Orchestrator.result_file t = Some path → path ≠ "" →
  Orchestrator.result_files st !! path = Some (Orchestrator.document v) →
  (tid, v) ∈ Orchestrator.results agg.
Proof.
  intros Hq Hagg Ht Hs Hf Hpath Hv.
  unfold Orchestrator.aggregate_results in Hagg. rewrite Hq in Hagg.
  pose proof (collect_results_spec st (map_to_list (Orchestrator.tasks q)))
    as Hcollect.
  destruct (Orchestrator.collect_results st
              (map_to_list (Orchestrator.tasks q))) as [e|rs]; [done|].
  destruct (Orchestrator.get_progress st) as [e|p]; [done|].
  destruct (Orchestrator._generate_summary str rs) as [e|text]; [done|].
  injection Hagg as <-. cbn [Orchestrator.results].
  apply Hcollect. exists t. split; [by apply elem_of_map_to_list|].
  apply task_result_document. by exists path.
Qed.

(** X11.  [save_result] and [aggregate_results] round trip.  For a task of
    the queue, [save_result] raises what opening the result file raises, as
    it does for an id that is no file name; for an id that names the queue
    file it writes the result over the queue and updates no task.  When a
    result file opens, it holds the result afterwards, and the task is
    marked completed, with the worker, the path of the result file and the
    second reading of the clock recorded on it, and its description and
    dependencies left alone; and whenever [aggregate_results] returns
    afterwards, it lists the result written under the id of the task. *)
Theorem save_result_round_trip
    (open_result_file : string → Exn + Orchestrator.Opened)
    (str : json → string) (now now' task_id worker_id : string)
    (output : gmap string json) (execution_time : spec_float)
    (tokens_used : Z) (st : Orchestrator.Store) (q : Orchestrator.Queue)
    (t : Orchestrator.SubTask) :
  Orchestrator.read_queue st = Some q →
  Orchestrator.tasks q !! task_id = Some t →
  let result :=
    Orchestrator.result_dict
      (Orchestrator.mkResultFile task_id worker_id "completed" output
         execution_time tokens_used now) in
  match open_result_file task_id with
  | inl e =>
      Orchestrator.save_result open_result_file now now' task_id worker_id
        output execution_time tokens_used st = inl e
  | inr Orchestrator.the_queue_file =>
      Orchestrator.save_result open_result_file now now' task_id worker_id
        output execution_time tokens_used st
      = inr (Orchestrator.queue_overwritten result)
  | inr (Orchestrator.result_path path) =>
      ∃ st' q' t',
        Orchestrator.save_result open_result_file now now' task_id worker_id
          output execution_time tokens_used st = inr (Orchestrator.saved st')
        ∧ Orchestrator.result_files st' !! path
          = Some (Orchestrator.document result)
        ∧ Orchestrator.read_queue st' = Some q'
        ∧ Orchestrator.tasks q' !! task_id = Some t'
        ∧ Orchestrator.status t' = "completed"
        ∧ Orchestrator.worker_id t' = Some worker_id
        ∧ Orchestrator.result_file t' = Some path
        ∧ Orchestrator.completed_at t' = Some now'
        ∧ Orchestrator.description t' = Orchestrator.description t
        ∧ Orchestrator.dependencies t' = Orchestrator.dependencies t
        ∧ (path ≠ "" →
           ∀ agg, Orchestrator.aggregate_results str st' = inr agg →
                  (task_id, result) ∈ Orchestrator.results agg)
  end.
Proof.
  intros Hq Ht result.
  destruct (open_result_file task_id) as [e|[path|]] eqn:Hopen;
    [by unfold Orchestrator.save_result; rewrite Hopen|
    |by unfold Orchestrator.save_result; rewrite Hopen].
  rewrite (save_result_opened _ _ _ _ _ _ _ _ _ path Hopen). fold result.
  set (t' := Orchestrator.update_fields
               (Orchestrator.set_status "completed" t)
               [Orchestrator.kw_worker_id (Some worker_id);
                Orchestrator.kw_result_file (Some path);
                Orchestrator.kw_completed_at (Some now')]).
  set (q' := Orchestrator.mkQueue (Orchestrator.version q)
               (Orchestrator.queue_created_at q) (Orchestrator.main_task_id q)
               (<[task_id := t']> (Orchestrator.tasks q))
               (Orchestrator.dag q) (Orchestrator.execution_order q)).
  set (st' := Orchestrator.mkStore (Some q')
                (<[path := Orchestrator.document result]>
                   (Orchestrator.result_files st))).
  assert (Orchestrator.update_task_status task_id "completed"
            [Orchestrator.kw_worker_id (Some worker_id);
             Orchestrator.kw_result_file (Some path);
             Orchestrator.kw_completed_at (Some now')]
            (Orchestrator.mkStore (Orchestrator.queue_file st)
               (<[path := Orchestrator.document result]>
                  (Orchestrator.result_files st))) = st') as ->.
  { unfold Orchestrator.update_task_status, Orchestrator.read_queue in *.
    cbn [Orchestrator.queue_file]. by rewrite Hq, Ht. }
  assert (Orchestrator.tasks q' !! task_id = Some t') as Ht'
    by apply lookup_insert_eq.
  assert (Orchestrator.result_files st' !! path
          = Some (Orchestrator.document result)) as Hfile
    by apply lookup_insert_eq.
  exists st', q', t'.
  split_and!; [done|done|done|done|by destruct t|by destruct t|by destruct t
              |by destruct t|by destruct t|by destruct t|].
  intros Hpath agg Hagg.
  apply (aggregate_results_lists str st' q' agg task_id t' path);
    [done|done|done|by destruct t|by destruct t|done|done].
Qed.

Lemma save_result_round_trip_witness :
  ∃ st' q' t',
    Orchestrator.save_result Samples.open_result_file "now" "later" "A"
      "worker_1" ∅ (float_of_Z 1) 0%Z Samples.running_store
    = inr (Orchestrator.saved st')
    ∧ Orchestrator.read_queue st' = Some q'
    ∧ Orchestrator.tasks q' !! "A" = Some t'
    ∧ Orchestrator.status t' = "completed"
    ∧ Orchestrator.result_file t' = Some ".trae/swarm/results/A.json"
    ∧ ∀ agg, Orchestrator.aggregate_results (λ _, "") st' = inr agg →
             ("A",
              Orchestrator.result_dict
                (Orchestrator.mkResultFile "A" "worker_1" "completed" ∅
                   (float_of_Z 1) 0%Z "now")) ∈ Orchestrator.results agg.
Proof.
  assert (∃ q, Orchestrator.read_queue Samples.running_store = Some q
               ∧ Orchestrator.tasks q !! "A"
                 = Some (Samples.sub_task "A" [] "running"))
    as (q & Hq & Ht).
  { eexists. split; [reflexivity|by vm_compute]. }
  pose proof (save_result_round_trip Samples.open_result_file (λ _, "") "now"
                "later" "A" "worker_1" ∅ (float_of_Z 1) 0%Z
                Samples.running_store q
                (Samples.sub_task "A" [] "running") Hq Ht) as Hround.
  change (Samples.open_result_file "A")
    with (@inr Exn Orchestrator.Opened
            (Orchestrator.result_path ".trae/swarm/results/A.json"))
    in Hround.
  cbv zeta in Hround.
  destruct Hround
    as (st' & q' & t' & H1 & _ & H2 & H3 & H4 & _ & H5 & _ & _ & _ & H6).
  exists st', q', t'. split_and!; [done..|]. by apply H6.
Defined.

(** X12.  [save_result] for an id the queue does not hold, or without a
    queue file.  It raises what opening the result file raises, as it does
    for an id that is no file name; for an id that names the queue file it
    writes the result over the queue.  When a result file opens, the
    result is written to it all the same, and the queue file, the progress
    it shows and the ready tasks are as before. *)
Theorem save_result_unknown_task
    (open_result_file : string → Exn + Orchestrator.Opened)
    (now now' task_id worker_id : string) (output : gmap string json)
    (execution_time : spec_float) (tokens_used : Z)
    (st : Orchestrator.Store) :
  (∀ q, Orchestrator.read_queue st = Some q →
        Orchestrator.tasks q !! task_id = None) →
  let result :=
    Orchestrator.result_dict
      (Orchestrator.mkResultFile task_id worker_id "completed" output
         execution_time tokens_used now) in
  match open_result_file task_id with
  | inl e =>
      Orchestrator.save_result open_result_file now now' task_id worker_id
        output execution_time tokens_used st = inl e
  | inr Orchestrator.the_queue_file =>
      Orchestrator.save_result open_result_file now now' task_id worker_id
        output execution_time tokens_used st
      = inr (Orchestrator.queue_overwritten result)
  | inr (Orchestrator.result_path path) =>
      ∃ st',
        Orchestrator.save_result open_result_file now now' task_id worker_id
          output execution_time tokens_used st = inr (Orchestrator.saved st')
        ∧ Orchestrator.queue_file st' = Orchestrator.queue_file st
        ∧ Orchestrator.result_files st' !! path
          = Some (Orchestrator.document result)
        ∧ Orchestrator.get_progress st' = Orchestrator.get_progress st
        ∧ Orchestrator.get_ready_tasks st' = Orchestrator.get_ready_tasks st
  end.
Proof.
  intros Hnone result.
  destruct (open_result_file task_id) as [e|[path|]] eqn:Hopen;
    [by unfold Orchestrator.save_result; rewrite Hopen|
    |by unfold Orchestrator.save_result; rewrite Hopen].
  rewrite (save_result_opened _ _ _ _ _ _ _ _ _ path Hopen). fold result.
  eexists. split; [reflexivity|].
  unfold Orchestrator.update_task_status, Orchestrator.read_queue in *.
  cbn [Orchestrator.queue_file].
  destruct (Orchestrator.queue_file st) as [q|] eqn:Hq;
    [rewrite (Hnone q eq_refl)|];
    (split_and!; [done|apply lookup_insert_eq|
                  by unfold Orchestrator.get_progress, Orchestrator.read_queue;
                     cbn [Orchestrator.queue_file]; rewrite ?Hq|
                  by unfold Orchestrator.get_ready_tasks,
                       Orchestrator.read_queue;
                     cbn [Orchestrator.queue_file]; rewrite ?Hq]).
Qed.

Lemma save_result_unknown_task_witness :
  ∃ st',
    Orchestrator.save_result Samples.open_result_file "now" "later" "Z"
      "worker_1" ∅ (float_of_Z 1) 0%Z Samples.running_store
    = inr (Orchestrator.saved st')
    ∧ Orchestrator.queue_file st'
      = Orchestrator.queue_file Samples.running_store
    ∧ is_Some (Orchestrator.result_files st' !! ".trae/swarm/results/Z.json").
Proof.
  assert (∀ q, Orchestrator.read_queue Samples.running_store = Some q →
               Orchestrator.tasks q !! "Z" = None) as Hnone.
  { intros q [= <-]. by vm_compute. }
  pose proof (save_result_unknown_task Samples.open_result_file "now" "later"
                "Z" "worker_1" ∅ (float_of_Z 1) 0%Z Samples.running_store
                Hnone) as Hsave.
  change (Samples.open_result_file "Z")
    with (@inr Exn Orchestrator.Opened
            (Orchestrator.result_path ".trae/swarm/results/Z.json"))
    in Hsave.
  cbv zeta in Hsave.
  destruct Hsave as (st' & H1 & H2 & H3 & _).
  exists st'. split_and!; [done|done|by eexists].
Defined.

(** ** Progress *)

Lemma count_status_partition (l : list (string * Orchestrator.SubTask)) :
  let c s := length (filter (λ p, Orchestrator.status p.2 = s) l) in
  c "completed" + c "running" + c "pending" + c "failed" ≤ length l
  ∧ (c "completed" + c "running" + c "pending" + c "failed" = length l
     ↔ Forall (λ p, counted_status (Orchestrator.status p.2)) l).
Proof.
  cbv zeta. induction l as [|p l [IHle IHiff]].
  - split; [done|]. split; [constructor|done].
  - rewrite !filter_cons, Forall_cons.
    destruct (decide (Orchestrator.status p.2 = "completed")) as [E1|E1];
      [rewrite !E1|];
      (destruct (decide (_ = "running")) as [E2|E2];
         [try discriminate E2; try rewrite !E2|]);
      (destruct (decide (_ = "pending")) as [E3|E3];
         [try discriminate E3; try rewrite !E3|]);
      (destruct (decide (_ = "failed")) as [E4|E4];
         [try discriminate E4|]);
      cbn [length]; unfold counted_status.
    all: split; [lia|].
    all: try (rewrite <- IHiff; split; [intros ?; split; [tauto|lia]
                                       |intros [_ ?]; lia]).
    rewrite <- IHiff. split; [lia|]. intros [[?|[?|[?|?]]] _]; done.
Qed.

(** X13.  The four counters of [get_progress] never add up to more than
    the total, and they add up to the total exactly when every task of the
    queue carries one of the four statuses counted; a task in another
    status, "retrying" for one, is in the total and in no counter. *)
Theorem progress_counters (st : Orchestrator.Store) (q : Orchestrator.Queue)
    (p : Orchestrator.Progress) :
  Orchestrator.read_queue st = Some q →
  Orchestrator.get_progress st = inr p →
  Orchestrator.completed p + Orchestrator.running p + Orchestrator.pending p
  + Orchestrator.failed p ≤ Orchestrator.total p
  ∧ (Orchestrator.completed p + Orchestrator.running p
     + Orchestrator.pending p + Orchestrator.failed p = Orchestrator.total p
     ↔ ∀ tid t, Orchestrator.tasks q !! tid = Some t →
                counted_status (Orchestrator.status t)).
Proof.
  intros Hq Hp. destruct (get_progress_persisted st q Hq) as (x & Hp' & _).
  rewrite Hp' in Hp. injection Hp as <-. cbn.
  destruct (count_status_partition (map_to_list (Orchestrator.tasks q)))
    as [Hle Hiff].
  unfold Orchestrator.count_status. rewrite <- length_map_to_list.
  split; [done|]. rewrite Hiff, Forall_forall. split.
  - intros Hall tid t Ht. by apply (Hall (tid, t)), elem_of_map_to_list.
  - intros Hall [tid t] Ht%elem_of_map_to_list. by eapply Hall.
Qed.

Lemma progress_counters_witness :
  ∃ p, Orchestrator.get_progress Samples.partial_store = inr p
       ∧ Orchestrator.completed p + Orchestrator.running p
         + Orchestrator.pending p + Orchestrator.failed p
         = Orchestrator.total p.
Proof.
  destruct (get_progress_persisted Samples.partial_store
              (Orchestrator.create_queue "2024-01-01T00:00:00" "main_0"
                 [Samples.sub_task "A" [] "failed";
                  Samples.sub_task "B" [] "completed";
                  Samples.sub_task "D" ["A"] "pending"]
                 (Orchestrator.build_dag
                    [Samples.sub_task "A" [] "failed";
                     Samples.sub_task "B" [] "completed";
                     Samples.sub_task "D" ["A"] "pending"])
                 Samples.empty_store).1 eq_refl) as (x & Hp & _).
  eexists. split; [exact Hp|].
  apply (progress_counters Samples.partial_store _ _ eq_refl Hp).
  intros tid t Ht.
  apply (create_queue_tasks_lookup "2024-01-01T00:00:00" "main_0" _ _
           Samples.empty_store) in Ht as [Ht _]; [|by_evaluation].
  unfold counted_status.
  repeat (apply elem_of_cons in Ht as [->|Ht]; [cbn; tauto|]).
  by apply elem_of_nil in Ht.
Defined.


Lemma count_status_all tasks s :
  Orchestrator.count_status tasks s = size tasks
  ↔ ∀ tid t, tasks !! tid = Some t → Orchestrator.status t = s.
Proof.
  unfold Orchestrator.count_status. rewrite <- length_map_to_list.
  assert (∀ l : list (string * Orchestrator.SubTask),
            length (filter (λ p, Orchestrator.status p.2 = s) l) = length l
            ↔ Forall (λ p, Orchestrator.status p.2 = s) l) as Hlen.
  { induction l as [|p l IH]; [split; [constructor|done]|].
    rewrite filter_cons, Forall_cons. pose proof (length_filter
      (λ p : string * Orchestrator.SubTask, Orchestrator.status p.2 = s) l).
    destruct (decide (Orchestrator.status p.2 = s)); cbn [length].
    - rewrite <- IH. split; [intros; split; [done|lia]|intros [_ ?]; lia].
    - split; [lia|tauto]. }
  rewrite Hlen, Forall_forall. split.
  - intros Hall tid t Ht. by apply (Hall (tid, t)), elem_of_map_to_list.
  - intros Hall [tid t] Ht%elem_of_map_to_list. by eapply Hall.
Qed.

(** The percentage is +0.0 or a positive finite double, and on such
    doubles the comparison [==] holds of equal representations only. *)
Lemma percentage_shape (c t : nat) :
  0 < t → c ≤ t → (Z.of_nat t < 2 ^ 53)%Z →
  percentage c t = S754_zero false
  ∨ ∃ m e, percentage c t = S754_finite false m e.
Proof.
  intros Ht Hct Hsmall. unfold percentage.
  destruct (float_of_Z_exact (Z.of_nat t))
    as (mt & et & Eqt & Hmt & Het & Hvt & Hdt); [lia|].
  destruct c as [|c].
  { change (float_of_Z (Z.of_nat 0)) with (S754_zero false). rewrite Eqt.
    by left. }
  destruct (float_of_Z_exact (Z.of_nat (S c)))
    as (mc & ec & Eqc & Hmc & Hec & Hvc & Hdc); [lia|].
  assert (ec ≤ et)%Z as Hle.
  { rewrite Hdc, Hdt.
    pose proof (Zdigits2_mono (Z.of_nat (S c)) (Z.of_nat t)). lia. }
  rewrite Eqc, Eqt.
  destruct (SFdiv_le_one mc ec mt et Hmc Hmt Hec Het)
    as (m & e & -> & Hm & He & Hone & _).
  { destruct (Z.eq_dec ec et) as [Heq|]; [right|left; lia].
    split; [done|]. rewrite Hvc, Hvt, Heq.
    apply Z.mul_le_mono_nonneg_r; [|lia]. apply Z.pow_nonneg. lia. }
  destruct (SFmul_hundred_le m e Hm He Hone) as (m2 & e2 & -> & _).
  right. by eexists _, _.
Qed.

Lemma SFcompare_Eq_finite m e m' e' :
  SFcompare (S754_finite false m e) (S754_finite false m' e') = Some Eq
  ↔ S754_finite false m e = S754_finite false m' e'.
Proof.
  cbn [SFcompare]. split.
  - destruct (Z.compare_spec e e') as [->|?|?]; [|done|done].
    rewrite Pos.compare_cont_spec. cbn [Pos.switch_Eq].
    destruct (Pos.compare_spec m m') as [->|?|?]; done.
  - intros [= -> ->]. rewrite Z.compare_refl, Pos.compare_cont_spec.
    by rewrite Pos.compare_refl.
Qed.

(** X14.  On a queue that holds a task, and fewer than 2^53 of them, the
    percentage of [get_progress] is the double [completed / total * 100];
    it compares equal to 100.0 exactly when every task is completed, and
    equal to 0.0 exactly when none is. *)
Theorem progress_percent_extremes (st : Orchestrator.Store)
    (q : Orchestrator.Queue) (p : Orchestrator.Progress) :
  Orchestrator.read_queue st = Some q →
  Orchestrator.tasks q ≠ ∅ →
  (Z.of_nat (size (Orchestrator.tasks q)) < 2 ^ 53)%Z →
  Orchestrator.get_progress st = inr p →
  ∃ x,
    Orchestrator.progress_percent p = Some (py_float x)
    ∧ x = SFmul 53 1024
            (SFdiv 53 1024
               (float_of_Z (Z.of_nat (Orchestrator.completed p)))
               (float_of_Z (Z.of_nat (Orchestrator.total p))))
            (float_of_Z 100)
    ∧ (SFcompare x (float_of_Z 100) = Some Eq
       ↔ ∀ tid t, Orchestrator.tasks q !! tid = Some t →
                  Orchestrator.status t = "completed")
    ∧ (SFcompare x (S754_zero false) = Some Eq
       ↔ ∀ tid t, Orchestrator.tasks q !! tid = Some t →
                  Orchestrator.status t ≠ "completed").
Proof.
  intros Hq Hne Hsmall Hp.
  destruct (get_progress_persisted st q Hq) as (y & Hp' & _ & Hy).
  rewrite Hp' in Hp. injection Hp as <-.
  assert (0 < size (Orchestrator.tasks q)) as Hpos.
  { destruct (size (Orchestrator.tasks q)) eqn:E; [|lia].
    by apply map_size_empty_iff in E. }
  pose proof (count_status_le (Orchestrator.tasks q) "completed") as Hle.
  set (c := Orchestrator.count_status (Orchestrator.tasks q) "completed")
    in *.
  set (n := size (Orchestrator.tasks q)) in *.
  exists (percentage c n). cbn.
  destruct (percentage_extremes c n Hpos Hle Hsmall) as [Hfull Hzero].
  split_and!; [by rewrite (Hy Hpos)|done| |].
  - rewrite <- count_status_all. fold c n. rewrite <- Hfull.
    change (float_of_Z 100) with (S754_finite false 7036874417766400 (-46)).
    destruct (percentage_shape c n Hpos Hle Hsmall) as [->|(m & e & ->)];
      [done|apply SFcompare_Eq_finite].
  - rewrite <- count_status_zero. fold c. rewrite <- Hzero.
    destruct (percentage_shape c n Hpos Hle Hsmall) as [->|(m & e & ->)];
      done.
Qed.

Lemma progress_percent_extremes_witness :
  ∃ p x, Orchestrator.get_progress Samples.done_store = inr p
         ∧ Orchestrator.progress_percent p = Some (py_float x)
         ∧ SFcompare x (float_of_Z 100) = Some Eq.
Proof.
  set (q := (Orchestrator.create_queue "2024-01-01T00:00:00" "main_0"
               [Samples.sub_task "A" [] "completed"]
               (Orchestrator.build_dag [Samples.sub_task "A" [] "completed"])
               Samples.empty_store).1).
  assert (Orchestrator.read_queue Samples.done_store = Some q) as Hq
    by reflexivity.
  destruct (get_progress_persisted Samples.done_store q Hq) as (y & Hp & _).
  assert (Orchestrator.tasks q ≠ ∅) as Hne by by_evaluation.
  assert (Z.of_nat (size (Orchestrator.tasks q)) < 2 ^ 53)%Z as Hsmall
    by (vm_compute; reflexivity).
  destruct (progress_percent_extremes Samples.done_store q _ Hq Hne Hsmall Hp)
    as (x & Hx & _ & Hfull & _).
  eexists _, x. split; [exact Hp|]. split; [exact Hx|].
  apply Hfull. intros tid t Ht.
  apply (create_queue_tasks_lookup "2024-01-01T00:00:00" "main_0" _ _
           Samples.empty_store) in Ht as [Ht _]; [|by_evaluation].
  apply list_elem_of_singleton in Ht. by subst t.
Defined.

(** ** Releasing a task *)

(** X15.  Completing the last dependency releases the task.  When a
    pending task has every dependency completed but [x], and [x] is another
    task of the queue, then after [update_task_status x "completed"],
    whatever the keyword arguments, and after every [save_result] for [x]
    for which a result file opens, [get_ready_tasks] returns the task. *)
Theorem completing_last_dependency_releases (st : Orchestrator.Store)
    (q : Orchestrator.Queue) (tid x : string) (t : Orchestrator.SubTask)
    (kwargs : list Orchestrator.kwarg) :
  Orchestrator.read_queue st = Some q →
  Orchestrator.tasks q !! tid = Some t →
  Orchestrator.status t = "pending" →
  x ≠ tid → x ∈ dom (Orchestrator.tasks q) →
  (∀ d, d ∈ Orchestrator.dependencies t →
        d = x ∨ ∃ td, Orchestrator.tasks q !! d = Some td
                      ∧ Orchestrator.status td = "completed") →
  t ∈ Orchestrator.get_ready_tasks
        (Orchestrator.update_task_status x "completed" kwargs st)
  ∧ ∀ open_result_file now now' worker_id output execution_time tokens_used
      path,
      open_result_file x = inr (Orchestrator.result_path path) →
      ∃ st',
        Orchestrator.save_result open_result_file now now' x worker_id
          output execution_time tokens_used st = inr (Orchestrator.saved st')
        ∧ t ∈ Orchestrator.get_ready_tasks st'.
Proof.
  intros Hq Ht Hpending Hx [tx Htx]%elem_of_dom Hdeps.
  assert (∀ kwargs files,
            t ∈ Orchestrator.get_ready_tasks
                  (Orchestrator.update_task_status x "completed" kwargs
                     (Orchestrator.mkStore (Orchestrator.queue_file st) files)))
    as Hgen.
  { intros kws files.
    unfold Orchestrator.update_task_status, Orchestrator.get_ready_tasks,
      Orchestrator.read_queue in *. cbn [Orchestrator.queue_file].
    rewrite Hq, Htx. cbn [Orchestrator.queue_file Orchestrator.tasks].
    apply list_elem_of_fmap. exists (tid, t). split; [done|].
    apply list_elem_of_filter. split.
    - cbn [snd]. split; [done|]. apply Forall_forall. intros d Hd.
      apply elem_of_dom. destruct (decide (d = x)) as [->|Hne].
      + eexists. apply map_lookup_filter_Some. split;
          [apply lookup_insert_eq|].
        cbn [snd]. by rewrite update_fields_status, set_status_status.
      + destruct (Hdeps d Hd) as [?|(td & Htd & Hs)]; [done|].
        exists td. apply map_lookup_filter_Some. split; [|done].
        by rewrite lookup_insert_ne.
    - apply elem_of_map_to_list. by rewrite lookup_insert_ne. }
  split.
  - destruct st as [qf files]. apply (Hgen kwargs files).
  - intros open_result_file now now' worker_id output execution_time
      tokens_used path Hopen.
    rewrite (save_result_opened _ _ _ _ _ _ _ _ _ path Hopen).
    eexists. split; [reflexivity|apply Hgen].
Qed.

Lemma completing_last_dependency_releases_witness :
  Samples.sub_task "D" ["A"] "pending"
  ∈ Orchestrator.get_ready_tasks
      (Orchestrator.update_task_status "A" "completed" []
         Samples.running_store).
Proof.
  set (q := (Orchestrator.create_queue "2024-01-01T00:00:00" "main_0"
               [Samples.sub_task "A" [] "running";
                Samples.sub_task "B" [] "completed";
                Samples.sub_task "D" ["A"] "pending"]
               (Orchestrator.build_dag
                  [Samples.sub_task "A" [] "running";
                   Samples.sub_task "B" [] "completed";
                   Samples.sub_task "D" ["A"] "pending"])
               Samples.empty_store).1).
  assert (Orchestrator.read_queue Samples.running_store = Some q) as Hq
    by reflexivity.
  assert (Orchestrator.tasks q !! "D"
          = Some (Samples.sub_task "D" ["A"] "pending")) as Ht
    by (vm_compute; reflexivity).
  assert ("A" ∈ dom (Orchestrator.tasks q)) as Hx by by_evaluation.
  assert ("A" ≠ "D") as Hne by discriminate.
  assert (∀ d, d ∈ Orchestrator.dependencies
                     (Samples.sub_task "D" ["A"] "pending") →
               d = "A" ∨ ∃ td, Orchestrator.tasks q !! d = Some td
                               ∧ Orchestrator.status td = "completed") as Hdeps.
  { intros d Hd. left. by apply list_elem_of_singleton in Hd. }
  destruct (completing_last_dependency_releases Samples.running_store q "D" "A"
              (Samples.sub_task "D" ["A"] "pending") [] Hq Ht eq_refl Hne Hx
              Hdeps) as [Hready _].
  exact Hready.
Defined.


(** ** [run_swarm_workflow] *)

(** X16.  [run_swarm_workflow] on every description and worker count.
    Below a score of 4 it answers simple and creates no pool, so the worker
    count is not looked at.  From 4 on, a worker count that is not positive
    makes the creation of the pool raise [ValueError]; with a positive
    count the fixed six tasks are all run and all end completed, whatever
    the description says. *)
Theorem run_swarm_workflow_outcomes (task_description : string)
    (max_workers : Z) :
  match Workflows.run_swarm_workflow task_description max_workers with
  | inl Workflows.ValueError =>
      4 ≤ Runner.complexity_score task_description ∧ (max_workers ≤ 0)%Z
  | inr Workflows.swarm_simple =>
      Runner.complexity_score task_description < 4
  | inr (Workflows.swarm_result r) =>
      4 ≤ Runner.complexity_score task_description ∧ (0 < max_workers)%Z
      ∧ Runner.summary_status r = "completed"
      ∧ Runner.total_tasks r = 6 ∧ Runner.completed r = 6
      ∧ Runner.failed r = 0
      ∧ dom (Runner.results r)
        = list_to_set (Runner.task_id <$> Runner.decompose_task task_description)
      ∧ Forall (λ t, Runner.status t = "completed") (Runner.final_tasks r)
  end.
Proof.
  unfold Workflows.run_swarm_workflow, Runner.analyze_complexity.
  destruct (4 <=? Runner.complexity_score task_description) eqn:Hscore.
  - apply Nat.leb_le in Hscore. cbn [Runner.swarm_mode negb].
    unfold Workflows.execute_parallel_pool.
    assert (bool_decide
              (Runner.build_execution_order
                 (Runner.decompose_task task_description) ≠ []) = true) as ->.
    { apply bool_decide_eq_true. by vm_compute. }
    cbn [andb]. destruct (max_workers <=? 0)%Z eqn:Hw.
    + apply Z.leb_le in Hw. done.
    + apply Z.leb_gt in Hw.
      split_and!; [done|done|reflexivity|reflexivity| | | |].
      * vm_compute. reflexivity.
      * vm_compute. reflexivity.
      * vm_compute. reflexivity.
      * vm_compute. repeat constructor.
  - apply Nat.leb_gt in Hscore.
    destruct (2 <=? Runner.complexity_score task_description);
      cbn [Runner.swarm_mode negb]; done.
Qed.


(** ** What [execute_parallel] accounts for *)








(** ** The thread pool: termination, and one run per task *)

Lemma step_work_left max_workers s s' :
  Engine.step max_workers s s' → S (work_left s') = work_left s.
Proof.
  intros [level rest tr|rest q1 t q2 run tr Hfree|rest q r1 t r2 ok tr];
    unfold work_left; cbn [Engine.later_levels Engine.submitted Engine.running
                            concat length];
    rewrite ?length_app; cbn [length]; lia.
Qed.

Lemma nsteps_work_left max_workers k s s' :
  nsteps (Engine.step max_workers) k s s' → k + work_left s' = work_left s.
Proof.
  induction 1 as [|k s s1 s' Hstep _ IH]; [done|].
  apply step_work_left in Hstep. lia.
Qed.

(** X18.  The level loop of [execute_parallel] terminates, and no
    schedule of the pool is shorter or longer than another: after [k]
    steps from the start, [k] plus the work left is one step per level and
    two per task, so [k] never exceeds that number; and with at least one
    worker a state without successor is reached after exactly that many
    steps, with every level entered and no task submitted or running. *)
Theorem pool_step_count (max_workers : nat) (levels : list (list string))
    (k : nat) (s : Engine.pool) :
  nsteps (Engine.step max_workers) k (Engine.initial levels) s →
  k + work_left s = length levels + 2 * length (concat levels)
  ∧ k ≤ length levels + 2 * length (concat levels)
  ∧ (0 < max_workers → (∀ s', ¬ Engine.step max_workers s s') →
       k = length levels + 2 * length (concat levels)
       ∧ Engine.later_levels s = [] ∧ Engine.submitted s = []
       ∧ Engine.running s = []).
Proof.
  intros Hsteps. apply nsteps_work_left in Hsteps.
  assert (work_left (Engine.initial levels)
          = length levels + 2 * length (concat levels)) as Hinit.
  { unfold work_left. simpl. lia. }
  split_and!; [lia|lia|].
  intros Hw Hstuck.
  destruct (engine_progress max_workers s Hw) as [(Hl & Hq & Hr)|[s' Hs']];
    [|by destruct (Hstuck s')].
  split_and!; [|done..].
  unfold work_left in Hsteps at 1. rewrite Hl, Hq, Hr in Hsteps.
  simpl in Hsteps. lia.
Qed.

Lemma pool_step_count_witness :
  nsteps (Engine.step 1) 1 (Engine.initial [["A"]])
    (Engine.mkPool [] ["A"] [] [])
  ∧ 1 + work_left (Engine.mkPool [] ["A"] [] []) = 3.
Proof.
  assert (nsteps (Engine.step 1) 1 (Engine.initial [["A"]])
            (Engine.mkPool [] ["A"] [] [])) as Hsteps.
  { eapply nsteps_l; [apply Engine.step_enter_level|apply nsteps_O]. }
  split; [exact Hsteps|].
  apply (pool_step_count 1 [["A"]] 1 _ Hsteps).
Defined.

Lemma count_cons (t u : string) (l : list string) :
  length (filter (λ x, x = t) (u :: l))
  = (if decide (u = t) then 1 else 0) + length (filter (λ x, x = t) l).
Proof. rewrite filter_cons. by destruct (decide (u = t)). Qed.

Lemma count_app (t : string) (l k : list string) :
  length (filter (λ x, x = t) (l ++ k))
  = length (filter (λ x, x = t) l) + length (filter (λ x, x = t) k).
Proof. by rewrite filter_app, length_app. Qed.

Lemma count_NoDup (t : string) (l : list string) :
  NoDup l →
  length (filter (λ x, x = t) l) ≤ 1
  ∧ (t ∈ l → length (filter (λ x, x = t) l) = 1)
  ∧ (t ∉ l → length (filter (λ x, x = t) l) = 0).
Proof.
  induction 1 as [|u l Hu Hnd (IH1 & IH2 & IH3)].
  { split_and!; [simpl; lia|by intros ?%elem_of_nil|done]. }
  rewrite count_cons, elem_of_cons. destruct (decide (u = t)) as [->|Hne].
  - rewrite (IH3 Hu). split_and!; [lia|done|].
    intros Hnot. destruct Hnot. by left.
  - split_and!; [done| |].
    + intros [?|Ht]; [done|]. by rewrite IH2.
    + intros Hnot. rewrite IH3; [done|]. intros Ht. apply Hnot. by right.
Qed.

Lemma starts_of_snoc (t : string) tr e :
  starts_of t (tr ++ [e])
  = starts_of t tr + (if is_start t e then 1 else 0).
Proof.
  unfold starts_of. rewrite filter_app, length_app, filter_cons, filter_nil.
  destruct (is_start t e); [by rewrite decide_True|by rewrite decide_False].
Qed.

Lemma finishes_of_snoc (t : string) tr e :
  finishes_of t (tr ++ [e])
  = finishes_of t tr + (if is_finish t e then 1 else 0).
Proof.
  unfold finishes_of. rewrite filter_app, length_app, filter_cons, filter_nil.
  destruct (is_finish t e); [by rewrite decide_True|by rewrite decide_False].
Qed.

(** Every start of a task takes it from the submitted ones, every
    termination from the running ones, and nothing else moves a task. *)
Lemma engine_accounting max_workers levels s (t : string) :
  Engine.reachable max_workers levels s →
  starts_of t (Engine.trace s)
  + length (filter (λ x, x = t) (Engine.submitted s))
  + length (filter (λ x, x = t) (concat (Engine.later_levels s)))
  = length (filter (λ x, x = t) (concat levels))
  ∧ finishes_of t (Engine.trace s)
    + length (filter (λ x, x = t) (Engine.running s))
    = starts_of t (Engine.trace s).
Proof.
  unfold Engine.reachable. revert s. apply rtc_ind_r; [done|].
  intros s s' _ Hstep [IH1 IH2].
  destruct Hstep as [level rest tr|rest q1 u q2 run tr Hfree
                    |rest q r1 u r2 ok tr];
    cbn [Engine.later_levels Engine.submitted Engine.running Engine.trace
         concat] in *;
    rewrite ?starts_of_snoc, ?finishes_of_snoc, ?count_app, ?count_cons in *;
    cbn [is_start is_finish] in *.
  - rewrite filter_nil in IH1. cbn [length] in IH1. lia.
  - destruct (decide (u = t));
      [rewrite bool_decide_eq_true_2 by done
      |rewrite bool_decide_eq_false_2 by done]; lia.
  - destruct (decide (u = t));
      [rewrite bool_decide_eq_true_2 by done
      |rewrite bool_decide_eq_false_2 by done]; lia.
Qed.

(** X19.  Under every schedule of the pool, a task of the levels of
    [build_execution_order] is started at most once and terminates at most
    as often as it was started; a task of no level is never started; and
    when the loop is over every task of the levels has been started once
    and has terminated once. *)
Theorem scheduled_tasks_run_once (max_workers : nat)
    (tasks : list Runner.SwarmTask) (s : Engine.pool) (t : string) :
  Engine.reachable max_workers
    (Runner.level_ids (Runner.build_execution_order tasks)) s →
  starts_of t (Engine.trace s) ≤ 1
  ∧ finishes_of t (Engine.trace s) ≤ starts_of t (Engine.trace s)
  ∧ (t ∉ concat (Runner.level_ids (Runner.build_execution_order tasks)) →
       starts_of t (Engine.trace s) = 0)
  ∧ (Engine.later_levels s = [] → Engine.submitted s = [] →
     Engine.running s = [] →
     t ∈ concat (Runner.level_ids (Runner.build_execution_order tasks)) →
     starts_of t (Engine.trace s) = 1 ∧ finishes_of t (Engine.trace s) = 1).
Proof.
  intros Hreach.
  destruct (engine_accounting _ _ _ t Hreach) as [H1 H2].
  destruct (count_NoDup t _ (build_execution_order_NoDup tasks))
    as (Hle & Hin & Hout).
  split_and!; [lia|lia|intros Ht; rewrite (Hout Ht) in H1; lia|].
  intros Hl Hq Hr Ht. rewrite (Hin Ht), Hl, Hq in H1. rewrite Hr in H2.
  simpl in H1, H2. lia.
Qed.

Lemma scheduled_tasks_run_once_witness :
  starts_of "A" (Engine.trace Samples.D_started) ≤ 1
  ∧ finishes_of "A" (Engine.trace Samples.D_started)
    ≤ starts_of "A" (Engine.trace Samples.D_started).
Proof.
  destruct (scheduled_tasks_run_once 3 Samples.A_then_D Samples.D_started "A"
              D_started_reachable) as (H1 & H2 & _).
  by split.
Defined.

(** X20.  Under every schedule, the tasks submitted to the pool or
    running at a time all belong to one level. *)
Theorem pool_holds_one_level (max_workers : nat) (levels : list (list string))
    (s : Engine.pool) :
  Engine.reachable max_workers levels s →
  ∃ k, ∀ t, t ∈ Engine.submitted s ∨ t ∈ Engine.running s →
            in_level levels k t.
Proof.
  intros Hreach.
  destruct (reachable_invariant _ _ _ Hreach)
    as (n & _ & _ & _ & _ & Hpool & _).
  exists (n - 1). intros t Ht. by apply Hpool.
Qed.

Lemma pool_holds_one_level_witness :
  ∃ k, ∀ t, t ∈ Engine.submitted Samples.D_started
            ∨ t ∈ Engine.running Samples.D_started →
            in_level
              (Runner.level_ids
                 (Runner.build_execution_order Samples.A_then_D)) k t.
Proof.
  apply (pool_holds_one_level 3 _ Samples.D_started D_started_reachable).
Defined.


(** ** Looking a workflow up *)

Lemma first_dir_with_spec (fs : Workflows.FS) (name : string) :
  match Workflows.first_dir_with fs name with
  | Some d =>
      Workflows.dir_exists fs d = true ∧ Workflows.file_exists fs d name = true
      ∧ (d = Workflows.global_dir →
         Workflows.dir_exists fs Workflows.project_dir = false
         ∨ Workflows.file_exists fs Workflows.project_dir name = false)
  | None =>
      ∀ d, Workflows.dir_exists fs d = true →
           Workflows.file_exists fs d name = false
  end.
Proof.
  unfold Workflows.first_dir_with, Workflows.get_workflow_dirs.
  destruct (Workflows.dir_exists fs Workflows.project_dir) eqn:Hp,
    (Workflows.dir_exists fs Workflows.global_dir) eqn:Hg;
    cbn [app]; rewrite ?filter_cons, ?filter_nil;
    destruct (Workflows.file_exists fs Workflows.project_dir name) eqn:Hfp,
      (Workflows.file_exists fs Workflows.global_dir name) eqn:Hfg;
    repeat (destruct (decide _) as [?|?]; try done); cbn [head];
    try (split_and!; [done|done|intros; auto; done]);
    intros [] ?; congruence.
Qed.

(** X21.  A workflow of the project directory shadows the global one of
    the same name.  [find_workflow_location] answers with a directory that
    exists and holds the file; it answers with the global directory only
    when the project directory is missing or does not hold the file; and it
    answers [None] only when no existing directory holds the file.
    [find_workflow_manager] looks [workflow_manager.py] up the same way. *)
Theorem find_workflow_location_project_first (fs : Workflows.FS)
    (workflow_name : string) :
  match Workflows.find_workflow_location fs workflow_name with
  | Some d =>
      Workflows.dir_exists fs d = true
      ∧ Workflows.file_exists fs d (workflow_name +:+ ".yaml") = true
      ∧ (d = Workflows.global_dir →
         Workflows.dir_exists fs Workflows.project_dir = false
         ∨ Workflows.file_exists fs Workflows.project_dir
             (workflow_name +:+ ".yaml") = false)
  | None =>
      ∀ d, Workflows.dir_exists fs d = true →
           Workflows.file_exists fs d (workflow_name +:+ ".yaml") = false
  end
  ∧ match Workflows.find_workflow_manager fs with
    | Some d =>
        Workflows.dir_exists fs d = true
        ∧ Workflows.file_exists fs d "workflow_manager.py" = true
        ∧ (d = Workflows.global_dir →
           Workflows.dir_exists fs Workflows.project_dir = false
           ∨ Workflows.file_exists fs Workflows.project_dir
               "workflow_manager.py" = false)
    | None =>
        ∀ d, Workflows.dir_exists fs d = true →
             Workflows.file_exists fs d "workflow_manager.py" = false
    end.
Proof. split; apply first_dir_with_spec. Qed.

Lemma match_keywords_Some lower fs text_lower workflow keywords found :
  Workflows.match_keywords lower fs text_lower workflow keywords = Some found →
  found = workflow
  ∧ is_Some (Workflows.find_workflow_location fs workflow)
  ∧ ∃ keyword, keyword ∈ keywords
               ∧ str_in (lower keyword) text_lower = true.
Proof.
  induction keywords as [|kw keywords IH]; cbn [Workflows.match_keywords];
    [done|].
  destruct (str_in (lower kw) text_lower) eqn:Hkw; cbn [andb].
  - case_bool_decide as Hloc.
    + intros [= <-]. split_and!; [done|done|]. exists kw. split; [left|done].
    + intros (-> & ? & kw' & ? & ?)%IH. split_and!; [done|done|].
      exists kw'. split; [by right|done].
  - intros (-> & ? & kw' & ? & ?)%IH. split_and!; [done|done|].
    exists kw'. split; [by right|done].
Qed.

Lemma match_keywords_None lower fs text_lower workflow keywords :
  Workflows.match_keywords lower fs text_lower workflow keywords = None →
  ∀ keyword, keyword ∈ keywords →
             str_in (lower keyword) text_lower = true →
             Workflows.find_workflow_location fs workflow = None.
Proof.
  induction keywords as [|kw keywords IH]; cbn [Workflows.match_keywords];
    [by intros _ ? ?%elem_of_nil|].
  destruct (str_in (lower kw) text_lower) eqn:Hkw; cbn [andb].
  - case_bool_decide as Hloc; [done|].
    intros _ keyword _ _.
    destruct (Workflows.find_workflow_location fs workflow); [|done].
    destruct Hloc. by eexists.
  - intros Hrest keyword [->|Hin]%elem_of_cons Hmatch; [congruence|].
    by eapply IH.
Qed.

Lemma match_triggers_Some lower fs text_lower triggers found :
  Workflows.match_triggers lower fs text_lower triggers = Some found →
  ∃ i keywords,
    triggers !! i = Some (found, keywords)
    ∧ is_Some (Workflows.find_workflow_location fs found)
    ∧ (∃ keyword, keyword ∈ keywords
                  ∧ str_in (lower keyword) text_lower = true)
    ∧ ∀ j workflow keywords' keyword,
        j < i → triggers !! j = Some (workflow, keywords') →
        keyword ∈ keywords' → str_in (lower keyword) text_lower = true →
        Workflows.find_workflow_location fs workflow = None.
Proof.
  induction triggers as [|[w kws] triggers IH]; cbn [Workflows.match_triggers];
    [done|].
  destruct (Workflows.match_keywords lower fs text_lower w kws) as [w'|] eqn:E.
  - intros [= <-]. apply match_keywords_Some in E as (-> & Hloc & Hkw).
    exists 0, kws. split_and!; [done|done|done|]. intros j; lia.
  - intros (i & keywords & Hi & Hloc & Hkw & Hearlier)%IH.
    exists (S i), keywords. split_and!; [done|done|done|].
    intros [|j] workflow keywords' keyword Hj Hlook Hin Hmatch.
    + injection Hlook as <- <-. by eapply match_keywords_None.
    + eapply (Hearlier j); [lia|done..].
Qed.

Lemma match_triggers_None lower fs text_lower triggers :
  Workflows.match_triggers lower fs text_lower triggers = None →
  ∀ workflow keywords keyword,
    (workflow, keywords) ∈ triggers → keyword ∈ keywords →
    str_in (lower keyword) text_lower = true →
    Workflows.find_workflow_location fs workflow = None.
Proof.
  induction triggers as [|[w kws] triggers IH]; cbn [Workflows.match_triggers];
    [by intros _ ??? ?%elem_of_nil|].
  destruct (Workflows.match_keywords lower fs text_lower w kws) as [w'|] eqn:E;
    [done|].
  intros Hrest workflow keywords keyword [Heq|Hin]%elem_of_cons Hkw Hmatch.
  - injection Heq as -> ->. by eapply match_keywords_None.
  - by eapply IH.
Qed.

(** X22.  [find_workflow_by_trigger] never names a workflow that is not
    installed.  The workflow it returns has a file in an existing
    directory and one of its keywords, lowered, occurs in the lowered text;
    no workflow listed before it has both; and [None] is returned only
    when no workflow has both. *)
Theorem find_workflow_by_trigger_sound (lower : string → string)
    (fs : Workflows.FS) (text : string) :
  match Workflows.find_workflow_by_trigger lower fs text with
  | Some found =>
      ∃ i keywords,
        Workflows.triggers !! i = Some (found, keywords)
        ∧ is_Some (Workflows.find_workflow_location fs found)
        ∧ (∃ keyword, keyword ∈ keywords
                      ∧ str_in (lower keyword) (lower text) = true)
        ∧ ∀ j workflow keywords' keyword,
            j < i → Workflows.triggers !! j = Some (workflow, keywords') →
            keyword ∈ keywords' →
            str_in (lower keyword) (lower text) = true →
            Workflows.find_workflow_location fs workflow = None
  | None =>
      ∀ workflow keywords keyword,
        (workflow, keywords) ∈ Workflows.triggers → keyword ∈ keywords →
        str_in (lower keyword) (lower text) = true →
        Workflows.find_workflow_location fs workflow = None
  end.
Proof.
  unfold Workflows.find_workflow_by_trigger. cbv zeta.
  destruct (Workflows.match_triggers lower fs (lower text) Workflows.triggers)
    as [found|] eqn:E.
  - by apply match_triggers_Some.
  - by apply match_triggers_None.
Qed.

(** ** The two analyzers *)

(** X23.  The analyzers of the two files agree on a request that
    contains none of the six keywords only one of them knows: the scores
    and the complexity are the same, and a request the runner puts in
    swarm mode is put in swarm mode by the orchestrator as well. *)
Theorem analyzers_agree (request : string) :
  (∀ kw, kw ∈ ["集成"; "部署"; "测试套件"; "文档系统"; "构建"; "设计"] →
         str_in kw request = false) →
  Runner.complexity_score request = Orchestrator.complexity_score request
  ∧ Runner.complexity (Runner.analyze_complexity request)
    = Orchestrator.complexity (Orchestrator.analyze_task request)
  ∧ (Runner.swarm_mode (Runner.analyze_complexity request) = true →
     Orchestrator.swarm_mode (Orchestrator.analyze_task request) = true).
Proof.
  intros Hnone.
  assert (Runner.complexity_score request
          = Orchestrator.complexity_score request) as Hscore.
  { unfold Runner.complexity_score, Orchestrator.complexity_score,
      keyword_points, Runner.complex_keywords, Orchestrator.keywords_complex,
      Runner.simple_keywords, Orchestrator.keywords_simple.
    f_equal. f_equal. rewrite !filter_cons.
    rewrite (Hnone "集成"), (Hnone "部署"), (Hnone "测试套件"),
      (Hnone "文档系统"), (Hnone "构建"), (Hnone "设计")
      by repeat constructor.
    repeat (destruct (decide _) as [?|?]; try done). }
  split; [done|].
  unfold Runner.analyze_complexity, Orchestrator.analyze_task.
  rewrite Hscore.
  destruct (4 <=? Orchestrator.complexity_score request); [done|].
  destruct (2 <=? Orchestrator.complexity_score request); done.
Qed.

Lemma analyzers_agree_witness :
  Runner.complexity_score Samples.development_request
  = Orchestrator.complexity_score Samples.development_request.
Proof.
  apply (analyzers_agree Samples.development_request).
  intros kw Hkw.
  repeat (apply elem_of_cons in Hkw as [->|Hkw]; [by vm_compute|]).
  by apply elem_of_nil in Hkw.
Defined.
